(** * Caching and rate-limiting core of the news backend

    A shallow embedding of
    - the stale-while-revalidate cache ([AdvancedCache], advancedCache.js),
    - the token-bucket limiter ([GroqRateLimiter], groqRateLimiter.js),
    - the background commentary worker ([CommentaryWorker]),
    together with the properties their specification states, and of the
    code around them: cache invalidation, key builders and the Express
    middleware ([CacheAdmin]), the strategy front of the cache
    ([OptimizationManager]), the limiter's estimates and helper
    ([GroqTools]) and the filling of the worker's queue
    ([CommentaryQueue]). *)

From stdpp Require Import base list strings gmap pretty.
From Stdlib Require Import ZArith Lia Sorted Permutation.

(** ** JavaScript values and helpers shared by the three components *)

(** JSON-like payloads: what a fetch function resolves to and what
    [JSON.stringify]/[JSON.parse] carry through the remote tier. *)
#[warnings="-register-all"]
Inductive value : Type :=
  | VNull
  | VBool (b : bool)
  | VNum (n : Z)
  | VStr (s : string)
  | VArr (items : list value)
  | VObj (fields : list (string * value)).

(** [Array.isArray(x) && x.length === 0] *)
Definition isEmptyArray (x : value) : bool :=
  match x with
  | VArr [] => true
  | _ => false
  end.

(** [s.includes(pat)]: [pat] occurs in [s] as a contiguous substring. *)
Fixpoint includes (s pat : string) : bool :=
  String.prefix pat s ||
  match s with
  | EmptyString => false
  | String _ s' => includes s' pat
  end.

(** A thrown [Error]; only its [message] is ever inspected. *)
Record error : Type := Error { message : string }.

(** Outcome of a call that may throw, or of a promise once settled. *)
Inductive result (A : Type) : Type :=
  | Ok (a : A)
  | Throw (e : error).
Arguments Ok {A} a.
Arguments Throw {A} e.

(** ** node-cache: the in-process tier

    [memoryCache] is an instance of the node-cache package.  The package is
    a dependency, not part of the repository; the operations the cache
    module calls ([get], [set], [del], [keys]) are embedded here after the
    package's implementation (version 5): entries live in a plain object,
    each wrapped with its absolute expiry time [t] in milliseconds, [0]
    meaning "never".

    The embedding is that of the package on [ordinary] keys, which the
    keys built by the cache module are.  On such keys [this.data[key]] is set exactly
    when the key was stored, so that [this.stats.keys] is the number of
    stored keys, and [Object.keys(this.data)] lists them in insertion
    order.  Two kinds of key are outside it: a name of a member of
    [Object.prototype] ([this.data[key]] is then truthy before any [set],
    [set] takes the key for an existing one and [del] for a stored one, and
    [stats.keys] drifts away from the number of keys), and a canonical
    array index (such keys enumerate first, in numeric order). *)
Module NodeCache.
Section WithValue.
Context {V : Type}.

(** The names of the members of [Object.prototype]. *)
Definition objectPrototype : list string :=
  ["constructor"; "__defineGetter__"; "__defineSetter__"; "hasOwnProperty";
   "__lookupGetter__"; "__lookupSetter__"; "isPrototypeOf";
   "propertyIsEnumerable"; "toString"; "valueOf"; "__proto__";
   "toLocaleString"]%string.

Definition isDigit (c : Ascii.ascii) : bool :=
  ((48 <=? Ascii.nat_of_ascii c) && (Ascii.nat_of_ascii c <=? 57))%nat.

Fixpoint allDigits (s : string) : bool :=
  match s with
  | EmptyString => true
  | String c s' => isDigit c && allDigits s'
  end.

(** A decimal numeral without a leading zero: the canonical array indices
    are among these. *)
Definition indexLike (key : string) : bool :=
  match key with
  | EmptyString => false
  | String c s' =>
      isDigit c && allDigits s'
      && (negb (Ascii.nat_of_ascii c =? 48)%nat || String.eqb s' "")
  end.

(** The keys on which the embedding below is that of the package. *)
Definition ordinary (key : string) : bool :=
  negb (bool_decide (key ∈ objectPrototype)) && negb (indexLike key).

Record wrapped : Type := Wrapped { t : Z; v : V }.

Record cache : Type := Cache {
  data : list (string * wrapped);   (* this.data, in insertion order *)
  maxKeys : Z                       (* options.maxKeys, -1 = unbounded *)
}.

Definition with_data (c : cache) (d : list (string * wrapped)) : cache :=
  {| data := d; maxKeys := maxKeys c |}.

(** [this.data[key]] *)
Fixpoint find (key : string) (d : list (string * wrapped)) : option wrapped :=
  match d with
  | [] => None
  | (k, w) :: d' => if String.eqb k key then Some w else find key d'
  end.

(** [delete this.data[key]]: no binding of [key] is left. *)
Definition remove (key : string) (d : list (string * wrapped))
  : list (string * wrapped) :=
  filter (λ kw, kw.1 ≠ key) d.

(** [this.data[key] = w]: an existing key keeps its position, a new key
    is appended. *)
Fixpoint assign (key : string) (w : wrapped) (d : list (string * wrapped))
  : list (string * wrapped) :=
  match d with
  | [] => [(key, w)]
  | (k, w') :: d' =>
      if String.eqb k key then (k, w) :: d' else (k, w') :: assign key w d'
  end.

(** [this.stats.keys], which on ordinary keys is the number of stored
    keys. *)
Definition keyCount (c : cache) : Z := Z.of_nat (length (data c)).

(** [keys()]: [Object.keys(this.data)], on ordinary keys the stored keys in
    insertion order. *)
Definition keys (c : cache) : list string := (data c).*1.

(** [del(key)] *)
Definition del (key : string) (c : cache) : cache :=
  with_data c (remove key (data c)).

(** [_check(key, data)]: an entry whose expiry time is set and lies in
    the past is expired. *)
Definition expired (now : Z) (w : wrapped) : bool :=
  negb (t w =? 0)%Z && (t w <? now)%Z.

(** [get(key)]: the stored value, or [undefined] when the key is missing
    or expired; an expired entry is deleted on the way. *)
Definition get (now : Z) (key : string) (c : cache) : option V * cache :=
  match find key (data c) with
  | Some w => if expired now w then (None, del key c) else (Some (v w), c)
  | None => (None, c)
  end.

(** [_wrap(value, ttl)] for a numeric [ttl] in seconds. *)
Definition wrap (now : Z) (val : V) (ttl : Z) : wrapped :=
  {| t := if (ttl =? 0)%Z then 0%Z else (now + ttl * 1000)%Z; v := val |}.

Definition ECACHEFULL : error := Error "Cache max keys amount exceeded".

(** [set(key, value, ttl)]: refuses with ECACHEFULL once [maxKeys] keys
    are stored (the check precedes the look-up of [key]); otherwise
    stores the wrapped value and returns [true]. *)
Definition set (now : Z) (key : string) (val : V) (ttl : Z) (c : cache)
  : result bool * cache :=
  if (-1 <? maxKeys c)%Z && (maxKeys c <=? keyCount c)%Z
  then (Throw ECACHEFULL, c)
  else (Ok true, with_data c (assign key (wrap now val ttl) (data c))).

(** The invariant of every cache: distinct keys, and no more than
    [maxKeys] of them when a bound is set. *)
Definition wf (c : cache) : Prop :=
  NoDup (keys c) ∧ (-1 < maxKeys c → keyCount c ≤ maxKeys c)%Z.

(** A history of calls made on one cache, each at its own clock time. *)
Inductive op : Type :=
  | OpSet (now : Z) (key : string) (val : V) (ttl : Z)
  | OpGet (now : Z) (key : string)
  | OpDel (key : string).

Definition apply (c : cache) (o : op) : cache :=
  match o with
  | OpSet now key val ttl => (set now key val ttl c).2
  | OpGet now key => (get now key c).2
  | OpDel key => del key c
  end.

Definition run (ops : list op) (c : cache) : cache := foldl apply c ops.

(** The key a call names. *)
Definition opKey (o : op) : string :=
  match o with
  | OpSet _ key _ _ => key
  | OpGet _ key => key
  | OpDel key => key
  end.

(** A history that names ordinary keys only. *)
Definition ordinaryOps (ops : list op) : bool :=
  forallb (λ o, ordinary (opKey o)) ops.

End WithValue.
Arguments wrapped : clear implicits.
Arguments cache : clear implicits.
Arguments op : clear implicits.
End NodeCache.

(** ** advancedCache.js: the stale-while-revalidate orchestrator

    A call of a method is followed from its start to the settling of its
    promise; what other calls do while it awaits the remote tier or the
    fetch function is not interleaved with it.  The clock is part of the
    state and moves while a fetch function is awaited. *)
Module AdvancedCache.
Local Open Scope Z_scope.

(** What both tiers store under a key: [{ data, timestamp }]. *)
Record cacheEntry : Type := CacheEntry { data : value; timestamp : Z }.

(** The remote tier ([redisClient] when it is not [null]).  A stored string
    is the JSON text of a [cacheEntry], kept here as the entry itself with
    the absolute time at which SETEX lets it expire.  [failing] says that
    commands currently reject (connection lost, time-out). *)
Record redis : Type := Redis {
  rdata : gmap string (cacheEntry * Z);
  failing : bool
}.

(** A caller-supplied fetch function, seen through a spy: the answer to an
    invocation depends on how many invocations happened before; it comes
    with the time in milliseconds the promise takes to settle.  Fetch
    functions are external collaborators: they do not touch the caches. *)
Definition fetchFn : Type := nat → nat * result value.

(** A callback handed to [setTimeout] by [backgroundRefresh]. *)
Record timer : Type := Timer {
  due : Z;
  tkey : string;
  tfetch : fetchFn;
  tttl : Z
}.

(** [this.metrics] (the running average of response times is a
    floating-point figure no property here depends on; it is left out). *)
Record metricsT : Type := Metrics { hits : Z; misses : Z; errors : Z }.

(** Module-level and instance state of advancedCache.js. *)
Record state : Type := State {
  now : Z;                                 (* Date.now() *)
  memoryCache : NodeCache.cache cacheEntry;
  redisClient : option redis;
  hitCount : Z;
  missCount : Z;
  metrics : metricsT;
  fetchCalls : nat;                        (* invocations of fetch functions *)
  timers : list timer                      (* pending setTimeout callbacks *)
}.

Definition set_now (x : Z) (s : state) : state :=
  State x (memoryCache s) (redisClient s) (hitCount s) (missCount s)
        (metrics s) (fetchCalls s) (timers s).
Definition set_memoryCache (x : NodeCache.cache cacheEntry) (s : state) : state :=
  State (now s) x (redisClient s) (hitCount s) (missCount s)
        (metrics s) (fetchCalls s) (timers s).
Definition set_redisClient (x : option redis) (s : state) : state :=
  State (now s) (memoryCache s) x (hitCount s) (missCount s)
        (metrics s) (fetchCalls s) (timers s).
Definition set_counters (h m : Z) (x : metricsT) (s : state) : state :=
  State (now s) (memoryCache s) (redisClient s) h m x (fetchCalls s) (timers s).
Definition set_fetchCalls (x : nat) (s : state) : state :=
  State (now s) (memoryCache s) (redisClient s) (hitCount s) (missCount s)
        (metrics s) x (timers s).
Definition set_timers (x : list timer) (s : state) : state :=
  State (now s) (memoryCache s) (redisClient s) (hitCount s) (missCount s)
        (metrics s) (fetchCalls s) x.

(** *** Computations: state plus exceptions *)

Definition M (A : Type) : Type := state → result A * state.

Definition ret {A} (a : A) : M A := λ s, (Ok a, s).
Definition throw {A} (e : error) : M A := λ s, (Throw e, s).
Definition bind {A B} (m : M A) (k : A → M B) : M B :=
  λ s, match m s with
       | (Ok a, s') => k a s'
       | (Throw e, s') => (Throw e, s')
       end.
(** [try { m } catch (e) { h e }]: effects made before the throw stay. *)
Definition try_catch {A} (m : M A) (h : error → M A) : M A :=
  λ s, match m s with
       | (Ok a, s') => (Ok a, s')
       | (Throw e, s') => h e s'
       end.
Definition modify (f : state → state) : M unit := λ s, (Ok (), f s).

Notation "'let!' x ':=' m 'in' k" := (bind m (λ x, k))
  (at level 10, x name, m at level 200, k at level 200).
Notation "'do!' m 'in' k" := (bind m (λ _, k))
  (at level 10, m at level 200, k at level 200).

(** *** Primitive effects *)

Definition Date_now : M Z := λ s, (Ok (now s), s).

(** [await fetchFunction()] *)
Definition call (fetchFunction : fetchFn) : M value :=
  λ s, let '(elapsed, r) := fetchFunction (fetchCalls s) in
       (r, set_now (now s + Z.of_nat elapsed) (set_fetchCalls (S (fetchCalls s)) s)).

Definition memoryCache_get (key : string) : M (option cacheEntry) :=
  λ s, let '(r, c) := NodeCache.get (now s) key (memoryCache s) in
       (Ok r, set_memoryCache c s).

Definition memoryCache_set (key : string) (e : cacheEntry) (ttl : Z) : M bool :=
  λ s, let '(r, c) := NodeCache.set (now s) key e ttl (memoryCache s) in
       (r, set_memoryCache c s).

(** [await redisClient.get(key)] followed by [JSON.parse]. *)
Definition redis_get (r : redis) (key : string) : M (option cacheEntry) :=
  λ s, if failing r then (Throw (Error "Connection is closed."), s)
       else match rdata r !! key with
            | Some (e, expiresAt) =>
                if now s <? expiresAt then (Ok (Some e), s) else (Ok None, s)
            | None => (Ok None, s)
            end.

(** [await redisClient.setex(key, ttl, JSON.stringify(entry))]; the server
    rejects an expiry that is not positive. *)
Definition redis_setex (r : redis) (key : string) (ttl : Z) (e : cacheEntry)
  : M unit :=
  λ s, if failing r then (Throw (Error "Connection is closed."), s)
       else if ttl <=? 0 then (Throw (Error "ERR invalid expire time in setex"), s)
       else (Ok (), set_redisClient
                      (Some (Redis (<[key := (e, now s + ttl * 1000)]> (rdata r))
                                   (failing r))) s).

Definition count_hit : M unit :=
  modify (λ s, set_counters (hitCount s + 1) (missCount s)
                 (Metrics (hits (metrics s) + 1) (misses (metrics s))
                          (errors (metrics s))) s).
Definition count_miss : M unit :=
  modify (λ s, set_counters (hitCount s) (missCount s + 1)
                 (Metrics (hits (metrics s)) (misses (metrics s) + 1)
                          (errors (metrics s))) s).
Definition count_error : M unit :=
  modify (λ s, set_counters (hitCount s) (missCount s)
                 (Metrics (hits (metrics s)) (misses (metrics s))
                          (errors (metrics s) + 1)) s).

(** *** The methods *)

(** [refreshCache(key, fetchFunction, ttl)] *)
Definition refreshCache (key : string) (fetchFunction : fetchFn) (ttl : Z)
  : M value :=
  try_catch
    (let! freshData := call fetchFunction in
     if includes key "articles" && isEmptyArray freshData
     then ret freshData
     else
       let! t := Date_now in
       let cacheEntry := {| data := freshData; timestamp := t |} in
       do! memoryCache_set key cacheEntry ttl in
       let! client := (λ s, (Ok (redisClient s), s)) in
       do! match client with
           | Some r => try_catch (redis_setex r key ttl cacheEntry) (λ _, ret ())
           | None => ret ()
           end in
       ret freshData)
    (λ error, throw error).

(** [backgroundRefresh(key, fetchFunction, ttl)]: arms a 100 ms timer. *)
Definition backgroundRefresh (key : string) (fetchFunction : fetchFn) (ttl : Z)
  : M unit :=
  modify (λ s, set_timers (timers s ++ [Timer (now s + 100) key fetchFunction ttl]) s).

(** The callback of that timer, run by the event loop when it fires. *)
Definition backgroundRefresh_callback (tm : timer) : M unit :=
  try_catch (do! refreshCache (tkey tm) (tfetch tm) (tttl tm) in ret ())
            (λ _, ret ()).

(** The options object of [getWithSWR]; an absent field takes its default. *)
Record options : Type := Options {
  ttl : option Z;
  staleTime : option Z;
  priority : option string
}.

(** Lines 118-140: the look-up in the remote tier, filling the local one. *)
Definition redis_lookup (key : string) (ttl : Z) : M (option value) :=
  let! client := (λ s, (Ok (redisClient s), s)) in
  match client with
  | Some r =>
      try_catch
        (let! redisData := redis_get r key in
         match redisData with
         | Some parsedData =>
             do! memoryCache_set key
                   {| data := data parsedData; timestamp := timestamp parsedData |}
                   ttl in
             do! count_hit in
             ret (Some (data parsedData))
         | None => ret None
         end)
        (λ redisError, do! count_error in ret None)
  | None => ret None
  end.

(** [getWithSWR(key, fetchFunction, options)] *)
Definition getWithSWR (key : string) (fetchFunction : fetchFn) (o : options)
  : M value :=
  let ttl := default 300 (ttl o) in
  let staleTime := default 60 (staleTime o) in
  let priority := default "normal"%string (priority o) in
  try_catch
    (let! memoryData := memoryCache_get key in
     match memoryData with
     | Some memoryData =>
         do! count_hit in
         let! t := Date_now in
         let age := t - timestamp memoryData in
         let isStale := (ttl - staleTime) * 1000 <? age in
         do! (if isStale && negb (String.eqb priority "low")
              then backgroundRefresh key fetchFunction ttl
              else ret ()) in
         ret (data memoryData)
     | None =>
         let! fromRedis := redis_lookup key ttl in
         match fromRedis with
         | Some d => ret d
         | None =>
             do! count_miss in
             let! freshData := refreshCache key fetchFunction ttl in
             ret freshData
         end
     end)
    (λ error,
       do! count_error in
       try_catch (call fetchFunction) (λ fetchError, throw fetchError)).

(** [advancedCache.cleanup()], run every five minutes.  For the key counts
    a cache of at most 500 keys can hold, [Math.floor(keyCount * 0.2)] is
    the integer quotient [keyCount / 5]: the double nearest to 0.2 lies
    above 0.2 by less than 2^-56, so the product never drops below the
    exact fifth. *)
Definition cleanup : M unit :=
  λ s, let keyCount := NodeCache.keyCount (memoryCache s) in
       if 400 <? keyCount then
         let keys := NodeCache.keys (memoryCache s) in
         let keysToDelete := take (Z.to_nat (keyCount / 5)) keys in
         (Ok (), set_memoryCache
                   (foldl (λ c key, NodeCache.del key c) (memoryCache s) keysToDelete)
                   s)
       else (Ok (), s).

(** The module as loaded: an empty local tier of at most 500 keys. *)
Definition initial (t0 : Z) (client : option redis) : state :=
  {| now := t0;
     memoryCache := NodeCache.Cache [] 500;
     redisClient := client;
     hitCount := 0; missCount := 0;
     metrics := Metrics 0 0 0;
     fetchCalls := 0;
     timers := [] |}.

(** The clock moves on by [dt] milliseconds while the module is idle. *)
Definition advance (dt : nat) (s : state) : state :=
  set_now (now s + Z.of_nat dt) s.

(** Absent from the local tier: [memoryCache.get(key)] is [undefined]. *)
Definition local_absent (key : string) (s : state) : Prop :=
  (NodeCache.get (now s) key (memoryCache s)).1 = None.

(** Absent from the remote tier: no client, a client whose commands fail,
    or no live entry under the key. *)
Definition remote_absent (key : string) (s : state) : Prop :=
  match redisClient s with
  | None => True
  | Some r =>
      failing r = true ∨
      match rdata r !! key with
      | Some (_, expiresAt) => expiresAt ≤ now s
      | None => True
      end
  end.

(** The policy a call runs under, defaults applied. *)
Definition ttl_of (o : options) : Z := default 300 (ttl o).
Definition staleTime_of (o : options) : Z := default 60 (staleTime o).
Definition priority_of (o : options) : string :=
  default "normal"%string (priority o).

(** Two states hold the same cached data. *)
Definition same_tiers (s s' : state) : Prop :=
  memoryCache s' = memoryCache s ∧ redisClient s' = redisClient s.

(** The fallback of [getWithSWR]: count the error, fetch directly. *)
Definition fallback (f : fetchFn) : M value :=
  do! count_error in try_catch (call f) (λ fetchError, throw fetchError).

(** What [refreshCache] leaves in the remote tier after a local store. *)
Definition store_remote (key : string) (ttl : Z) (e : cacheEntry) (s : state)
  : state :=
  match redisClient s with
  | Some r =>
      if failing r || (ttl <=? 0) then s
      else set_redisClient
             (Some (Redis (<[key := (e, now s + ttl * 1000)]> (rdata r)) (failing r))) s
  | None => s
  end.

(** Concrete situations used to exercise the statements below. *)
Module Scenario.
Definition home : string := "articles:home:20:0".
Definition headlines : value := VArr [VStr "budget vote"; VStr "cup final"].
Definition defaults : options := Options None None None.
Definition background : options := Options None None (Some "low"%string).

(** [home] was stored at time 1000 ms under the default ttl of 300 s;
    the clock now reads [t]. *)
Definition warm (t : Z) : state :=
  {| now := t;
     memoryCache :=
       NodeCache.Cache
         [(home, NodeCache.Wrapped 301000 (CacheEntry headlines 1000))] 500;
     redisClient := None;
     hitCount := 0; missCount := 0; metrics := Metrics 0 0 0;
     fetchCalls := 0; timers := [] |}.

(** An upstream that fails once and then answers. *)
Definition flaky : fetchFn :=
  λ n, match n with
       | O => (5%nat, Throw (Error "upstream 503"))
       | _ => (5%nat, Ok headlines)
       end.
(** An upstream that is down. *)
Definition down : fetchFn := λ _, (5%nat, Throw (Error "upstream 503")).
(** An upstream that answers with no articles. *)
Definition nothing : fetchFn := λ _, (5%nat, Ok (VArr [])).
Definition steady : fetchFn := λ _, (5%nat, Ok headlines).

(** Six distinct keys set one after the other, a millisecond apart. *)
Definition page (n : Z) : cacheEntry := CacheEntry (VNum n) n.
Definition sixSets : list (NodeCache.op cacheEntry) :=
  [NodeCache.OpSet 1 "k1" (page 1) 300; NodeCache.OpSet 2 "k2" (page 2) 300;
   NodeCache.OpSet 3 "k3" (page 3) 300; NodeCache.OpSet 4 "k4" (page 4) 300;
   NodeCache.OpSet 5 "k5" (page 5) 300; NodeCache.OpSet 6 "k6" (page 6) 300].
(** A local tier of capacity 5. *)
Definition five : NodeCache.cache cacheEntry := NodeCache.Cache [] 5.
(** The module with that tier, after the six sets. *)
Definition crowded : state :=
  set_memoryCache (NodeCache.run sixSets five) (initial 7 None).
End Scenario.

End AdvancedCache.

(** ** groqRateLimiter.js: token budget and request queue

    The limiter runs on one event loop.  Between two [await]s a method runs
    to completion, so the class is a state machine whose events are: a call
    of [executeRequest], the settling of a request function that is in
    flight, the firing of a queue time-out, the two interval timers, and
    [clearQueue].  Real time is abstracted: an armed timer may fire at any
    later point until it is cleared. *)
Module GroqRateLimiter.
Local Open Scope Z_scope.

(** The object [executeImmediate] resolves to
    ([waitTime], a duration, is left out). *)
Record response : Type := Response {
  r_success : bool;
  r_data : value;
  r_requestId : string;
  r_tokensUsed : Z
}.

(** An entry of [this.queue].  [requestFunction] is kept as what its promise
    settles to once it is invoked; [resolve] and [reject] settle the promise
    handed to the caller, which [deliveries] below records under
    [requestId]; [timeout] is the handle returned by [setTimeout]. *)
Record queueEntry : Type := QueueEntry {
  requestFunction : result value;
  estimatedTokens : Z;
  priority : string;
  requestId : string;
  startTime : Z;
  timeout : nat
}.

(** A call of [executeImmediate] suspended at [await requestFunction()].
    [f_entry] is the queue entry whose dispatch inside [processQueue]
    awaits this call, [None] for a call admitted by [executeRequest]. *)
Record frame : Type := Frame {
  f_requestFunction : result value;
  f_estimatedTokens : Z;
  f_requestId : string;
  f_entry : option queueEntry
}.

(** [this.metrics] (without the floating-point [avgWaitTime]). *)
Record metricsT : Type := Metrics {
  requestsCompleted : Z;
  requestsQueued : Z;
  tokensUsed : Z;
  errors : Z
}.

(** An armed queue time-out: its handle, the [requestId] its callback
    captured and its delay in milliseconds. *)
Record timer : Type := Timer { handle : nat; t_requestId : string; delay : Z }.

Record limiter : Type := Limiter {
  tokensPerMinute : Z;
  availableTokens : Z;
  queue : list queueEntry;
  metrics : metricsT;
  timers : list timer;
  nextTimer : nat;                               (* next setTimeout handle *)
  inflight : list frame;
  deliveries : list (string * result response);  (* resolve/reject calls, oldest first *)
  executed : list string;     (* ids of the "Executing immediate request" log lines *)
  enqueued : list queueEntry  (* entries of the "Queued request" log lines *)
}.

(** [new GroqRateLimiter({ tokensPerMinute })] *)
Definition create (tpm : Z) : limiter :=
  {| tokensPerMinute := (if tpm =? 0 then 5500 else tpm);
     availableTokens := (if tpm =? 0 then 5500 else tpm);
     queue := []; metrics := Metrics 0 0 0 0;
     timers := []; nextTimer := 0; inflight := [];
     deliveries := []; executed := []; enqueued := [] |}.

(** The state of the promise a caller holds: the first settle attempt made
    on it wins, [None] while it is pending. *)
Fixpoint promise (id : string) (ds : list (string * result response))
  : option (result response) :=
  match ds with
  | [] => None
  | (id', r) :: ds' => if String.eqb id' id then Some r else promise id ds'
  end.

(** [resolve(r)] / [reject(r)] on the promise of request [id]. *)
Definition deliver (id : string) (r : result response) (s : limiter) : limiter :=
  Limiter (tokensPerMinute s) (availableTokens s) (queue s) (metrics s)
          (timers s) (nextTimer s) (inflight s) (deliveries s ++ [(id, r)])
          (executed s) (enqueued s).

(** [clearTimeout(h)] *)
Definition clearTimeout (h : nat) (s : limiter) : limiter :=
  Limiter (tokensPerMinute s) (availableTokens s) (queue s) (metrics s)
          (filter (λ tm, handle tm ≠ h) (timers s)) (nextTimer s) (inflight s)
          (deliveries s) (executed s) (enqueued s).

Definition set_queue (q : list queueEntry) (s : limiter) : limiter :=
  Limiter (tokensPerMinute s) (availableTokens s) q (metrics s)
          (timers s) (nextTimer s) (inflight s) (deliveries s)
          (executed s) (enqueued s).

Definition set_inflight (fs : list frame) (s : limiter) : limiter :=
  Limiter (tokensPerMinute s) (availableTokens s) (queue s) (metrics s)
          (timers s) (nextTimer s) fs (deliveries s)
          (executed s) (enqueued s).

(** [executeImmediate], lines 80-85: debit, log, invoke the request
    function and suspend. *)
Definition executeImmediate_begin (fn : result value) (est : Z) (id : string)
    (entry : option queueEntry) (s : limiter) : limiter :=
  Limiter (tokensPerMinute s) (availableTokens s - est) (queue s)
          (Metrics (requestsCompleted (metrics s)) (requestsQueued (metrics s))
                   (tokensUsed (metrics s) + est) (errors (metrics s)))
          (timers s) (nextTimer s) (Frame fn est id entry :: inflight s)
          (deliveries s) (executed s ++ [id]) (enqueued s).

(** [executeImmediate], lines 85-107: the request function has settled. *)
Definition executeImmediate_resume (fr : frame) (s : limiter)
  : result response * limiter :=
  match f_requestFunction fr with
  | Ok result =>
      (Ok (Response true result (f_requestId fr) (f_estimatedTokens fr)),
       Limiter (tokensPerMinute s) (availableTokens s) (queue s)
               (Metrics (requestsCompleted (metrics s) + 1)
                        (requestsQueued (metrics s))
                        (tokensUsed (metrics s)) (errors (metrics s)))
               (timers s) (nextTimer s) (inflight s) (deliveries s)
               (executed s) (enqueued s))
  | Throw error =>
      (Throw error,
       Limiter (tokensPerMinute s) (availableTokens s + f_estimatedTokens fr)
               (queue s)
               (Metrics (requestsCompleted (metrics s))
                        (requestsQueued (metrics s))
                        (tokensUsed (metrics s) - f_estimatedTokens fr)
                        (errors (metrics s) + 1))
               (timers s) (nextTimer s) (inflight s) (deliveries s)
               (executed s) (enqueued s))
  end.

(** [queueRequest]: arm the time-out, insert by priority, count. *)
Definition queueRequest (fn : result value) (est : Z) (prio : string)
    (timeoutMs : Z) (id : string) (start : Z) (s : limiter) : limiter :=
  let queueEntry := QueueEntry fn est prio id start (nextTimer s) in
  Limiter (tokensPerMinute s) (availableTokens s)
          (if String.eqb prio "high"
           then queueEntry :: queue s
           else queue s ++ [queueEntry])
          (Metrics (requestsCompleted (metrics s)) (requestsQueued (metrics s) + 1)
                   (tokensUsed (metrics s)) (errors (metrics s)))
          (timers s ++ [Timer (nextTimer s) id timeoutMs]) (S (nextTimer s))
          (inflight s) (deliveries s) (executed s) (enqueued s ++ [queueEntry]).

(** The options object of [executeRequest]. *)
Record options : Type := Options {
  o_estimatedTokens : option Z;
  o_priority : option string;
  o_timeout : option Z
}.

(** [executeRequest(requestFunction, options)]; [id] and [start] are the
    request id and the time it draws from the clock and the random source. *)
Definition executeRequest (fn : result value) (o : options) (id : string)
    (start : Z) (s : limiter) : limiter :=
  let estimatedTokens := default 200 (o_estimatedTokens o) in
  let priority := default "normal"%string (o_priority o) in
  let timeout := default 30000 (o_timeout o) in
  if estimatedTokens <=? availableTokens s
  then executeImmediate_begin fn estimatedTokens id None s
  else queueRequest fn estimatedTokens priority timeout id start s.

(** One turn of the loop of [processQueue]: dispatch the head if the budget
    covers it, which suspends the loop until that request settles;
    otherwise leave the loop. *)
Definition processQueue (s : limiter) : limiter :=
  match queue s with
  | [] => s
  | queueEntry :: rest =>
      if (0 <? availableTokens s) && (estimatedTokens queueEntry <=? availableTokens s)
      then executeImmediate_begin (requestFunction queueEntry)
             (estimatedTokens queueEntry) (requestId queueEntry) (Some queueEntry)
             (clearTimeout (timeout queueEntry) (set_queue rest s))
      else s
  end.

(** The request function of the [n]-th call in flight settles: the call
    resumes, its caller's promise is settled and, for a call made by
    [processQueue], the loop goes on. *)
Definition settle (n : nat) (s : limiter) : limiter :=
  match inflight s !! n with
  | None => s
  | Some fr =>
      let '(r, s') := executeImmediate_resume fr (set_inflight (delete n (inflight s)) s) in
      match f_entry fr with
      | None => deliver (f_requestId fr) r s'
      | Some queueEntry => processQueue (deliver (requestId queueEntry) r s')
      end
  end.

(** [findIndex] and [splice(index, 1)] on the queue. *)
Fixpoint splice (id : string) (q : list queueEntry)
  : option (queueEntry * list queueEntry) :=
  match q with
  | [] => None
  | e :: q' =>
      if String.eqb (requestId e) id then Some (e, q')
      else match splice id q' with
           | Some (removed, q'') => Some (removed, e :: q'')
           | None => None
           end
  end.

(** [removeFromQueue(requestId)] *)
Definition removeFromQueue (id : string) (s : limiter) : limiter :=
  match splice id (queue s) with
  | Some (removed, q') => clearTimeout (timeout removed) (set_queue q' s)
  | None => s
  end.

Definition timedOut (id : string) : error :=
  Error ("Request " +:+ id +:+ " timed out in queue").

(** The callback of the timer with handle [h] runs. *)
Definition onTimeout (h : nat) (s : limiter) : limiter :=
  match list_find (λ tm, handle tm = h) (timers s) with
  | None => s
  | Some (_, tm) =>
      deliver (t_requestId tm) (Throw (timedOut (t_requestId tm)))
        (removeFromQueue (t_requestId tm) (clearTimeout h s))
  end.

(** The one-minute interval: refill, then drain. *)
Definition refill (s : limiter) : limiter :=
  processQueue
    (Limiter (tokensPerMinute s) (tokensPerMinute s) (queue s) (metrics s)
             (timers s) (nextTimer s) (inflight s) (deliveries s)
             (executed s) (enqueued s)).

(** [clearQueue()] *)
Definition clearQueue (s : limiter) : limiter :=
  set_queue []
    (foldl (λ s' entry, deliver (requestId entry) (Throw (Error "Queue cleared"))
                          (clearTimeout (timeout entry) s'))
           s (queue s)).

Inductive event : Type :=
  | Call (fn : result value) (o : options) (id : string) (start : Z)
  | Settle (n : nat)
  | Timeout (h : nat)
  | Refill
  | Tick
  | ClearQueue.

Definition step (s : limiter) (ev : event) : limiter :=
  match ev with
  | Call fn o id start => executeRequest fn o id start s
  | Settle n => settle n s
  | Timeout h => onTimeout h s
  | Refill => refill s
  | Tick => processQueue s
  | ClearQueue => clearQueue s
  end.

Definition run (evs : list event) (s : limiter) : limiter := foldl step s evs.

Definition isHigh (e : queueEntry) : bool := String.eqb (priority e) "high".

(** The order in which a history of queued requests is served: the
    high-priority ones, newest first, then the others, oldest first. *)
Definition dispatchOrder (log : list queueEntry) : list queueEntry :=
  rev (filter (λ e, isHigh e) log) ++ filter (λ e, ¬ isHigh e) log.

(** A step that queues nothing: the log is as before and the queue lost
    entries at most. *)
Definition shrinks (s s' : limiter) : Prop :=
  enqueued s' = enqueued s ∧ sublist (queue s') (queue s).

(** First in, first out within a priority class: of two waiting requests
    of one class, the one ahead in the queue was queued first. *)
Definition fifo_within_class (s : limiter) : Prop :=
  ∀ i j a b,
    (i < j)%nat → queue s !! i = Some a → queue s !! j = Some b →
    priority a = priority b →
    ∃ i' j', (i' < j')%nat ∧ enqueued s !! i' = Some a ∧ enqueued s !! j' = Some b.

(** Tokens debited for calls that are in flight. *)
Definition held (s : limiter) : Z :=
  foldr (λ fr acc, f_estimatedTokens fr + acc) 0 (inflight s).

(** Tokens debited for calls that completed: the [tokensUsed] of the
    responses handed to callers. *)
Definition spent (s : limiter) : Z :=
  foldr (λ d acc, match d.2 with
                  | Ok r => r_tokensUsed r + acc
                  | Throw _ => acc
                  end) 0 (deliveries s).

(** The requests admitted since the limiter was in state [s0] (those whose
    id the execution log of [s0] does not hold) and what they are charged
    in [s]: the estimate of each one in flight and the [tokensUsed] of each
    one completed since; a request that failed has been credited back and
    is charged nothing. *)
Definition charged (s0 s : limiter) : Z :=
  foldr (λ fr acc, if bool_decide (f_requestId fr ∈ executed s0) then acc
                   else f_estimatedTokens fr + acc) 0 (inflight s)
  + foldr (λ d acc, match d.2 with
                    | Ok r => if bool_decide (r_requestId r ∈ executed s0) then acc
                              else r_tokensUsed r + acc
                    | Throw _ => acc
                    end) 0 (drop (length (deliveries s0)) (deliveries s)).


(** The estimate a call runs under, default applied. *)
Definition cost (o : options) : Z := default 200 (o_estimatedTokens o).




(** The event is a call that draws the request id [id]. *)
Definition draws (id : string) (ev : event) : Prop :=
  match ev with
  | Call _ _ id' _ => id' = id
  | _ => False
  end.

(** Request [id] is out of the limiter's hands: it neither waits in the
    queue nor is in flight, its caller's promise is settled with [r], and
    the execution log beyond [before] does not mention it. *)
Definition quiet (id : string) (r : result response) (before : list string)
    (s : limiter) : Prop :=
  (id ∉ requestId <$> queue s)
  ∧ (id ∉ f_requestId <$> inflight s)
  ∧ promise id (deliveries s) = Some r
  ∧ ∃ l, executed s = before ++ l ∧ id ∉ l.

(** The request ids drawn by the calls of a run, in order. *)
Definition drawn (evs : list event) : list string :=
  omap (λ ev, match ev with
              | Call _ _ id _ => Some id
              | _ => None
              end) evs.

(** What holds of the limiter as long as calls draw distinct ids ([ids]
    lists those drawn so far): no id waits or runs twice; only drawn ids
    occur; the promise of a waiting request is pending and the request has
    not been executed; every armed timer belongs to a waiting request and
    carries its handle; a call in flight on behalf of a queue entry carries
    the entry's id. *)
Definition consistent (ids : list string) (s : limiter) : Prop :=
  NoDup ((requestId <$> queue s) ++ (f_requestId <$> inflight s))
  ∧ (∀ id, id ∈ (requestId <$> queue s) ++ (f_requestId <$> inflight s)
               ++ (deliveries s).*1 ++ executed s → id ∈ ids)
  ∧ (∀ e, e ∈ queue s →
       (requestId e ∉ (deliveries s).*1) ∧ (requestId e ∉ executed s))
  ∧ (∀ tm, tm ∈ timers s →
       ∃ e, e ∈ queue s ∧ requestId e = t_requestId tm ∧ timeout e = handle tm)
  ∧ (∀ fr e, fr ∈ inflight s → f_entry fr = Some e → requestId e = f_requestId fr).

(** Concrete situations used to exercise the statements below. *)
Module Scenario.
Definition ask (tokens : Z) (prio : string) : options :=
  Options (Some tokens) (Some prio) (Some 100).
Definition text (s : string) : result value := Ok (VStr s).

(** A bucket of 100 tokens taken whole by one call; two high-priority
    calls and one normal call arrive while it runs. *)
Definition busy : limiter :=
  run [Call (text "r0") (ask 100 "normal") "r0" 0;
       Call (text "n1") (ask 40 "normal") "n1" 1;
       Call (text "h1") (ask 30 "high") "h1" 2;
       Call (text "h2") (ask 30 "high") "h2" 3]
      (create 100).

(** The first call completes, the bucket refills, and each dispatched
    request completes in turn. *)
Definition drained : limiter :=
  run [Settle 0; Refill; Settle 0; Settle 0; Settle 0] busy.

(** A call takes the whole bucket of 100 tokens and is still in flight
    when the bucket refills. *)
Definition straddling : list event :=
  [Call (Throw (Error "429")) (ask 100 "normal") "r0" 0].

(** In the new window that call fails, and two calls of 100 tokens
    arrive. *)
Definition rush : list event :=
  [Settle 0;
   Call (text "a") (ask 100 "normal") "a" 1;
   Call (text "b") (ask 100 "normal") "b" 2].

(** A window that opens with one request completed and one, of 60 tokens,
    in flight. *)
Definition carried : limiter :=
  run [Call (text "p") (ask 30 "normal") "p" 0;
       Call (Throw (Error "429")) (ask 60 "normal") "q" 1;
       Settle 1; Refill]
      (create 100).
End Scenario.

End GroqRateLimiter.

(** ** The background commentary worker *)
Module CommentaryWorker.
Local Open Scope Z_scope.

(** An element of [this.queue]. *)
Record item : Type := Item {
  articleId : string;
  title : string;
  content : string;
  category : string;
  priority : Z;
  addedAt : Z
}.

Definition set_priority (p : Z) (i : item) : item :=
  Item (articleId i) (title i) (content i) (category i) p (addedAt i).

Record worker : Type := Worker {
  queue : list item;
  processedToday : Z;
  maxDailyCommentaries : Z;
  saved : list (string * string)   (* commentaries written by saveCommentary *)
}.

(** [new CommentaryWorker()] *)
Definition create : worker := Worker [] 0 100 [].

(** [queue.sort((a, b) => b.priority - a.priority)]: the sort is stable and
    orders by descending priority; sorting by insertion from the right gives
    the same array. *)
Fixpoint insert (x : item) (l : list item) : list item :=
  match l with
  | [] => [x]
  | y :: l' => if priority x <? priority y then y :: insert x l' else x :: y :: l'
  end.

Definition sort (l : list item) : list item := foldr insert [] l.

(** The test the [catch] block makes on [error.message]. *)
Definition isTemporary (e : error) : bool :=
  includes (message e) "Rate limit" || includes (message e) "timeout".

(** The [catch] block of [processQueue]: a job that failed on a temporary
    error goes back with its priority lowered, at least 1, and the queue is
    sorted again; after any other error the job is gone. *)
Definition handleFailure (error : error) (item : item) (w : worker) : worker :=
  if isTemporary error
  then Worker (sort (queue w ++ [set_priority (Z.max 1 (priority item - 1)) item]))
              (processedToday w) (maxDailyCommentaries w) (saved w)
  else w.

Section Collaborators.
(** [generateCommentary(item)]: the commentary text, [null] when the
    completion is empty, or the error thrown by the rate-limited call. *)
Variable generateCommentary : item → result (option string).
(** [saveCommentary(articleId, commentary)]; it rethrows the error of
    the data-access layer. *)
Variable saveCommentary : string → string → result unit.

(** [processQueue()], when nothing else touches the worker while it
    awaits its collaborators. *)
Definition processQueue (w : worker) : worker :=
  match queue w with
  | [] => w
  | item :: rest =>
      if maxDailyCommentaries w <=? processedToday w then w
      else
        let w1 := Worker rest (processedToday w) (maxDailyCommentaries w) (saved w) in
        match generateCommentary item with
        | Ok (Some commentary) =>
            match saveCommentary (articleId item) commentary with
            | Ok _ => Worker rest (processedToday w + 1) (maxDailyCommentaries w)
                             (saved w ++ [(articleId item, commentary)])
            | Throw error => handleFailure error item w1
            end
        | Ok None => w1
        | Throw error => handleFailure error item w1
        end
  end.
End Collaborators.

(** Descending order of priorities. *)
Definition descending (l : list item) : Prop :=
  Sorted (λ a b, priority b ≤ priority a) l.

(** The job as it is requeued after a temporary failure. *)
Definition demoted (i : item) : item :=
  set_priority (Z.max 1 (priority i - 1)) i.

(** Concrete situations used to exercise the statements below. *)
Module Scenario.
Definition rateLimited : error := Error "Rate limit exceeded".
Definition refused : error := Error "Invalid API key".
Definition busyUpstream : item → result (option string) := λ _, Throw rateLimited.
Definition brokenUpstream : item → result (option string) := λ _, Throw refused.
Definition store : string → string → result unit := λ _ _, Ok ().

(** A job at the base priority 5 of [calculatePriority], behind it a job
    at priority 3. *)
Definition budgetVote : item := Item "a1" "Budget vote" "..." "politics" 5 0.
Definition cupFinal : item := Item "a2" "Cup final" "..." "sports" 3 0.
Definition fresh : worker := Worker [budgetVote; cupFinal] 0 100 [].

(** The worker after [n] ticks during which the upstream is rate limited. *)
Fixpoint starved (n : nat) : worker :=
  match n with
  | O => fresh
  | S n' => processQueue busyUpstream store (starved n')
  end.
End Scenario.

End CommentaryWorker.

(** ** advancedCache.js: invalidation, key builders and the Express middleware *)
Module CacheAdmin.
Import AdvancedCache.
Local Open Scope Z_scope.

(** [await redisClient.del(...keys)] *)
Definition redis_del (r : redis) (keys : list string) : M unit :=
  λ s, if failing r then (Throw (Error "Connection is closed."), s)
       else (Ok (), set_redisClient
                      (Some (Redis (foldr (λ k m, base.delete k m) (rdata r) keys)
                                   (failing r))) s).

(** [await redisClient.flushall()] *)
Definition redis_flushall (r : redis) : M unit :=
  λ s, if failing r then (Throw (Error "Connection is closed."), s)
       else (Ok (), set_redisClient (Some (Redis ∅ (failing r))) s).

Definition client : M (option redis) := λ s, (Ok (redisClient s), s).

(** [delete(key)] *)
Definition delete (key : string) : M unit :=
  do! modify (λ s, set_memoryCache (NodeCache.del key (memoryCache s)) s) in
  let! redisClient := client in
  match redisClient with
  | Some r => try_catch (redis_del r [key]) (λ _, ret ())
  | None => ret ()
  end.

(** [clearAll()]; [memoryCache.flushAll()] empties the local tier. *)
Definition clearAll : M unit :=
  do! modify (λ s, set_memoryCache (NodeCache.with_data (memoryCache s) []) s) in
  let! redisClient := client in
  do! match redisClient with
      | Some r => try_catch (redis_flushall r) (λ _, ret ())
      | None => ret ()
      end in
  modify (set_counters 0 0 (Metrics 0 0 0)).

Section Glob.
(** The pattern matcher of the remote server's KEYS command. *)
Variable glob : string → string → bool.


End Glob.

(** [getArticleKey(category = 'home', limit = 20, offset = 0)]; the numbers
    are integers, printed in decimal by the template string. *)
Definition getArticleKey (category : option string) (limit offset : option Z)
  : string :=
  "articles:" +:+ default "home"%string category +:+ ":"
  +:+ pretty (default 20 limit) +:+ ":" +:+ pretty (default 0 offset).

(** [getArticleByIdKey(id)] *)
Definition getArticleByIdKey (id : string) : string := "article:" +:+ id.

(** What JavaScript takes for true in a condition. *)
Definition truthy (x : value) : bool :=
  match x with
  | VNull => false
  | VBool b => b
  | VNum n => negb (n =? 0)
  | VStr s => negb (String.eqb s "")
  | VArr _ | VObj _ => true
  end.

(** The parts of an Express request the middleware reads. *)
Record request : Type := Request { method : string; originalUrl : string }.

(** The options of [cacheMiddleware]. *)
Record middlewareOptions : Type := MiddlewareOptions {
  keyGenerator : option (request → string);
  mw_ttl : option Z;
  condition : option (request → bool)
}.

(** How the middleware leaves a request: passed on untouched, answered
    from the cache, or passed on with [res.json] wrapped so that the
    response is stored under [key]. *)
Inductive served : Type :=
  | Bypass
  | Hit (key : string) (cachedData : value)
  | Miss (key : string).

(** The fetch function the middleware hands to [getWithSWR]. *)
Definition nullFetch : fetchFn := λ _, (0%nat, Ok VNull).

(** [cacheMiddleware(options)(req, res, next)] *)
Definition cacheMiddleware (o : middlewareOptions) (req : request) : M served :=
  let keyGenerator :=
    default (λ req, method req +:+ ":" +:+ originalUrl req) (keyGenerator o) in
  let ttl := default 300 (mw_ttl o) in
  let condition := default (λ _, true) (condition o) in
  if negb (condition req) || negb (String.eqb (method req) "GET") then ret Bypass
  else
    let key := keyGenerator req in
    try_catch
      (let! cachedData := getWithSWR key nullFetch (Options (Some ttl) None None) in
       if truthy cachedData then ret (Hit key cachedData) else ret (Miss key))
      (λ _, ret Bypass).


End CacheAdmin.

(** ** optimizationManager.js: the strategy-based front of the cache *)
Module OptimizationManager.
Import AdvancedCache.
Local Open Scope Z_scope.

(** [x.fromCache] and [x.data]: a field of an object, [undefined] ([None])
    on any other value that is not [null], a TypeError on [null]. *)
Fixpoint field (name : string) (fields : list (string * value)) : option value :=
  match fields with
  | [] => None
  | (k, x) :: fields' => if String.eqb k name then Some x else field name fields'
  end.

Definition prop (name : string) (x : value) : result (option value) :=
  match x with
  | VNull =>
      Throw (Error ("Cannot read properties of null (reading '" +:+ name +:+ "')"))
  | VObj fields => Ok (field name fields)
  | _ => Ok None
  end.

(** An entry of [config.cacheStrategies]. *)
Record strategyConfig : Type := StrategyConfig {
  cfg_ttl : Z;
  staleWhileRevalidate : bool
}.

(** [this.config.cacheStrategies[strategy] || { ttl: 300, staleWhileRevalidate: true }] *)
Definition cacheStrategy (strategy : string) : strategyConfig :=
  if String.eqb strategy "articles" then StrategyConfig 300 true
  else if String.eqb strategy "commentary" then StrategyConfig 3600 true
  else if String.eqb strategy "nyt" then StrategyConfig 1800 true
  else if String.eqb strategy "subscribers" then StrategyConfig 600 false
  else StrategyConfig 300 true.

(** [getWithSWR] receives [cacheConfig.ttl], a number, where it expects its
    options object; destructuring a number finds none of [ttl],
    [staleTime] and [priority], so every default applies (the fourth
    argument has no parameter to bind to). *)
Definition destructured (ttl : Z) : options := Options None None None.

(** The manager's flag and the cache counters of the performance monitor
    ([trackCachePerformance]; its averages and alerts are left out). *)
Record manager : Type := Manager {
  isInitialized : bool;
  monitorHits : Z;
  monitorMisses : Z
}.

(** [performanceMonitor.trackCachePerformance(hit, duration)] *)
Definition trackCachePerformance (hit : bool) (m : manager) : manager :=
  if hit then Manager (isInitialized m) (monitorHits m + 1) (monitorMisses m)
  else Manager (isInitialized m) (monitorHits m) (monitorMisses m + 1).

Definition truthy_opt (x : option value) : bool :=
  match x with
  | Some x => CacheAdmin.truthy x
  | None => false
  end.

(** [smartCache(key, fetchFunction, strategy)]; [None] is [undefined]. *)
Definition smartCache (key : string) (fetchFunction : fetchFn) (strategy : string)
    (m : manager) (s : state) : result (option value) * manager * state :=
  let direct (m : manager) (s : state) :=
    let '(r, s') := call fetchFunction s in
    (match r with Ok x => Ok (Some x) | Throw e => Throw e end, m, s') in
  if negb (isInitialized m) then direct m s
  else
    let cacheConfig := cacheStrategy strategy in
    match getWithSWR key fetchFunction (destructured (cfg_ttl cacheConfig)) s with
    | (Ok result, s1) =>
        match prop "fromCache" result with
        | Ok fromCache =>
            match prop "data" result with
            | Ok data => (Ok data, trackCachePerformance (truthy_opt fromCache) m, s1)
            | Throw error =>
                direct (trackCachePerformance false
                          (trackCachePerformance (truthy_opt fromCache) m)) s1
            end
        | Throw error => direct (trackCachePerformance false m) s1
        end
    | (Throw error, s1) => direct (trackCachePerformance false m) s1
    end.

(** Values that are neither objects nor [null]: strings, numbers,
    booleans and arrays. *)
Definition plain (x : value) : bool :=
  match x with
  | VNull | VObj _ => false
  | _ => true
  end.

End OptimizationManager.

(** Concrete situations used to exercise the statements on the cache. *)
Module Situations.
Import AdvancedCache CacheAdmin OptimizationManager.
Local Open Scope Z_scope.

(** A healthy remote tier holding the home page, stored at time 1000. *)
Definition shared : redis :=
  Redis {[ Scenario.home := (CacheEntry Scenario.headlines 1000, 301000) ]} false.

(** The module just loaded beside that remote tier, at time [t]. *)
Definition cold (t : Z) : state := initial t (Some shared).

(** A local tier holding [n] pages under the keys "page:0", "page:1", ... *)
Definition bulk (n : nat) : state :=
  set_memoryCache
    (NodeCache.Cache
       ((λ i : nat, ("page:" +:+ pretty i,
                     NodeCache.Wrapped 301000 (Scenario.page (Z.of_nat i)))) <$> seq 0 n)
       500)
    (initial 1000 None).

Definition stock : middlewareOptions := MiddlewareOptions None None None.
Definition ready : manager := Manager true 0 0.
Definition essay : fetchFn := λ _, (5%nat, Ok (VStr "A measured view."))
.
End Situations.

(** ** The limiter's helpers: estimates, the Express helper, status *)
Module GroqTools.
Import GroqRateLimiter.
Local Open Scope Z_scope.

(** The members every object literal inherits from [Object.prototype]:
    looked up in the [overhead] table they yield a function or an object,
    and the sum [estimateTokens] returns is then a string, not a number. *)
Definition inherited : list string :=
  ["constructor"; "__defineGetter__"; "__defineSetter__"; "hasOwnProperty";
   "__lookupGetter__"; "__lookupSetter__"; "isPrototypeOf";
   "propertyIsEnumerable"; "toString"; "valueOf"; "__proto__";
   "toLocaleString"]%string.

(** The own keys of the [overhead] table. *)
Definition overhead (type : string) : option Z :=
  if String.eqb type "completion" then Some 50
  else if String.eqb type "analysis" then Some 30
  else if String.eqb type "summary" then Some 40
  else None.

(** [estimateTokens(text, type = 'completion')]; [None] when the result is
    not a number.  [String.length] stands for [text.length]. *)
Definition estimateTokens (text : string) (type : option string) : option Z :=
  if String.eqb text "" then Some 50
  else
    let type := default "completion"%string type in
    let baseTokens := (Z.of_nat (String.length text) + 3) / 4 in
    match overhead type with
    | Some n => Some (baseTokens + n)
    | None => if bool_decide (type ∈ inherited) then None else Some (baseTokens + 50)
    end.

(** [a || b] on strings that may be [undefined]. *)
Definition orString (a : option string) (b : string) : string :=
  match a with
  | Some s => if String.eqb s "" then b else s
  | None => b
  end.

(** The [requestOptions] of [req.executeGroqRequest]. *)
Record requestOptions : Type := RequestOptions {
  ro_text : option string;
  ro_type : option string;
  ro_priority : option string;
  ro_timeout : option Z
}.

(** The options [req.executeGroqRequest] passes on to [executeRequest];
    [body] is [req.body?.text]. *)
Definition forwarded (o : requestOptions) (body : option string) : option options :=
  let text := orString (ro_text o) (orString body "") in
  match estimateTokens text (ro_type o) with
  | Some estimatedTokens =>
      Some (Options (Some estimatedTokens)
                    (Some (orString (ro_priority o) "normal"))
                    (Some (match ro_timeout o with
                           | Some t => if t =? 0 then 30000 else t
                           | None => 30000
                           end)))
  | None => None
  end.

(** [req.executeGroqRequest(requestFunction, requestOptions)] *)
Definition executeGroqRequest (fn : result value) (o : requestOptions)
    (body : option string) (id : string) (start : Z) (s : limiter) : option limiter :=
  match forwarded o body with
  | Some o' => Some (executeRequest fn o' id start s)
  | None => None
  end.

(** [getStatus().queuedTokens] *)
Definition queuedTokens (q : list queueEntry) : Z :=
  foldl (λ sum entry, sum + estimatedTokens entry) 0 q.

(** What the caller of a queued request receives once the request has been
    dispatched and its request function has settled. *)
Definition outcome (e : queueEntry) : string * result response :=
  (requestId e,
   match requestFunction e with
   | Ok result => Ok (Response true result (requestId e) (estimatedTokens e))
   | Throw error => Throw error
   end).

(** Tokens that stay debited once the requests of [q] have settled: a
    failed request hands its tokens back. *)
Definition kept (q : list queueEntry) : Z :=
  foldr (λ e acc, match requestFunction e with
                  | Ok _ => estimatedTokens e + acc
                  | Throw _ => acc
                  end) 0 q.

(** The time-outs of the waiting requests: handles are distinct and were
    issued, and each is armed under the request's id. *)
Definition armed (s : limiter) : Prop :=
  NoDup (timeout <$> queue s)
  ∧ (∀ e, e ∈ queue s → (timeout e < nextTimer s)%nat)
  ∧ (∀ e, e ∈ queue s → ∃ d, Timer (timeout e) (requestId e) d ∈ timers s).

(** The promises that were resolved, not rejected. *)
Definition succeeded (d : string * result response) : bool :=
  match d.2 with
  | Ok _ => true
  | Throw _ => false
  end.

Definition completions (s : limiter) : list (string * result response) :=
  filter (λ d, succeeded d) (deliveries s).

(** The counters against the logs: as many requests queued as "Queued
    request" lines, as many completed as resolved promises, and every
    executed request either completed, failed or still in flight. *)
Definition tally (s : limiter) : Prop :=
  requestsQueued (metrics s) = Z.of_nat (length (enqueued s))
  ∧ requestsCompleted (metrics s) = Z.of_nat (length (completions s))
  ∧ requestsCompleted (metrics s) + errors (metrics s) + Z.of_nat (length (inflight s))
    = Z.of_nat (length (executed s)).

(** The characters of a request id: [req_], digits of the clock and of a
    base-36 fraction. *)
Definition idChar (c : Ascii.ascii) : bool :=
  let n := Ascii.nat_of_ascii c in
  ((48 <=? n) && (n <=? 57) || (97 <=? n) && (n <=? 122) || (n =? 95))%nat.

Fixpoint idString (s : string) : bool :=
  match s with
  | EmptyString => true
  | String c s' => idChar c && idString s'
  end.

Module Scenario.
Import GroqRateLimiter.Scenario.
(** Three requests wait while the whole bucket is taken; the second one
    will fail upstream. *)
Definition waiting : limiter :=
  run [Call (text "r0") (ask 100 "normal") "r0" 0;
       Call (text "a") (ask 40 "normal") "a" 1;
       Call (Throw (Error "upstream 500")) (ask 30 "normal") "b" 2;
       Call (text "c") (ask 30 "normal") "c" 3;
       Settle 0]
      (create 100).
Definition calls : list event :=
  [Call (text "r0") (ask 100 "normal") "r0" 0;
   Call (text "a") (ask 40 "normal") "a" 1;
   Call (text "b") (ask 30 "high") "b" 2;
   Timeout 0;
   Call (text "c") (ask 30 "normal") "c" 3].
End Scenario.
End GroqTools.

(** ** The worker's queue: filling it, and runs that overlap *)
Module CommentaryQueue.
Import CommentaryWorker.
Local Open Scope Z_scope.

(** An article document as the worker reads it.  [a_created] is the time
    value of [new Date(article.createdAt || article.publishedAt)], [None]
    for an invalid date; an absent [section] reads as the empty string,
    which the prompt treats alike. *)
Record article : Type := Article {
  a_id : string;
  a_title : string;
  a_abstract : option string;
  a_content : option string;
  a_section : string;
  a_commentary : option string;
  a_created : option Z;
  a_views : option Z;
  a_shares : option Z
}.

(** Truthiness of a string that may be [undefined]. *)
Definition present (s : option string) : bool :=
  match s with
  | Some s => negb (String.eqb s "")
  | None => false
  end.

(** [a || b] on strings that may be [undefined]. *)
Definition orElse (a : option string) (b : string) : string :=
  if present a then default ""%string a else b.

(** [n && n > bound] on a count that may be [undefined]. *)
Definition above (bound : Z) (n : option Z) : bool :=
  match n with
  | Some n => bound <? n
  | None => false
  end.

Definition highPriorityCategories : list string :=
  ["politics"; "business"; "technology"; "health"]%string.

(** [calculatePriority(article)] at time [now]; an age in hours is below
    [h] when the age in milliseconds is below [h * 3600000], and no
    comparison holds of an invalid date. *)
Definition calculatePriority (now : Z) (article : article) : Z :=
  let priority := 5 in
  let priority :=
    match a_created article with
    | Some t =>
        let age := now - t in
        if age <? 6 * 3600000 then priority + 3
        else if age <? 24 * 3600000 then priority + 2
        else if age <? 48 * 3600000 then priority + 1
        else priority
    | None => priority
    end in
  let priority :=
    if bool_decide (a_section article ∈ highPriorityCategories)
    then priority + 2 else priority in
  let priority := if above 100 (a_views article) then priority + 1 else priority in
  let priority := if above 10 (a_shares article) then priority + 1 else priority in
  Z.min priority 10.

(** [isInQueue(articleId)] *)
Definition isInQueue (q : list item) (id : string) : bool :=
  existsb (λ item, String.eqb (articleId item) id) q.

(** The body of the loop of [addArticlesToQueue]. *)
Definition enqueue (now : Z) (q : list item) (article : article) : list item :=
  if negb (present (a_commentary article)) && negb (isInQueue q (a_id article))
  then q ++ [Item (a_id article) (a_title article)
                  (orElse (a_abstract article) (orElse (a_content article) ""))
                  (a_section article) (calculatePriority now article) now]
  else q.

Definition with_queue (q : list item) (w : worker) : worker :=
  Worker q (processedToday w) (maxDailyCommentaries w) (saved w).

(** [addArticlesToQueue(articles)] at time [now]. *)
Definition addArticlesToQueue (now : Z) (articles : list article) (w : worker)
  : worker :=
  with_queue (sort (foldl (enqueue now) (queue w) articles)) w.

(** [populateQueue()]; [fetched] is what [getAllArticles(50, 0)] settles
    to.  A failure is logged and swallowed. *)
Definition populateQueue (now : Z) (fetched : result (list article)) (w : worker)
  : worker :=
  match fetched with
  | Ok articles =>
      let articlesNeedingCommentary :=
        filter (λ article, present (a_commentary article) = false) articles in
      if bool_decide (articlesNeedingCommentary = []) then w
      else addArticlesToQueue now articlesNeedingCommentary w
  | Throw _ => w
  end.

(** A call of [processQueue] suspended at one of its two [await]s. *)
Inductive call : Type :=
  | AwaitGenerate (item : item)
  | AwaitSave (item : item) (commentary : string).

Definition job (c : call) : item :=
  match c with
  | AwaitGenerate item => item
  | AwaitSave item _ => item
  end.

(** The worker together with the calls of [processQueue] in progress. *)
Record pool : Type := Pool { self : worker; suspended : list call }.

(** What can happen to the worker: the two ways to fill the queue, the
    30-second timer entering [processQueue], the commentary or the
    database write of the [n]-th call in progress settling, and the
    midnight reset. *)
Inductive op : Type :=
  | Add (now : Z) (articles : list article)
  | Populate (now : Z) (fetched : result (list article))
  | Enter
  | Generated (n : nat) (r : result (option string))
  | Saved (n : nat) (r : result unit)
  | Reset.

(** [processQueue] up to [await this.generateCommentary(item)]. *)
Definition processQueue_begin (s : pool) : pool :=
  let w := self s in
  match queue w with
  | [] => s
  | item :: rest =>
      if maxDailyCommentaries w <=? processedToday w then s
      else Pool (with_queue rest w) (suspended s ++ [AwaitGenerate item])
  end.

(** [processQueue] from the commentary to [await this.saveCommentary],
    or to the end. *)
Definition processQueue_generated (n : nat) (r : result (option string)) (s : pool) : pool :=
  match suspended s !! n with
  | Some (AwaitGenerate item) =>
      match r with
      | Ok (Some commentary) =>
          Pool (self s) (<[n := AwaitSave item commentary]> (suspended s))
      | Ok None => Pool (self s) (delete n (suspended s))
      | Throw error => Pool (handleFailure error item (self s)) (delete n (suspended s))
      end
  | _ => s
  end.

(** [processQueue] from the database write to the end. *)
Definition processQueue_saved (n : nat) (r : result unit) (s : pool) : pool :=
  match suspended s !! n with
  | Some (AwaitSave item commentary) =>
      match r with
      | Ok _ =>
          let w := self s in
          Pool (Worker (queue w) (processedToday w + 1) (maxDailyCommentaries w)
                       (saved w ++ [(articleId item, commentary)]))
               (delete n (suspended s))
      | Throw error => Pool (handleFailure error item (self s)) (delete n (suspended s))
      end
  | _ => s
  end.

Definition perform (s : pool) (o : op) : pool :=
  match o with
  | Add now articles => Pool (addArticlesToQueue now articles (self s)) (suspended s)
  | Populate now fetched => Pool (populateQueue now fetched (self s)) (suspended s)
  | Enter => processQueue_begin s
  | Generated n r => processQueue_generated n r s
  | Saved n r => processQueue_saved n r s
  | Reset =>
      let w := self s in
      Pool (Worker (queue w) 0 (maxDailyCommentaries w) (saved w)) (suspended s)
  end.

Definition perform_all (ops : list op) (s : pool) : pool := foldl perform s ops.

(** The worker as the module exports it. *)
Definition start : pool := Pool create [].

(** A schedule in which [processQueue] is entered, and the queue filled,
    only while no call of [processQueue] is in progress. *)
Fixpoint serial (ops : list op) (s : pool) : bool :=
  match ops with
  | [] => true
  | o :: ops' =>
      match o with
      | Add _ _ | Populate _ _ | Enter => bool_decide (suspended s = [])
      | _ => true
      end && serial ops' (perform s o)
  end.

(** The article ids the worker holds: in the queue or in progress. *)
Definition inHand (s : pool) : list string :=
  (articleId <$> queue (self s)) ++ (articleId <$> (job <$> suspended s)).

(** Priorities stay within the scale. *)
Definition ranked (i : item) : Prop := 1 ≤ priority i ≤ 10.

Module Scenario.
Import CommentaryWorker.Scenario.
Definition vote : article :=
  Article "a1" "Budget vote" (Some "The house votes today.") None "politics"
          None (Some 0) (Some 250) None.
Definition final : article :=
  Article "a2" "Cup final" None (Some "Extra time.") "sports" None (Some 0) None None.
Definition recap : article :=
  Article "a3" "Week in review" None None "opinion" (Some "Already written.")
          (Some 0) None None.
Definition hour : Z := 3600000.
Definition day : list op :=
  [Add hour [vote; final; recap]; Enter; Generated 0 (Throw rateLimited);
   Add (2 * hour) [vote; final]; Enter; Generated 0 (Ok (Some "Sound."));
   Saved 0 (Ok ()); Reset].
(** The same article is offered again while its job is in progress. *)
Definition overlap : list op :=
  [Add hour [final]; Enter; Add hour [final]; Generated 0 (Throw rateLimited)].
End Scenario.
End CommentaryQueue.

(** * Properties of the local tier *)
Module NodeCacheFacts.
Import NodeCache.
Section WithValue.
Context {V : Type}.
Implicit Types (c : cache V) (d : list (string * wrapped V)) (w : wrapped V).

Lemma eqb_decide (a b : string) : String.eqb a b = bool_decide (a = b).
Proof.
  destruct (String.eqb_spec a b); [rewrite bool_decide_eq_true_2 | rewrite bool_decide_eq_false_2]; done.
Qed.

Lemma find_None key d : find key d = None ↔ key ∉ d.*1.
Proof.
  induction d as [|[k w] d IH]; simpl.
  - split; [intros _; apply not_elem_of_nil | done].
  - rewrite eqb_decide. case_bool_decide; subst.
    + split; [done | intros Hk; destruct Hk; left].
    + rewrite IH, not_elem_of_cons. intuition congruence.
Qed.

Lemma find_remove_eq key d : find key (remove key d) = None.
Proof.
  apply find_None. unfold remove. intros (kw & -> & Hin)%list_elem_of_fmap.
  apply list_elem_of_filter in Hin as [Hne _]. done.
Qed.


Lemma find_assign_eq key w d : find key (assign key w d) = Some w.
Proof.
  induction d as [|[k w'] d IH]; simpl.
  - by rewrite String.eqb_refl.
  - destruct (String.eqb k key) eqn:E; simpl; rewrite E; done.
Qed.

Lemma find_assign_ne key k w d : k ≠ key → find k (assign key w d) = find k d.
Proof.
  intros Hne. induction d as [|[k' w'] d IH]; simpl.
  - rewrite eqb_decide, bool_decide_eq_false_2 by done. done.
  - destruct (String.eqb_spec k' key) as [->|]; simpl.
    + rewrite !eqb_decide, !bool_decide_eq_false_2 by done. done.
    + by rewrite IH.
Qed.

Lemma keys_assign key w d :
  (assign key w d).*1 = if bool_decide (key ∈ d.*1) then d.*1 else d.*1 ++ [key].
Proof.
  induction d as [|[k w'] d IH]; [done|]. cbn [assign].
  - destruct (String.eqb_spec k key) as [->|Hne]; rewrite !fmap_cons; cbn [fst].
    + rewrite bool_decide_eq_true_2; [done | left].
    + rewrite IH. case_bool_decide as Hin.
      * rewrite bool_decide_eq_true_2; [done | by right].
      * rewrite bool_decide_eq_false_2; [done |].
        rewrite not_elem_of_cons. naive_solver.
Qed.

Lemma length_assign key w d :
  length (assign key w d) = if bool_decide (key ∈ d.*1) then length d else S (length d).
Proof.
  rewrite <-(length_fmap fst (assign key w d)), keys_assign.
  case_bool_decide; rewrite ?length_app, length_fmap; simpl; lia.
Qed.

(** A look-up that finds a value leaves the cache as it was. *)
Lemma get_Some now key c x c' : get now key c = (Some x, c') → c' = c.
Proof.
  unfold get. destruct (find key (data c)) as [w|]; [|done].
  destruct (expired now w); congruence.
Qed.

(** After a look-up that finds nothing, the key is not bound. *)
Lemma get_None_find now key c :
  (get now key c).1 = None → find key (data (get now key c).2) = None.
Proof.
  unfold get. destruct (find key (data c)) as [w|] eqn:E; [|done].
  destruct (expired now w); [|done]. intros _. simpl. apply find_remove_eq.
Qed.

(** A key that is not bound is not found, whatever the time. *)
Lemma get_unbound now key c : find key (data c) = None → get now key c = (None, c).
Proof. unfold get. by intros ->. Qed.

Lemma wf_set now key x ttl c : wf c → wf (set now key x ttl c).2.
Proof.
  intros [Hnd Hmax]. unfold set.
  destruct (_ && _) eqn:E; [done|]. simpl. split.
  - unfold keys. simpl. rewrite keys_assign. case_bool_decide; [done|].
    apply NoDup_app. split_and!; [done| |apply NoDup_singleton].
    intros k Hk ->%list_elem_of_singleton. done.
  - unfold keyCount in *. simpl. intros Hm. rewrite length_assign.
    apply andb_false_iff in E as [E|E]; [lia|].
    case_bool_decide; unfold keyCount in *; lia.
Qed.

Lemma wf_del key c : wf c → wf (del key c).
Proof.
  intros [Hnd Hmax]. unfold del, remove. split.
  - unfold keys in *. simpl. induction (data c) as [|[k w] d IH]; [done|].
    rewrite filter_cons. simpl in *. apply NoDup_cons in Hnd as [Hk Hnd].
    case_decide; simpl; [|by apply IH].
    apply NoDup_cons. split; [|by apply IH].
    intros (kw & Heq & Hin)%list_elem_of_fmap. apply list_elem_of_filter in Hin as [_ Hin].
    apply Hk. apply list_elem_of_fmap. eauto.
  - unfold keyCount in *. simpl. intros Hm. specialize (Hmax Hm).
    pose proof (length_filter (λ kw : string * wrapped V, kw.1 ≠ key) (data c)). lia.
Qed.

Lemma wf_get now key c : wf c → wf (get now key c).2.
Proof.
  intros Hwf. unfold get. destruct (find key (data c)) as [w|]; [|done].
  destruct (expired now w); [by apply wf_del | done].
Qed.

Lemma wf_run ops c : wf c → wf (run ops c).
Proof.
  unfold run. revert c. induction ops as [|o ops IH]; [done|]. intros c Hwf.
  simpl. apply IH. destruct o; simpl; auto using wf_set, wf_get, wf_del.
Qed.

Lemma maxKeys_run ops c : maxKeys (run ops c) = maxKeys c.
Proof.
  unfold run. revert c. induction ops as [|o ops IH]; [done|]. intros c. simpl.
  rewrite IH. destruct o; simpl; [| |done].
  - unfold set. by destruct (_ && _).
  - unfold get. destruct (find key (data c)) as [w|]; [|done]. by destruct (expired now w).
Qed.

(** A full cache refuses every [set] and stays as it is. *)
Lemma set_full now key x ttl c :
  (-1 < maxKeys c)%Z → keyCount c = maxKeys c →
  set now key x ttl c = (Throw ECACHEFULL, c).
Proof.
  intros Hm Hfull. unfold set.
  replace (_ && _) with true; [done|]. symmetry. apply andb_true_iff. split; lia.
Qed.

(** Deleting the first [n] keys of a cache with distinct keys leaves the
    remaining entries, in their order. *)
Lemma del_first_keys n c :
  NoDup (keys c) →
  data (foldl (λ c key, del key c) c (take n (keys c))) = drop n (data c).
Proof.
  destruct c as [d m]. unfold keys. simpl. revert n. induction d as [|[k w] d IH]; intros n Hnd.
  - by destruct n.
  - destruct n as [|n]; [done|]. simpl in *.
    apply NoDup_cons in Hnd as [Hk Hnd].
    unfold del at 2. unfold remove. simpl. rewrite filter_cons. simpl.
    rewrite decide_False by naive_solver.
    assert (filter (λ kw : string * wrapped V, kw.1 ≠ k) d = d) as ->.
    { clear -Hk. induction d as [|[k' w'] d IH]; [done|].
      rewrite filter_cons. simpl in *. apply not_elem_of_cons in Hk as [Hne Hk].
      rewrite decide_True by done. by rewrite IH. }
    unfold with_data. simpl. by apply IH.
Qed.

End WithValue.
End NodeCacheFacts.

(** * Properties of the stale-while-revalidate orchestrator *)
Module CacheProperties.
Import AdvancedCache.
Local Open Scope Z_scope.

Lemma local_hit s key x :
  (NodeCache.get (now s) key (memoryCache s)).1 = Some x →
  NodeCache.get (now s) key (memoryCache s) = (Some x, memoryCache s).
Proof.
  destruct (NodeCache.get _ _ _) as [r c] eqn:E. simpl. intros ->.
  by rewrite (NodeCacheFacts.get_Some _ _ _ _ _ E).
Qed.

Lemma set_memoryCache_id s : set_memoryCache (memoryCache s) s = s.
Proof. by destruct s. Qed.

(** What a hit in the local tier does, step by step. *)
Lemma getWithSWR_hit s key f o md :
  (NodeCache.get (now s) key (memoryCache s)).1 = Some md →
  getWithSWR key f o s =
  let s1 := (count_hit s).2 in
  (Ok (data md),
   if ((ttl_of o - staleTime_of o) * 1000 <? now s - timestamp md)
      && negb (String.eqb (priority_of o) "low")
   then (backgroundRefresh key f (ttl_of o) s1).2
   else s1).
Proof.
  intros Hget%local_hit.
  unfold getWithSWR, try_catch, bind, memoryCache_get. rewrite Hget.
  rewrite set_memoryCache_id. simpl.
  fold (ttl_of o) (staleTime_of o) (priority_of o).
  destruct (_ && _); done.
Qed.

(** C1.  A key found in the local tier whose entry is younger than
    [ttl - staleTime] seconds: [getWithSWR] returns the stored data as it
    is, the fetch function is not invoked, no background refresh is
    scheduled, and neither tier changes. *)
Theorem fresh_hit_returns_stored s key f o md :
  (NodeCache.get (now s) key (memoryCache s)).1 = Some md →
  now s - timestamp md < (ttl_of o - staleTime_of o) * 1000 →
  ∃ s', getWithSWR key f o s = (Ok (data md), s')
        ∧ fetchCalls s' = fetchCalls s
        ∧ timers s' = timers s
        ∧ memoryCache s' = memoryCache s
        ∧ redisClient s' = redisClient s.
Proof.
  intros Hget Hage. rewrite (getWithSWR_hit _ _ _ _ _ Hget). simpl.
  replace (_ <? _) with false by (symmetry; apply Z.ltb_ge; lia).
  simpl. eexists. split; [reflexivity|]. done.
Qed.

(** *** The miss path *)

(** [await fetchFunction()] touches the clock and the spy only. *)
Lemma call_spec f s :
  call f s = ((f (fetchCalls s)).2, (call f s).2)
  ∧ fetchCalls (call f s).2 = S (fetchCalls s)
  ∧ now (call f s).2 = now s + Z.of_nat (f (fetchCalls s)).1
  ∧ timers (call f s).2 = timers s
  ∧ same_tiers s (call f s).2.
Proof. unfold call, same_tiers. destruct (f (fetchCalls s)) as [el r]. done. Qed.

(** A look-up in a remote tier that does not hold the key finds nothing
    and leaves everything but the error counter as it was. *)
Lemma redis_lookup_absent key ttl s :
  remote_absent key s →
  ∃ s1, redis_lookup key ttl s = (Ok None, s1)
        ∧ now s1 = now s ∧ fetchCalls s1 = fetchCalls s
        ∧ timers s1 = timers s ∧ same_tiers s s1.
Proof.
  unfold remote_absent, redis_lookup, bind, try_catch, redis_get, same_tiers.
  destruct (redisClient s) as [r|] eqn:Hr; simpl; [|by eauto 10].
  destruct (failing r) eqn:Hf; simpl; [by eauto 10|].
  intros [?|Hk]; [done|].
  destruct (rdata r !! key) as [[e expiresAt]|]; simpl; [|by eauto 10].
  replace (now s <? expiresAt) with false by (symmetry; apply Z.ltb_ge; lia).
  simpl. by eauto 10.
Qed.

Lemma fallback_spec f s :
  fallback f s = ((f (fetchCalls s)).2, (fallback f s).2)
  ∧ fetchCalls (fallback f s).2 = S (fetchCalls s)
  ∧ timers (fallback f s).2 = timers s
  ∧ same_tiers s (fallback f s).2.
Proof.
  unfold fallback, bind, try_catch, count_error, modify, call, throw, same_tiers. simpl.
  destruct (f (fetchCalls s)) as [el [v|e]]; done.
Qed.

(** On a miss in both tiers [getWithSWR] is [refreshCache] under the
    fallback, run in a state [s2] that differs from the one after the local
    look-up in counters only. *)
Lemma getWithSWR_miss s key f o :
  local_absent key s → remote_absent key s →
  ∃ s2, now s2 = now s ∧ fetchCalls s2 = fetchCalls s ∧ timers s2 = timers s
        ∧ memoryCache s2 = (NodeCache.get (now s) key (memoryCache s)).2
        ∧ redisClient s2 = redisClient s
        ∧ getWithSWR key f o s =
          match refreshCache key f (ttl_of o) s2 with
          | (Ok v, s3) => (Ok v, s3)
          | (Throw _, s3) => fallback f s3
          end.
Proof.
  unfold local_absent. intros Hl Hr.
  destruct (NodeCache.get (now s) key (memoryCache s)) as [x c] eqn:Hget.
  simpl in Hl. subst x.
  destruct (redis_lookup_absent key (ttl_of o) (set_memoryCache c s))
    as (s1 & Hlook & Hnow & Hcalls & Htimers & Hmem & Hred); [done|].
  exists (count_miss s1).2. simpl. rewrite Hnow, Hcalls, Htimers, Hmem, Hred.
  split_and!; try done.
  unfold getWithSWR, try_catch at 1, bind at 1, memoryCache_get. rewrite Hget.
  fold (ttl_of o). unfold bind at 1. rewrite Hlook.
  unfold bind at 1. simpl. unfold bind at 1.
  destruct (refreshCache key f (ttl_of o) _) as [[v|e] s3]; done.
Qed.

(** [refreshCache] when the fetch function throws: the error is rethrown
    and nothing was stored. *)
Lemma refreshCache_throw key f ttl s e :
  (f (fetchCalls s)).2 = Throw e →
  refreshCache key f ttl s = (Throw e, (call f s).2).
Proof.
  intros Hf. unfold refreshCache, try_catch, bind.
  destruct (call_spec f s) as (-> & _). rewrite Hf. done.
Qed.

(** [refreshCache] on an empty array under an "articles" key: the array is
    returned and nothing was stored. *)
Lemma refreshCache_empty_articles key f ttl s :
  includes key "articles" = true →
  (f (fetchCalls s)).2 = Ok (VArr []) →
  refreshCache key f ttl s = (Ok (VArr []), (call f s).2).
Proof.
  intros Hkey Hf. unfold refreshCache, try_catch, bind.
  destruct (call_spec f s) as (-> & _). rewrite Hf, Hkey. done.
Qed.

(** A remote tier that does not hold a key now does not hold it later. *)
Lemma remote_absent_later key s s' :
  redisClient s' = redisClient s → now s ≤ now s' →
  remote_absent key s → remote_absent key s'.
Proof.
  unfold remote_absent. intros -> Hle. destruct (redisClient s) as [r|]; [|done].
  intros [?|Hk]; [by left|right].
  destruct (rdata r !! key) as [[e expiresAt]|]; [lia|done].
Qed.

(** A key that is not bound in the local tier is absent whatever the time. *)
Lemma local_absent_unbound key s :
  NodeCache.find key (NodeCache.data (memoryCache s)) = None → local_absent key s.
Proof. intros H. unfold local_absent. by rewrite NodeCacheFacts.get_unbound. Qed.

(** [refreshCache], case by case. *)
Lemma refreshCache_spec key f ttl s :
  let sc := (call f s).2 in
  refreshCache key f ttl s =
  match (f (fetchCalls s)).2 with
  | Throw e => (Throw e, sc)
  | Ok v =>
      if includes key "articles" && isEmptyArray v then (Ok v, sc)
      else
        let e := {| data := v; timestamp := now sc |} in
        match NodeCache.set (now sc) key e ttl (memoryCache sc) with
        | (Throw err, c) => (Throw err, set_memoryCache c sc)
        | (Ok _, c) => (Ok v, store_remote key ttl e (set_memoryCache c sc))
        end
  end.
Proof.
  intros sc. unfold refreshCache, try_catch, bind.
  destruct (call_spec f s) as (Hcall & _). rewrite Hcall. fold sc.
  destruct ((f (fetchCalls s)).2) as [v|e]; [|done].
  destruct (_ && _); [done|].
  unfold Date_now, memoryCache_set.
  destruct (NodeCache.set _ _ _ _ _) as [[b|err] c]; [|done].
  unfold store_remote. simpl.
  destruct (redisClient sc) as [r|]; [|done].
  unfold redis_setex. destruct (failing r); [done|]. simpl.
  destruct (ttl <=? 0); done.
Qed.

Lemma fetchCalls_store_remote key ttl e s :
  fetchCalls (store_remote key ttl e s) = fetchCalls s.
Proof.
  unfold store_remote. destruct (redisClient s) as [r|]; [|done].
  by destruct (_ || _).
Qed.

(** Every miss in both tiers invokes the fetch function. *)
Lemma miss_invokes_fetch s key f o :
  local_absent key s → remote_absent key s →
  (S (fetchCalls s) ≤ fetchCalls (getWithSWR key f o s).2)%nat.
Proof.
  intros Hl Hr.
  destruct (getWithSWR_miss s key f o Hl Hr) as (s2 & _ & Hcalls & _ & _ & _ & ->).
  assert (S (fetchCalls s2) ≤ fetchCalls (refreshCache key f (ttl_of o) s2).2)%nat as Hge.
  { rewrite refreshCache_spec. destruct (call_spec f s2) as (_ & Hc & _).
    destruct ((f (fetchCalls s2)).2) as [v|e]; [|simpl; lia].
    destruct (_ && _); [simpl; lia|]. cbv zeta.
    destruct (NodeCache.set _ _ _ _ _) as [[b|e] c]; simpl.
    - rewrite fetchCalls_store_remote. simpl. lia.
    - lia. }
  destruct (refreshCache key f (ttl_of o) s2) as [[v|e] s3]; simpl in *; [lia|].
  destruct (fallback_spec f s3) as (_ & -> & _). lia.
Qed.

(** *** The claims about [getWithSWR] *)

(** The callback of a background refresh invokes the fetch function once
    and never throws. *)
Lemma backgroundRefresh_callback_spec tm s :
  (backgroundRefresh_callback tm s).1 = Ok ()
  ∧ fetchCalls (backgroundRefresh_callback tm s).2 = S (fetchCalls s).
Proof.
  unfold backgroundRefresh_callback, try_catch, bind. rewrite refreshCache_spec.
  destruct (call_spec (tfetch tm) s) as (_ & Hc & _).
  destruct ((tfetch tm (fetchCalls s)).2) as [v|e]; [|done].
  destruct (_ && _); [done|]. cbv zeta.
  destruct (NodeCache.set _ _ _ _ _) as [[b|e] c]; simpl; [|done].
  by rewrite fetchCalls_store_remote.
Qed.

(** C2.  A key found in the local tier whose entry is older than
    [ttl - staleTime] seconds: [getWithSWR] returns the cached data at
    once (the fetch function is not invoked and no time passes); unless
    the priority is "low" it arms one timer whose callback recomputes
    through the fetch function, and with "low" it arms none.  Whenever
    that callback runs it invokes the fetch function once and ends
    normally; when the fetch function throws, both tiers stay as they
    were. *)
Theorem stale_hit_serves_then_refreshes s key f o md :
  (NodeCache.get (now s) key (memoryCache s)).1 = Some md →
  (ttl_of o - staleTime_of o) * 1000 < now s - timestamp md →
  let refresh := Timer (now s + 100) key f (ttl_of o) in
  ∃ s', getWithSWR key f o s = (Ok (data md), s')
        ∧ fetchCalls s' = fetchCalls s ∧ now s' = now s
        ∧ same_tiers s s'
        ∧ timers s' = (if String.eqb (priority_of o) "low" then timers s
                       else timers s ++ [refresh])
        ∧ ∀ s2, ∃ s3, backgroundRefresh_callback refresh s2 = (Ok (), s3)
                      ∧ fetchCalls s3 = S (fetchCalls s2)
                      ∧ ∀ e, (f (fetchCalls s2)).2 = Throw e → same_tiers s2 s3.
Proof.
  intros Hget Hage refresh. rewrite (getWithSWR_hit _ _ _ _ _ Hget). simpl.
  replace (_ <? _) with true by (symmetry; apply Z.ltb_lt; lia).
  eexists. split; [reflexivity|].
  split_and!; try (by destruct (String.eqb _ _)).
  intros s2. destruct (backgroundRefresh_callback_spec refresh s2) as [Hok Hcalls].
  exists (backgroundRefresh_callback refresh s2).2. split_and!; [|done|].
  - destruct (backgroundRefresh_callback refresh s2) as [r s3]. simpl in *. by subst.
  - intros e Hf. unfold backgroundRefresh_callback, try_catch, bind. simpl.
    rewrite (refreshCache_throw _ _ _ _ _ Hf). apply call_spec.
Qed.

(** The same rule on the background path: a refresh that fetches an empty
    array for an "articles" key leaves both tiers as they were. *)
Lemma background_empty_articles_not_cached tm s :
  includes (tkey tm) "articles" = true →
  (tfetch tm (fetchCalls s)).2 = Ok (VArr []) →
  same_tiers s (backgroundRefresh_callback tm s).2.
Proof.
  intros Hkey Hf. unfold backgroundRefresh_callback, try_catch, bind.
  rewrite (refreshCache_empty_articles _ _ _ _ Hkey Hf). apply call_spec.
Qed.

(** C3.  A miss in both tiers on a key containing "articles" for which the
    fetch function returns an empty array: the caller gets the empty
    array, the fetch function ran once, the key is bound in neither tier
    afterwards, and every later call for the key invokes the fetch
    function again. *)
Theorem empty_articles_not_cached s key f o :
  includes key "articles" = true →
  local_absent key s → remote_absent key s →
  (f (fetchCalls s)).2 = Ok (VArr []) →
  ∃ s', getWithSWR key f o s = (Ok (VArr []), s')
        ∧ fetchCalls s' = S (fetchCalls s)
        ∧ memoryCache s' = (NodeCache.get (now s) key (memoryCache s)).2
        ∧ NodeCache.find key (NodeCache.data (memoryCache s')) = None
        ∧ redisClient s' = redisClient s
        ∧ ∀ dt f' o',
            (S (fetchCalls s') ≤
             fetchCalls (getWithSWR key f' o' (advance dt s')).2)%nat.
Proof.
  intros Hkey Hl Hr Hf.
  destruct (getWithSWR_miss s key f o Hl Hr)
    as (s2 & Hnow & Hcalls & _ & Hmem & Hred & ->).
  rewrite <-Hcalls in Hf. rewrite (refreshCache_empty_articles _ _ _ _ Hkey Hf).
  destruct (call_spec f s2) as (_ & Hc & Hnow' & _ & Hmem' & Hred').
  eexists. split; [reflexivity|].
  assert (NodeCache.find key (NodeCache.data (memoryCache (call f s2).2)) = None) as Hfind.
  { rewrite Hmem', Hmem. by apply NodeCacheFacts.get_None_find. }
  split_and!; try congruence.
  intros dt f' o'.
  apply (miss_invokes_fetch (advance dt (call f s2).2) key f' o').
  - by apply local_absent_unbound.
  - apply (remote_absent_later key s); [simpl; congruence | simpl; lia | done].
Qed.

(** C4, as the code has it.  A miss in both tiers in which the fetch
    function throws: the key is bound in neither tier afterwards, and when
    the second invocation (made by the fallback) throws as well, that
    failure reaches the caller. *)
Theorem failed_miss_caches_nothing s key f o e :
  local_absent key s → remote_absent key s →
  (f (fetchCalls s)).2 = Throw e →
  ∃ r s', getWithSWR key f o s = (r, s')
          ∧ memoryCache s' = (NodeCache.get (now s) key (memoryCache s)).2
          ∧ NodeCache.find key (NodeCache.data (memoryCache s')) = None
          ∧ redisClient s' = redisClient s
          ∧ ∀ e', (f (S (fetchCalls s))).2 = Throw e' → r = Throw e'.
Proof.
  intros Hl Hr Hf.
  destruct (getWithSWR_miss s key f o Hl Hr)
    as (s2 & Hnow & Hcalls & _ & Hmem & Hred & ->).
  rewrite <-Hcalls in Hf. rewrite (refreshCache_throw _ _ _ _ _ Hf).
  destruct (call_spec f s2) as (_ & Hc & _ & _ & Hmem' & Hred').
  destruct (fallback_spec f (call f s2).2) as (Hfb & _ & _ & Hmem'' & Hred'').
  rewrite Hfb. do 2 eexists. split; [reflexivity|].
  assert (memoryCache (fallback f (call f s2).2).2
          = (NodeCache.get (now s) key (memoryCache s)).2) as Hm by congruence.
  split_and!; [done | | congruence |].
  - rewrite Hm. by apply NodeCacheFacts.get_None_find.
  - intros e'. rewrite Hc, Hcalls. done.
Qed.

(** C10.  A miss in both tiers in which the first invocation of the fetch
    function throws: the fetch function is invoked exactly once more, and
    what the caller gets is the outcome of that second invocation, its
    value or its failure. *)
Theorem failed_fetch_is_retried_once s key f o e :
  local_absent key s → remote_absent key s →
  (f (fetchCalls s)).2 = Throw e →
  ∃ s', getWithSWR key f o s = ((f (S (fetchCalls s))).2, s')
        ∧ fetchCalls s' = S (S (fetchCalls s)).
Proof.
  intros Hl Hr Hf.
  destruct (getWithSWR_miss s key f o Hl Hr)
    as (s2 & Hnow & Hcalls & _ & Hmem & Hred & ->).
  rewrite <-Hcalls in Hf. rewrite (refreshCache_throw _ _ _ _ _ Hf).
  destruct (call_spec f s2) as (_ & Hc & _).
  destruct (fallback_spec f (call f s2).2) as (Hfb & Hc' & _).
  rewrite Hfb, Hc, Hcalls. eexists. split; [reflexivity|].
  rewrite Hc', Hc, Hcalls. done.
Qed.

(** *** From a store to the next fresh hit *)

Lemma get_keeps_bound now key (c : NodeCache.cache cacheEntry) :
  NodeCache.maxKeys (NodeCache.get now key c).2 = NodeCache.maxKeys c
  ∧ NodeCache.keyCount (NodeCache.get now key c).2 ≤ NodeCache.keyCount c.
Proof.
  unfold NodeCache.get. destruct (NodeCache.find key (NodeCache.data c)) as [w|]; [|done].
  destruct (NodeCache.expired now w); [|done]. simpl. split; [done|].
  unfold NodeCache.keyCount, NodeCache.del, NodeCache.remove. simpl.
  pose proof (length_filter (λ kw : string * NodeCache.wrapped cacheEntry, kw.1 ≠ key)
                            (NodeCache.data c)). lia.
Qed.


(** *** The statements at work *)

Import Scenario.

Example fresh_hit_example :
  (getWithSWR home down defaults (warm 5000)).1 = Ok headlines.
Proof. reflexivity. Qed.

Example stale_hit_example :
  length (timers (getWithSWR home down defaults (warm 290000)).2) = 1%nat
  ∧ length (timers (getWithSWR home down background (warm 290000)).2) = 0%nat.
Proof. split; reflexivity. Qed.

Example expired_entry_example :
  (getWithSWR home steady defaults (warm 400000)).1 = Ok headlines
  ∧ fetchCalls (getWithSWR home steady defaults (warm 400000)).2 = 1%nat.
Proof. split; reflexivity. Qed.

Lemma fresh_hit_returns_stored_witness :
  ∃ s', getWithSWR home down defaults (warm 5000) = (Ok headlines, s')
        ∧ fetchCalls s' = fetchCalls (warm 5000)
        ∧ timers s' = timers (warm 5000)
        ∧ memoryCache s' = memoryCache (warm 5000)
        ∧ redisClient s' = redisClient (warm 5000).
Proof.
  apply (fresh_hit_returns_stored (warm 5000) home down defaults
           (CacheEntry headlines 1000)); [reflexivity | vm_compute; reflexivity].
Defined.

Lemma stale_hit_serves_then_refreshes_witness :
  ∃ s', getWithSWR home down defaults (warm 290000) = (Ok headlines, s')
        ∧ fetchCalls s' = fetchCalls (warm 290000) ∧ now s' = now (warm 290000)
        ∧ same_tiers (warm 290000) s'
        ∧ timers s' = [Timer 290100 home down 300]
        ∧ ∀ s2, ∃ s3, backgroundRefresh_callback (Timer 290100 home down 300) s2
                      = (Ok (), s3)
                      ∧ fetchCalls s3 = S (fetchCalls s2)
                      ∧ ∀ e, (down (fetchCalls s2)).2 = Throw e → same_tiers s2 s3.
Proof.
  apply (stale_hit_serves_then_refreshes (warm 290000) home down defaults
           (CacheEntry headlines 1000)); [reflexivity | vm_compute; reflexivity].
Defined.

Lemma empty_articles_not_cached_witness :
  ∃ s', getWithSWR home nothing defaults (initial 0 None) = (Ok (VArr []), s')
        ∧ fetchCalls s' = 1%nat
        ∧ memoryCache s' = NodeCache.Cache [] 500
        ∧ NodeCache.find home (NodeCache.data (memoryCache s')) = None
        ∧ redisClient s' = None
        ∧ ∀ dt f' o',
            (S (fetchCalls s') ≤
             fetchCalls (getWithSWR home f' o' (advance dt s')).2)%nat.
Proof.
  apply (empty_articles_not_cached (initial 0 None) home nothing defaults);
    [reflexivity | reflexivity | exact I | reflexivity].
Defined.

Lemma failed_miss_caches_nothing_witness :
  ∃ r s', getWithSWR home down defaults (initial 0 None) = (r, s')
          ∧ memoryCache s' = NodeCache.Cache [] 500
          ∧ NodeCache.find home (NodeCache.data (memoryCache s')) = None
          ∧ redisClient s' = None
          ∧ ∀ e', (down 1%nat).2 = Throw e' → r = Throw e'.
Proof.
  apply (failed_miss_caches_nothing (initial 0 None) home down defaults
           (Error "upstream 503")); [reflexivity | exact I | reflexivity].
Defined.

Lemma failed_fetch_is_retried_once_witness :
  ∃ s', getWithSWR home flaky defaults (initial 0 None) = (Ok headlines, s')
        ∧ fetchCalls s' = 2%nat.
Proof.
  apply (failed_fetch_is_retried_once (initial 0 None) home flaky defaults
           (Error "upstream 503")); [reflexivity | exact I | reflexivity].
Defined.

(** C4 as the specification words it fails: on a miss in both tiers the
    fetch function throws, yet the caller gets a value, because the
    fallback invokes the fetch function a second time. *)
Lemma fetch_failure_not_always_propagated :
  ¬ (∀ s key f o e,
       local_absent key s → remote_absent key s →
       (f (fetchCalls s)).2 = Throw e →
       ∃ e', (getWithSWR key f o s).1 = Throw e').
Proof.
  intros H.
  destruct (H (initial 0 None) home flaky defaults (Error "upstream 503"))
    as [e' He']; [reflexivity | exact I | reflexivity |].
  vm_compute in He'. discriminate.
Qed.

(** *** The bound on the local tier *)

Lemma keys_cleanup s :
  NoDup (NodeCache.keys (memoryCache s)) →
  NodeCache.keys (memoryCache (cleanup s).2)
  = if 400 <? NodeCache.keyCount (memoryCache s)
    then drop (Z.to_nat (NodeCache.keyCount (memoryCache s) / 5))
              (NodeCache.keys (memoryCache s))
    else NodeCache.keys (memoryCache s).
Proof.
  intros Hnd. unfold cleanup. destruct (400 <? _); [|done]. simpl.
  unfold NodeCache.keys at 1. rewrite NodeCacheFacts.del_first_keys by done.
  unfold NodeCache.keys. by rewrite fmap_drop.
Qed.

(** C8, as the code has it.  Whatever calls were made on a local tier
    created empty with a bound [m] on its keys, as long as they name
    ordinary keys (no name of a member of [Object.prototype], no array
    index): it holds at most [m] keys; once it holds [m], every [set] is
    refused with ECACHEFULL and leaves the tier as it is (nothing is
    evicted to make room); and the periodic [cleanup], when it finds more
    than 400 keys, deletes the oldest fifth of the keys (rounded down), and
    otherwise deletes nothing. *)
Theorem local_tier_is_bounded (m : Z) (ops : list (NodeCache.op cacheEntry)) :
  -1 < m →
  NodeCache.ordinaryOps ops = true →
  let c := NodeCache.run ops (NodeCache.Cache [] m) in
  NodeCache.keyCount c ≤ m
  ∧ (NodeCache.keyCount c = m →
     ∀ now key x ttl,
       NodeCache.set now key x ttl c = (Throw NodeCache.ECACHEFULL, c))
  ∧ ∀ s, memoryCache s = c →
      NodeCache.keys (memoryCache (cleanup s).2)
      = if 400 <? NodeCache.keyCount c
        then drop (Z.to_nat (NodeCache.keyCount c / 5)) (NodeCache.keys c)
        else NodeCache.keys c.
Proof.
  intros Hm _ c.
  assert (NodeCache.wf (NodeCache.Cache (V:=cacheEntry) [] m)) as Hwf0.
  { split; [constructor | unfold NodeCache.keyCount; simpl; lia]. }
  pose proof (NodeCacheFacts.wf_run ops _ Hwf0) as [Hnd Hmax]. fold c in Hnd, Hmax.
  pose proof (NodeCacheFacts.maxKeys_run ops (NodeCache.Cache (V:=cacheEntry) [] m)) as Hk.
  fold c in Hk. simpl in Hk. rewrite Hk in Hmax.
  split_and!; [by apply Hmax | |].
  - intros Hfull now key x ttl. apply NodeCacheFacts.set_full; lia.
  - intros s Hs. rewrite <-Hs in *. by apply keys_cleanup.
Qed.

Lemma local_tier_is_bounded_witness :
  let c := NodeCache.run sixSets five in
  NodeCache.keyCount c ≤ 5
  ∧ (NodeCache.keyCount c = 5 →
     ∀ now key x ttl,
       NodeCache.set now key x ttl c = (Throw NodeCache.ECACHEFULL, c))
  ∧ ∀ s, memoryCache s = c →
      NodeCache.keys (memoryCache (cleanup s).2)
      = if 400 <? NodeCache.keyCount c
        then drop (Z.to_nat (NodeCache.keyCount c / 5)) (NodeCache.keys c)
        else NodeCache.keys c.
Proof.
  apply (local_tier_is_bounded 5 sixSets); [vm_compute; reflexivity | reflexivity].
Defined.

(** C8 as the specification words it fails: with room for 5 keys, the
    sixth distinct key is refused, five keys are stored, and the key set
    first is still there to be read. *)
Lemma sixth_key_is_refused_first_key_stays :
  let c5 := NodeCache.run (take 5 sixSets) five in
  let c6 := NodeCache.run sixSets five in
  (NodeCache.set 6 "k6" (page 6) 300 c5).1 = Throw NodeCache.ECACHEFULL
  ∧ NodeCache.keys c6 = ["k1"; "k2"; "k3"; "k4"; "k5"]%string
  ∧ (NodeCache.get 7 "k1" c6).1 = Some (page 1)
  ∧ NodeCache.keys (memoryCache (cleanup crowded).2)
    = ["k1"; "k2"; "k3"; "k4"; "k5"]%string.
Proof. vm_compute. done. Qed.

(** On a full local tier a miss still answers the caller, through the
    fallback: the fetch function runs twice and nothing is stored. *)
Example miss_on_full_tier :
  (getWithSWR "k7" steady defaults crowded).1 = Ok headlines
  ∧ fetchCalls (getWithSWR "k7" steady defaults crowded).2 = 2%nat
  ∧ NodeCache.keys (memoryCache (getWithSWR "k7" steady defaults crowded).2)
    = ["k1"; "k2"; "k3"; "k4"; "k5"]%string.
Proof. vm_compute. done. Qed.

End CacheProperties.

(** * Properties of the rate limiter *)
Module LimiterProperties.
Import GroqRateLimiter.
Local Open Scope Z_scope.

Import Scenario.
Example busy_queue : map requestId (queue busy) = ["h2"; "h1"; "n1"]%string.
Proof. reflexivity. Qed.
Example busy_log : map requestId (enqueued busy) = ["n1"; "h1"; "h2"]%string.
Proof. reflexivity. Qed.
Example drained_order : executed drained = ["r0"; "h2"; "h1"; "n1"]%string.
Proof. reflexivity. Qed.
Example drained_tokens : availableTokens drained = 0 ∧ queue drained = [].
Proof. split; reflexivity. Qed.

(** *** Queue order *)

Lemma dispatchOrder_snoc_high log e :
  isHigh e = true → dispatchOrder (log ++ [e]) = e :: dispatchOrder log.
Proof.
  intros He. unfold dispatchOrder. rewrite !filter_app, !filter_cons, !filter_nil.
  rewrite decide_True, decide_False by (rewrite He; naive_solver).
  rewrite rev_app_distr, app_nil_r. done.
Qed.

Lemma dispatchOrder_snoc_other log e :
  isHigh e = false → dispatchOrder (log ++ [e]) = dispatchOrder log ++ [e].
Proof.
  intros He. unfold dispatchOrder. rewrite !filter_app, !filter_cons, !filter_nil.
  rewrite decide_False, decide_True by (rewrite He; naive_solver).
  rewrite app_nil_r, app_assoc. done.
Qed.

Lemma shrinks_refl s : shrinks s s.
Proof. by split. Qed.

Lemma shrinks_trans s1 s2 s3 : shrinks s1 s2 → shrinks s2 s3 → shrinks s1 s3.
Proof. intros [E1 Q1] [E2 Q2]. split; [congruence | by etrans]. Qed.

Lemma splice_sublist id q removed q' :
  splice id q = Some (removed, q') → sublist q' q.
Proof.
  revert removed q'. induction q as [|e q IH]; intros removed q'; [done|]. simpl.
  destruct (String.eqb (requestId e) id).
  - intros [= <- <-]. by apply sublist_cons.
  - destruct (splice id q) as [[r q'']|]; [|done].
    intros [= <- <-]. apply sublist_skip. by eapply IH.
Qed.

Lemma shrinks_processQueue s : shrinks s (processQueue s).
Proof.
  unfold processQueue. destruct (queue s) as [|e rest] eqn:Hq; [apply shrinks_refl|].
  destruct (_ && _); [|apply shrinks_refl].
  split; simpl; [done|]. rewrite Hq. by apply sublist_cons.
Qed.

Lemma shrinks_settle n s : shrinks s (settle n s).
Proof.
  unfold settle. destruct (inflight s !! n) as [fr|]; [|apply shrinks_refl].
  unfold executeImmediate_resume.
  destruct (f_requestFunction fr), (f_entry fr);
    try (eapply shrinks_trans; [|apply shrinks_processQueue]); by split.
Qed.

Lemma shrinks_removeFromQueue id s : shrinks s (removeFromQueue id s).
Proof.
  unfold removeFromQueue. destruct (splice id (queue s)) as [[r q']|] eqn:E; [|apply shrinks_refl].
  split; simpl; [done|]. by eapply splice_sublist.
Qed.

Lemma shrinks_onTimeout h s : shrinks s (onTimeout h s).
Proof.
  unfold onTimeout. destruct (list_find _ _) as [[i tm]|]; [|apply shrinks_refl].
  destruct (shrinks_removeFromQueue (t_requestId tm) (clearTimeout h s)) as [E Q].
  split; simpl; [apply E | apply Q].
Qed.

Lemma enqueued_clearQueue s : enqueued (clearQueue s) = enqueued s.
Proof.
  unfold clearQueue. simpl. generalize (queue s). intros q. revert s.
  induction q as [|e q IH]; intros s; [done|]. simpl. by rewrite IH.
Qed.

Lemma shrinks_step s ev :
  match ev with Call _ _ _ _ => True | _ => shrinks s (step s ev) end.
Proof.
  destruct ev; simpl; [done | apply shrinks_settle | apply shrinks_onTimeout | |
                       apply shrinks_processQueue |].
  - destruct (shrinks_processQueue
                (Limiter (tokensPerMinute s) (tokensPerMinute s) (queue s) (metrics s)
                   (timers s) (nextTimer s) (inflight s) (deliveries s)
                   (executed s) (enqueued s))) as [E Q].
    split; [apply E | apply Q].
  - split; [apply enqueued_clearQueue | apply sublist_nil_l].
Qed.

Lemma ordered_step s ev :
  sublist (queue s) (dispatchOrder (enqueued s)) →
  sublist (queue (step s ev)) (dispatchOrder (enqueued (step s ev))).
Proof.
  intros Hs. pose proof (shrinks_step s ev) as Hsh.
  destruct ev as [fn o id start| | | | |];
    [|destruct Hsh as [-> Hq]; by etrans..].
  simpl. unfold executeRequest. destruct (_ <=? _); [done|].
  unfold queueRequest. simpl.
  set (e := QueueEntry _ _ _ _ _ _).
  destruct (String.eqb _ "high") eqn:Hp.
  - rewrite dispatchOrder_snoc_high by done. by apply sublist_skip.
  - rewrite dispatchOrder_snoc_other by done. by apply sublist_app.
Qed.

Lemma ordered_run evs s :
  sublist (queue s) (dispatchOrder (enqueued s)) →
  sublist (queue (run evs s)) (dispatchOrder (enqueued (run evs s))).
Proof.
  unfold run. revert s. induction evs as [|ev evs IH]; intros s Hs; simpl; [done|].
  apply IH. by apply ordered_step.
Qed.

(** C5, as the code has it.  At every point of every run the queue is a
    block of high-priority requests followed by a block of the others; the
    first block lists them newest first, the second in the order they were
    queued (each block is a sub-sequence of what [dispatchOrder] makes of
    the requests queued so far); and [processQueue] dispatches nothing but
    the head of the queue. *)
Theorem queue_follows_dispatch_order tpm evs :
  let s := run evs (create tpm) in
  (∃ highs others,
      queue s = highs ++ others
      ∧ sublist highs (rev (filter (λ e, isHigh e) (enqueued s)))
      ∧ sublist others (filter (λ e, ¬ isHigh e) (enqueued s)))
  ∧ sublist (queue s) (dispatchOrder (enqueued s))
  ∧ (processQueue s = s
     ∨ ∃ e, queue s = e :: queue (processQueue s)
            ∧ executed (processQueue s) = executed s ++ [requestId e]).
Proof.
  simpl.
  assert (sublist (queue (run evs (create tpm)))
                  (dispatchOrder (enqueued (run evs (create tpm))))) as Hsub.
  { apply ordered_run. apply sublist_nil_l. }
  split_and!; [|done|].
  - unfold dispatchOrder in Hsub. apply sublist_app_r in Hsub as (q1 & q2 & ? & ? & ?).
    by exists q1, q2.
  - generalize (run evs (create tpm)). intros s. unfold processQueue.
    destruct (queue s) as [|e rest]; [by left|].
    destruct (_ && _); [|by left]. right. by exists e.
Qed.

(** C5 as the specification words it fails: two high-priority requests
    wait, and the one queued last stands first. *)
Lemma high_priority_is_not_fifo :
  ¬ (∀ tpm evs, fifo_within_class (run evs (create tpm))).
Proof.
  intros H. specialize (H 100 _ : fifo_within_class busy).
  destruct (H 0%nat 1%nat _ _ ltac:(lia) eq_refl eq_refl eq_refl)
    as (i' & j' & Hlt & Hi & Hj).
  destruct i' as [|[|[|i']]]; try discriminate Hi.
  destruct j' as [|[|[|j']]]; try discriminate Hj. lia.
Qed.

(** *** The token budget *)



















(** The same window in figures: the carried call fails and hands back 60
    tokens, so that 150 tokens are charged to the two calls admitted in a
    window of 100. *)
Example budget_example :
  let s := run [Settle 0;
                Call (Scenario.text "a") (Scenario.ask 100 "normal") "a" 2;
                Call (Scenario.text "b") (Scenario.ask 50 "normal") "b" 3;
                Call (Throw (Error "429")) (Scenario.ask 30 "normal") "c" 4;
                Settle 0; Tick] Scenario.carried in
  availableTokens Scenario.carried = 100 ∧ held Scenario.carried = 60
  ∧ availableTokens s = 10 ∧ held s = 100 ∧ spent s - spent Scenario.carried = 50
  ∧ charged Scenario.carried s = 150
  ∧ executed s = ["p"; "q"; "a"; "b"]%string
  ∧ map requestId (queue s) = ["c"]%string.
Proof. vm_compute. done. Qed.


(** The same run in figures: after the refill the bucket holds 100; the
    failure of the carried call lifts it to 200, not back to the 100 it
    held before that call; both calls of 100 are admitted. *)
Example failure_after_refill_example :
  let s0 := run (Scenario.straddling ++ [Refill]) (create 100) in
  let s := run Scenario.rush s0 in
  availableTokens s0 = 100 ∧ held s0 = 100
  ∧ availableTokens (step s0 (Settle 0)) = 200
  ∧ executed s = ["r0"; "a"; "b"]%string
  ∧ queue s = [] ∧ held s = 200 ∧ availableTokens s = 0.
Proof. vm_compute. done. Qed.

(** *** Queue time-outs *)

(** A promise settles once: later attempts do not change it. *)
Lemma promise_snoc id ds id' r :
  promise id (ds ++ [(id', r)])
  = match promise id ds with
    | Some x => Some x
    | None => if String.eqb id' id then Some r else None
    end.
Proof.
  induction ds as [|[i x] ds IH]; simpl; [done|].
  destruct (String.eqb i id); done.
Qed.

(** With distinct ids in the queue, [splice] takes out the one entry that
    carries the id. *)
Lemma splice_NoDup id q :
  NoDup (requestId <$> q) → id ∈ requestId <$> q →
  ∃ e, splice id q = Some (e, filter (λ x, requestId x ≠ id) q)
       ∧ requestId e = id ∧ e ∈ q.
Proof.
  induction q as [|x q IH]; simpl; [intros _ []%elem_of_nil|].
  intros [Hx Hnd]%NoDup_cons Hin. rewrite filter_cons.
  destruct (String.eqb_spec (requestId x) id) as [Heq|Hne].
  - exists x. rewrite decide_False by (intros ?; done).
    split_and!; [|done|left]. do 2 f_equal. symmetry.
    clear -Hx Heq. subst id. induction q as [|y q IH]; [done|].
    rewrite fmap_cons in Hx. apply not_elem_of_cons in Hx as [Hne Hx].
    rewrite filter_cons, decide_True by congruence. f_equal. by apply IH.
  - apply elem_of_cons in Hin as [?|Hin]; [done|].
    destruct (IH Hnd Hin) as (e & -> & He & Hein).
    exists e. rewrite decide_True by done. split_and!; [done..|by right].
Qed.

Lemma quiet_deliver id r before id' r' s :
  quiet id r before s → quiet id r before (deliver id' r' s).
Proof.
  intros (Hq & Hf & Hp & Hl). unfold quiet. simpl.
  rewrite promise_snoc, Hp. done.
Qed.

Lemma quiet_set_queue id r before q s :
  sublist q (queue s) → quiet id r before s → quiet id r before (set_queue q s).
Proof.
  intros Hsub (Hq & Hf & Hp & Hl). unfold quiet. simpl. split_and!; try done.
  intros Hin. apply Hq. eapply elem_of_sublist; [done|]. by apply fmap_sublist.
Qed.

Lemma quiet_begin id r before fn est id' entry s :
  id' ≠ id → quiet id r before s →
  quiet id r before (executeImmediate_begin fn est id' entry s).
Proof.
  intros Hne (Hq & Hf & Hp & l & Hl & Hnl). unfold quiet. simpl.
  split_and!; [done | | done |].
  - apply not_elem_of_cons. done.
  - exists (l ++ [id']). rewrite Hl, app_assoc. split; [done|].
    rewrite elem_of_app, list_elem_of_singleton. intros [?|?]; done.
Qed.

Lemma quiet_processQueue id r before s :
  quiet id r before s → quiet id r before (processQueue s).
Proof.
  intros Hs. unfold processQueue. destruct (queue s) as [|e rest] eqn:Hq; [done|].
  destruct (_ && _); [|done].
  apply quiet_begin.
  - destruct Hs as (Hnq & _). rewrite Hq, fmap_cons in Hnq.
    apply not_elem_of_cons in Hnq as [? _]. done.
  - apply (quiet_set_queue id r before rest s) in Hs; [done|].
    rewrite Hq. by apply sublist_cons.
Qed.

Lemma quiet_settle id r before n s :
  quiet id r before s → quiet id r before (settle n s).
Proof.
  intros Hs. unfold settle. destruct (inflight s !! n) as [fr|]; [|done].
  assert (quiet id r before (set_inflight (delete n (inflight s)) s)) as Hs'.
  { destruct Hs as (Hq & Hf & Hp & Hl). unfold quiet. simpl. split_and!; try done.
    intros Hin. apply Hf. eapply elem_of_sublist; [done|].
    apply fmap_sublist, sublist_delete. }
  unfold executeImmediate_resume.
  destruct (f_requestFunction fr), (f_entry fr);
    try apply quiet_processQueue; by apply quiet_deliver.
Qed.

Lemma quiet_removeFromQueue id r before id' s :
  quiet id r before s → quiet id r before (removeFromQueue id' s).
Proof.
  intros Hs. unfold removeFromQueue.
  destruct (splice id' (queue s)) as [[removed q']|] eqn:E; [|done].
  apply (quiet_set_queue id r before q' s) in Hs; [done|]. by eapply splice_sublist.
Qed.

Lemma quiet_clearQueue id r before s :
  quiet id r before s → quiet id r before (clearQueue s).
Proof.
  intros Hs. unfold clearQueue.
  assert (∀ q s0, quiet id r before s0 →
            quiet id r before
              (foldl (λ s' entry, deliver (requestId entry) (Throw (Error "Queue cleared"))
                                    (clearTimeout (timeout entry) s')) s0 q)) as Hfold.
  { induction q as [|e q IH]; intros s0 H0; [done|]. simpl.
    apply IH. by apply quiet_deliver. }
  apply quiet_set_queue; [apply sublist_nil_l | by apply Hfold].
Qed.

Lemma quiet_step id r before s ev :
  ¬ draws id ev → quiet id r before s → quiet id r before (step s ev).
Proof.
  intros Hev Hs. destruct ev as [fn o id' start|n|h| | |]; simpl in *.
  - unfold executeRequest. destruct (_ <=? _); [by apply quiet_begin|].
    destruct Hs as (Hq & Hf & Hp & Hl). unfold quiet. simpl.
    split_and!; try done.
    destruct (String.eqb _ "high"); rewrite ?fmap_cons, ?fmap_app; simpl.
    + apply not_elem_of_cons. done.
    + rewrite elem_of_app, list_elem_of_singleton. intros [?|?]; done.
  - by apply quiet_settle.
  - unfold onTimeout. destruct (list_find _ _) as [[i tm]|]; [|done].
    by apply quiet_deliver, quiet_removeFromQueue.
  - by apply quiet_processQueue.
  - by apply quiet_processQueue.
  - by apply quiet_clearQueue.
Qed.

Lemma quiet_run id r before evs s :
  Forall (λ ev, ¬ draws id ev) evs →
  quiet id r before s → quiet id r before (run evs s).
Proof.
  unfold run. revert s. induction evs as [|ev evs IH]; intros s Hev Hs; [done|].
  apply Forall_cons in Hev as [? ?]. simpl. apply IH; [done|]. by apply quiet_step.
Qed.

(** *** Runs that draw distinct request ids *)

Lemma promise_None id ds : promise id ds = None ↔ id ∉ ds.*1.
Proof.
  induction ds as [|[i x] ds IH]; simpl.
  - split; [intros _; apply not_elem_of_nil | done].
  - destruct (String.eqb_spec i id) as [->|Hne].
    + split; [done | intros Hn; destruct Hn; left].
    + rewrite IH, not_elem_of_cons. split; [by intros ?; split | by intros [_ ?]].
Qed.

Lemma NoDup_fmap_inj {A B} (f : A → B) (l : list A) x y :
  NoDup (f <$> l) → x ∈ l → y ∈ l → f x = f y → x = y.
Proof.
  induction l as [|a l IH]; simpl; [by intros _ ?%elem_of_nil|].
  intros [Ha Hnd]%NoDup_cons Hx Hy Hf.
  apply elem_of_cons in Hx as [->|Hx]; apply elem_of_cons in Hy as [->|Hy];
    [done | | | by apply IH].
  - destruct Ha. rewrite Hf. by apply list_elem_of_fmap_2.
  - destruct Ha. rewrite <-Hf. by apply list_elem_of_fmap_2.
Qed.

Lemma consistent_ext ids s s' :
  queue s' = queue s → inflight s' = inflight s →
  deliveries s' = deliveries s → timers s' = timers s →
  executed s' = executed s →
  consistent ids s → consistent ids s'.
Proof. unfold consistent. by intros -> -> -> -> ->. Qed.

Lemma consistent_create tpm : consistent [] (create tpm).
Proof.
  unfold consistent. simpl. split_and!.
  - constructor.
  - by intros id ?%elem_of_nil.
  - by intros e ?%elem_of_nil.
  - by intros tm ?%elem_of_nil.
  - by intros fr e ?%elem_of_nil.
Qed.

Lemma consistent_deliver ids id r s :
  id ∈ ids → (id ∉ requestId <$> queue s) →
  consistent ids s → consistent ids (deliver id r s).
Proof.
  intros Hid Hnq (H1 & H2 & H3 & H4 & H5). unfold consistent.
  cbn [queue inflight deliveries timers executed deliver].
  split_and!; try done.
  - intros id'. rewrite fmap_app, !elem_of_app. cbn [fmap list_fmap fst].
    rewrite list_elem_of_singleton.
    intros [?|[?|[[?| ->]|?]]]; [apply H2; rewrite !elem_of_app; auto..|done|
                                 apply H2; rewrite !elem_of_app; auto].
  - intros e He. destruct (H3 e He) as [Hd Hx]. split; [|done].
    rewrite fmap_app, elem_of_app. cbn [fmap list_fmap fst].
    rewrite list_elem_of_singleton.
    intros [?|Heq]; [done|].
    apply Hnq. rewrite <-Heq. by apply list_elem_of_fmap_2.
Qed.

Lemma consistent_clearTimeout ids h s :
  consistent ids s → consistent ids (clearTimeout h s).
Proof.
  intros (H1 & H2 & H3 & H4 & H5). unfold consistent. simpl. split_and!; try done.
  intros tm [_ Htm]%list_elem_of_filter. by apply H4.
Qed.

Lemma consistent_processQueue ids s :
  consistent ids s → consistent ids (processQueue s).
Proof.
  intros Hs. unfold processQueue. destruct (queue s) as [|e rest] eqn:Hq; [done|].
  destruct (_ && _); [|done].
  destruct Hs as (H1 & H2 & H3 & H4 & H5). rewrite Hq in *.
  rewrite fmap_cons in H1, H2.
  unfold consistent, executeImmediate_begin, clearTimeout, set_queue.
  cbn [queue inflight deliveries timers executed]. rewrite fmap_cons.
  cbn [f_requestId]. split_and!.
  - by rewrite <-Permutation_middle.
  - intros id Hid. apply H2.
    rewrite !elem_of_app, ?elem_of_cons, ?list_elem_of_singleton in Hid.
    rewrite elem_of_nil in Hid. rewrite !elem_of_app, ?elem_of_cons. tauto.
  - intros e' He'. destruct (H3 e' (list_elem_of_further _ _ _ He')) as [Hd Hx].
    split; [done|]. rewrite elem_of_app, list_elem_of_singleton.
    intros [?|Heq]; [done|].
    apply NoDup_app in H1 as (Hnd & _). apply NoDup_cons in Hnd as [Hne _].
    apply Hne. rewrite <-Heq. by apply list_elem_of_fmap_2.
  - intros tm [Hne Htm]%list_elem_of_filter.
    destruct (H4 tm Htm) as (e' & He' & Hid & Hto).
    exists e'. split_and!; try done.
    apply elem_of_cons in He' as [->|?]; [|done]. by destruct Hne.
  - intros fr e' [ ->|Hfr]%elem_of_cons; [by intros [= <-]|]. by apply H5.
Qed.

Lemma consistent_settle ids n s :
  consistent ids s → consistent ids (settle n s).
Proof.
  intros Hs. unfold settle. destruct (inflight s !! n) as [fr|] eqn:Hn; [|done].
  pose proof (list_elem_of_lookup_2 _ _ _ Hn) as Hfr.
  assert (f_requestId fr ∈ ids ∧ (f_requestId fr ∉ requestId <$> queue s)) as [Hid Hnq].
  { destruct Hs as (H1 & H2 & _). split.
    - apply H2. rewrite !elem_of_app. right; left. by apply list_elem_of_fmap_2.
    - apply NoDup_app in H1 as (_ & Hdisj & _). intros Hin.
      apply (Hdisj _ Hin). by apply list_elem_of_fmap_2. }
  assert (consistent ids (set_inflight (delete n (inflight s)) s)) as Hs'.
  { destruct Hs as (H1 & H2 & H3 & H4 & H5). unfold consistent. simpl.
    assert (sublist (f_requestId <$> delete n (inflight s)) (f_requestId <$> inflight s))
      as Hsub by apply fmap_sublist, sublist_delete.
    split_and!; try done.
    - apply (sublist_NoDup _ _ H1). by apply sublist_app.
    - intros id Hid'. apply H2. rewrite !elem_of_app in *.
      destruct Hid' as [?|[?|?]]; auto. right; left. by eapply elem_of_sublist.
    - intros fr' e Hin. apply H5. by eapply list_elem_of_delete_inv. }
  assert (∀ id, id ∈ ids → (id ∉ requestId <$> queue s) →
            consistent ids
              (deliver id
                 (executeImmediate_resume fr (set_inflight (delete n (inflight s)) s)).1
                 (executeImmediate_resume fr (set_inflight (delete n (inflight s)) s)).2))
    as Hdel.
  { intros id Hin Hout. unfold executeImmediate_resume.
    destruct (f_requestFunction fr); simpl;
      (apply consistent_deliver; [done | done |]);
      by eapply consistent_ext; [..|exact Hs']. }
  destruct (executeImmediate_resume fr _) as [r s'] eqn:Hres. simpl in Hdel.
  destruct (f_entry fr) as [e|] eqn:He.
  - apply consistent_processQueue.
    destruct Hs as (_ & _ & _ & _ & H5). rewrite (H5 fr e Hfr He). by apply Hdel.
  - by apply Hdel.
Qed.

Lemma consistent_onTimeout ids h s :
  consistent ids s → consistent ids (onTimeout h s).
Proof.
  intros Hs. unfold onTimeout.
  destruct (list_find _ _) as [[i tm]|] eqn:Hfind; [|done].
  apply list_find_Some in Hfind as (Htm%list_elem_of_lookup_2 & Hh & _).
  destruct Hs as (H1 & H2 & H3 & H4 & H5).
  destruct (H4 tm Htm) as (e & He & Hid & Hto).
  assert (NoDup (requestId <$> queue s)) as Hnd by by apply NoDup_app in H1 as (? & _).
  assert (t_requestId tm ∈ requestId <$> queue s) as Hin.
  { rewrite <-Hid. by apply list_elem_of_fmap_2. }
  destruct (splice_NoDup _ _ Hnd Hin) as (e0 & Hsplice & He0 & He0in).
  assert (e0 = e) as -> by (eapply NoDup_fmap_inj; [exact Hnd|done..|congruence]).
  apply consistent_deliver.
  - apply H2. rewrite elem_of_app. by left.
  - unfold removeFromQueue. simpl. rewrite Hsplice. simpl.
    intros (x & Hx & [Hne _]%list_elem_of_filter)%list_elem_of_fmap. done.
  - unfold removeFromQueue. simpl. rewrite Hsplice.
    assert (sublist (filter (λ x, requestId x ≠ t_requestId tm) (queue s)) (queue s))
      as Hsub by apply sublist_filter.
    unfold consistent. simpl. split_and!; try done.
    + apply (sublist_NoDup _ _ H1). apply sublist_app; [|done].
      by apply fmap_sublist.
    + intros id Hid'. apply H2. rewrite !elem_of_app in *.
      destruct Hid' as [?|?]; auto. left. eapply elem_of_sublist; [done|].
      by apply fmap_sublist.
    + intros e' He'. apply H3. by eapply elem_of_sublist.
    + intros tm' [Hne1 [Hne2 Htm']%list_elem_of_filter]%list_elem_of_filter.
      destruct (H4 tm' Htm') as (e' & He' & Hid' & Hto').
      exists e'. split_and!; try done.
      apply list_elem_of_filter. split; [|done]. intros Heq.
      assert (e' = e) as -> by (eapply NoDup_fmap_inj; [exact Hnd|done..|congruence]).
      congruence.
Qed.

Lemma clearQueue_fold q s0 :
  let s' := foldl (λ s' entry, deliver (requestId entry) (Throw (Error "Queue cleared"))
                                 (clearTimeout (timeout entry) s')) s0 q in
  inflight s' = inflight s0
  ∧ executed s' = executed s0
  ∧ (deliveries s').*1 = (deliveries s0).*1 ++ (requestId <$> q)
  ∧ ∀ tm, tm ∈ timers s' → tm ∈ timers s0 ∧ (handle tm ∉ timeout <$> q).
Proof.
  revert s0. induction q as [|e q IH]; intros s0; simpl.
  - rewrite app_nil_r. split_and!; try done. intros tm Htm. split; [done|].
    apply not_elem_of_nil.
  - destruct (IH (deliver (requestId e) (Throw (Error "Queue cleared"))
                    (clearTimeout (timeout e) s0))) as (Hf & Hx & Hd & Ht).
    simpl in *. split_and!; [done | done | |].
    + rewrite Hd, fmap_app. simpl. by rewrite <-app_assoc.
    + intros tm Htm. destruct (Ht tm Htm) as [[Hne Hin]%list_elem_of_filter Hnot].
      split; [done|]. apply not_elem_of_cons. done.
Qed.

Lemma consistent_clearQueue ids s :
  consistent ids s → consistent ids (clearQueue s).
Proof.
  intros (H1 & H2 & H3 & H4 & H5). unfold clearQueue.
  destruct (clearQueue_fold (queue s) s) as (Hf & Hx & Hd & Ht).
  unfold consistent. simpl. rewrite Hf, Hd, Hx. split_and!.
  - by apply NoDup_app in H1 as (_ & _ & ?).
  - intros id Hid. apply H2. rewrite !elem_of_app in *. tauto.
  - by intros e ?%elem_of_nil.
  - intros tm Htm. destruct (Ht tm Htm) as [Hin Hnot].
    destruct (H4 tm Hin) as (e & He & _ & Hto). destruct Hnot.
    rewrite <-Hto. by apply list_elem_of_fmap_2.
  - done.
Qed.

(** A call that draws a new id keeps the limiter consistent. *)
Lemma consistent_call ids fn o id start s :
  id ∉ ids → consistent ids s →
  consistent (ids ++ [id]) (executeRequest fn o id start s).
Proof.
  intros Hnew (H1 & H2 & H3 & H4 & H5).
  assert ((id ∉ requestId <$> queue s) ∧ (id ∉ f_requestId <$> inflight s)
          ∧ (id ∉ (deliveries s).*1) ∧ (id ∉ executed s)) as (Hnq & Hnf & Hnd & Hnx).
  { split_and!; intros Hin; apply Hnew, H2; rewrite !elem_of_app; auto. }
  assert (∀ x, x ∈ (requestId <$> queue s) ++ (f_requestId <$> inflight s)
               ++ (deliveries s).*1 ++ executed s ∨ x = id → x ∈ ids ++ [id]) as H2'.
  { intros x [Hx| ->]; rewrite elem_of_app, list_elem_of_singleton; auto. }
  unfold executeRequest. destruct (_ <=? _).
  - unfold consistent, executeImmediate_begin.
    cbn [queue inflight deliveries timers executed]. rewrite fmap_cons.
    cbn [f_requestId]. split_and!; try done.
    + rewrite <-Permutation_middle. by constructor; [rewrite elem_of_app; tauto|].
    + intros x Hx. apply H2'.
      rewrite !elem_of_app, elem_of_cons, list_elem_of_singleton in Hx.
      rewrite !elem_of_app. tauto.
    + intros e He. destruct (H3 e He) as [Hd Hx]. split; [done|].
      rewrite elem_of_app, list_elem_of_singleton. intros [?|Heq]; [done|].
      apply Hnq. rewrite <-Heq. by apply list_elem_of_fmap_2.
    + intros fr e [ ->|Hfr]%elem_of_cons; [done|]. by apply H5.
  - unfold queueRequest.
    set (e := QueueEntry _ _ _ _ _ _).
    assert (∀ x, x ∈ (if String.eqb (default "normal"%string (o_priority o)) "high"
                      then e :: queue s else queue s ++ [e]) ↔ x = e ∨ x ∈ queue s) as Hq.
    { intros x. destruct (String.eqb _ _);
        rewrite ?elem_of_cons, ?elem_of_app, ?list_elem_of_singleton; tauto. }
    assert ((requestId <$> (if String.eqb (default "normal"%string (o_priority o)) "high"
                           then e :: queue s else queue s ++ [e]))
            ≡ₚ id :: (requestId <$> queue s)) as Hperm.
    { destruct (String.eqb _ _); [done|]. rewrite fmap_app. simpl.
      by rewrite <-Permutation_cons_append. }
    unfold consistent. cbn [queue inflight deliveries timers executed]. split_and!.
    + rewrite Hperm. simpl. by constructor; [rewrite elem_of_app; tauto|].
    + intros x Hx. apply H2'. rewrite !elem_of_app in Hx. rewrite Hperm in Hx.
      rewrite !elem_of_app. rewrite elem_of_cons in Hx. tauto.
    + intros x [ ->|Hx]%Hq; [done|]. by apply H3.
    + intros tm [Htm| ->%list_elem_of_singleton]%elem_of_app.
      * destruct (H4 tm Htm) as (x & Hx & ? & ?). exists x. rewrite Hq. auto.
      * exists e. rewrite Hq. auto.
    + done.
Qed.

Lemma consistent_step ids s ev :
  (∀ id, draws id ev → id ∉ ids) →
  consistent ids s →
  consistent (ids ++ drawn [ev]) (step s ev).
Proof.
  intros Hnew Hs. destruct ev as [fn o id start|n|h| | |]; simpl;
    rewrite ?app_nil_r.
  - apply consistent_call; [by apply Hnew | done].
  - by apply consistent_settle.
  - by apply consistent_onTimeout.
  - apply consistent_processQueue. by eapply consistent_ext; [..|exact Hs].
  - by apply consistent_processQueue.
  - by apply consistent_clearQueue.
Qed.

Lemma consistent_run evs ids s :
  NoDup (ids ++ drawn evs) → consistent ids s →
  consistent (ids ++ drawn evs) (run evs s).
Proof.
  unfold run. revert ids s. induction evs as [|ev evs IH]; intros ids s Hnd Hs.
  - simpl. by rewrite app_nil_r.
  - change (ev :: evs) with ([ev] ++ evs) in *. unfold drawn in *.
    rewrite omap_app, app_assoc in *. simpl foldl. apply IH; [done|].
    apply consistent_step; [|done].
    intros id Hid Hin. destruct ev; simpl in *; try done. subst.
    apply NoDup_app in Hnd as (Hnd & _). apply NoDup_app in Hnd as (_ & Hdisj & _).
    apply (Hdisj _ Hin). left.
Qed.

(** After any run from a new limiter whose calls draw distinct ids. *)
Lemma reachable_consistent tpm evs :
  NoDup (drawn evs) → consistent (drawn evs) (run evs (create tpm)).
Proof.
  intros Hnd. apply (consistent_run evs [] (create tpm) Hnd), consistent_create.
Qed.

Lemma not_drawn id evs : id ∉ drawn evs → Forall (λ ev, ¬ draws id ev) evs.
Proof.
  intros Hid. apply Forall_forall. intros ev Hev Hdraws. apply Hid.
  apply list_elem_of_omap. exists ev. split; [done|].
  destruct ev; simpl in *; try done. by subst.
Qed.
(** A time-out that fires for a waiting request, in any state: the entry
    leaves the queue, the promise is rejected, and the request stays out
    of the limiter's hands as long as no call draws its id again. *)
Lemma timeout_settles_request s h i tm evs :
  let id := t_requestId tm in
  list_find (λ tm, handle tm = h) (timers s) = Some (i, tm) →
  (id ∈ requestId <$> queue s) →
  NoDup (requestId <$> queue s) →
  (id ∉ f_requestId <$> inflight s) →
  promise id (deliveries s) = None →
  Forall (λ ev, ¬ draws id ev) evs →
  let s1 := step s (Timeout h) in
  queue s1 = filter (λ e, requestId e ≠ id) (queue s)
  ∧ promise id (deliveries s1) = Some (Throw (timedOut id))
  ∧ quiet id (Throw (timedOut id)) (executed s) (run evs s1).
Proof.
  intros id Htimer Hin Hnd Hfl Hpending Hevs s1.
  destruct (splice_NoDup id (queue s) Hnd Hin) as (e & Hsplice & He & _).
  assert (queue s1 = filter (λ e, requestId e ≠ id) (queue s)
          ∧ inflight s1 = inflight s
          ∧ deliveries s1 = deliveries s ++ [(id, Throw (timedOut id))]
          ∧ executed s1 = executed s) as (Hq1 & Hf1 & Hd1 & Hx1).
  { unfold s1. simpl. unfold onTimeout. rewrite Htimer. fold id.
    unfold removeFromQueue. simpl. rewrite Hsplice. done. }
  assert (quiet id (Throw (timedOut id)) (executed s) s1) as Hquiet.
  { unfold quiet. rewrite Hq1, Hf1, Hd1, Hx1, promise_snoc, Hpending, String.eqb_refl.
    split_and!; [|done|done|].
    - intros (x & Hx & Hxin)%list_elem_of_fmap.
      apply list_elem_of_filter in Hxin as [Hne _]. done.
    - exists []. rewrite app_nil_r. split; [done | apply not_elem_of_nil]. }
  split_and!; [done | | by apply quiet_run].
  by rewrite Hd1, promise_snoc, Hpending, String.eqb_refl.
Qed.

(** C7.  In any run of a limiter whose calls draw distinct request ids,
    let the time-out [h] of a queued request fire.  The request was
    waiting, its caller's promise pending, and it had not been executed;
    the callback takes its entry out of the queue and rejects the promise
    with the time-out error; and whatever follows, the request is not in
    the queue, is not in flight, is never executed, and the promise keeps
    its rejection. *)
Theorem timed_out_request_is_never_served tpm evs1 evs2 h i tm :
  NoDup (drawn (evs1 ++ evs2)) →
  let s := run evs1 (create tpm) in
  list_find (λ tm, handle tm = h) (timers s) = Some (i, tm) →
  let id := t_requestId tm in
  let s1 := step s (Timeout h) in
  let s2 := run evs2 s1 in
  ((id ∈ requestId <$> queue s) ∧ promise id (deliveries s) = None)
  ∧ queue s1 = filter (λ e, requestId e ≠ id) (queue s)
  ∧ promise id (deliveries s1) = Some (Throw (timedOut id))
  ∧ (id ∉ requestId <$> queue s2)
  ∧ (id ∉ f_requestId <$> inflight s2)
  ∧ promise id (deliveries s2) = Some (Throw (timedOut id))
  ∧ id ∉ executed s2.
Proof.
  intros Hnd s Htimer id s1 s2.
  unfold drawn in Hnd. rewrite omap_app in Hnd. fold (drawn evs1) (drawn evs2) in Hnd.
  apply NoDup_app in Hnd as (Hnd1 & Hdisj & _).
  pose proof (reachable_consistent tpm evs1 Hnd1) as (H1 & H2 & H3 & H4 & _).
  fold s in H1, H2, H3, H4.
  pose proof Htimer as (Htm%list_elem_of_lookup_2 & _)%list_find_Some.
  destruct (H4 tm Htm) as (e & He & Hid & _). fold id in Hid.
  assert (id ∈ requestId <$> queue s) as Hin.
  { rewrite <-Hid. by apply list_elem_of_fmap_2. }
  destruct (H3 e He) as [Hpending Hfresh]. rewrite Hid in Hpending, Hfresh.
  apply promise_None in Hpending.
  apply NoDup_app in H1 as (Hndq & Hqf & _).
  assert (Forall (λ ev, ¬ draws id ev) evs2) as Hevs.
  { apply not_drawn, Hdisj, H2. rewrite elem_of_app. by left. }
  destruct (timeout_settles_request s h i tm evs2 Htimer Hin Hndq (Hqf _ Hin)
              Hpending Hevs) as (Hq1 & Hp1 & Hnq & Hnf & Hp2 & l & Hl & Hnl).
  split_and!; try done.
  fold s1 s2 in Hl. rewrite Hl, elem_of_app. tauto.
Qed.

Example timeout_example :
  let s := run [Timeout 1; Settle 0; Refill; Settle 0; Settle 0] busy in
  executed s = ["r0"; "h2"; "n1"]%string
  ∧ promise "h1" (deliveries s) = Some (Throw (Error "Request h1 timed out in queue"))
  ∧ queue s = [].
Proof. vm_compute. done. Qed.

Lemma timed_out_request_is_never_served_witness :
  let evs1 := [Call (text "r0") (ask 100 "normal") "r0" 0;
               Call (text "n1") (ask 40 "normal") "n1" 1;
               Call (text "h1") (ask 30 "high") "h1" 2;
               Call (text "h2") (ask 30 "high") "h2" 3] in
  let evs2 := [Settle 0; Refill; Settle 0; Call (text "n2") (ask 10 "normal") "n2" 4;
               Settle 0; Settle 0; Tick] in
  let s := run evs1 (create 100) in
  let s1 := step s (Timeout 1) in
  let s2 := run evs2 s1 in
  (("h1"%string ∈ requestId <$> queue s) ∧ promise "h1" (deliveries s) = None)
  ∧ queue s1 = filter (λ e, requestId e ≠ "h1"%string) (queue s)
  ∧ promise "h1" (deliveries s1) = Some (Throw (timedOut "h1"))
  ∧ ("h1"%string ∉ requestId <$> queue s2)
  ∧ ("h1"%string ∉ f_requestId <$> inflight s2)
  ∧ promise "h1" (deliveries s2) = Some (Throw (timedOut "h1"))
  ∧ "h1"%string ∉ executed s2.
Proof.
  apply (timed_out_request_is_never_served 100
           [Call (text "r0") (ask 100 "normal") "r0" 0;
            Call (text "n1") (ask 40 "normal") "n1" 1;
            Call (text "h1") (ask 30 "high") "h1" 2;
            Call (text "h2") (ask 30 "high") "h2" 3]
           [Settle 0; Refill; Settle 0; Call (text "n2") (ask 10 "normal") "n2" 4;
            Settle 0; Settle 0; Tick]
           1 1 (Timer 1 "h1" 100));
    [apply (bool_decide_unpack _); vm_compute; exact I | reflexivity].
Defined.

End LimiterProperties.

(** * Properties of the commentary worker *)
Module WorkerProperties.
Import CommentaryWorker.
Local Open Scope Z_scope.

Lemma insert_perm x l : Permutation (insert x l) (x :: l).
Proof.
  induction l as [|y l IH]; simpl; [done|].
  destruct (priority x <? priority y); [|done].
  rewrite IH. apply perm_swap.
Qed.

Lemma sort_perm l : Permutation (sort l) l.
Proof.
  induction l as [|x l IH]; simpl; [done|].
  rewrite insert_perm. by constructor.
Qed.

Lemma insert_descending x l : descending l → descending (insert x l).
Proof.
  unfold descending. induction l as [|y l IH]; simpl; intros Hl.
  - by repeat constructor.
  - apply Sorted_inv in Hl as [Hl Hhd].
    destruct (priority x <? priority y) eqn:E.
    + apply Z.ltb_lt in E. constructor; [by apply IH|].
      destruct l as [|z l]; simpl.
      * constructor. lia.
      * apply HdRel_inv in Hhd. destruct (priority x <? priority z); constructor; lia.
    + apply Z.ltb_ge in E. constructor; [by constructor|]. by constructor.
Qed.

Lemma sort_descending l : descending (sort l).
Proof.
  induction l as [|x l IH]; simpl; [constructor|]. by apply insert_descending.
Qed.

Import Scenario.

Example starved_priorities :
  map priority (queue (starved 1)) = [4; 3]
  ∧ map priority (queue (starved 2)) = [3; 3]
  ∧ map articleId (queue (starved 2)) = ["a2"; "a1"]%string
  ∧ map priority (queue (starved 8)) = [1; 1]
  ∧ map priority (queue (starved 9)) = [1; 1].
Proof. vm_compute. done. Qed.

Example broken_upstream_drops :
  queue (processQueue brokenUpstream store fresh) = [cupFinal].
Proof. reflexivity. Qed.

(** The [catch] block on its own, whatever the queue holds by then: after a
    temporary error the queue is sorted and holds the demoted job next to
    what it held. *)
Lemma handleFailure_temporary e job w :
  isTemporary e = true →
  descending (queue (handleFailure e job w))
  ∧ Permutation (queue (handleFailure e job w)) (demoted job :: queue w).
Proof.
  intros He. unfold handleFailure. rewrite He. simpl. split.
  - apply sort_descending.
  - rewrite sort_perm. symmetry. apply Permutation_cons_append.
Qed.

(** The limiter's own queue time-out is worded "timed out": the test on
    the message does not take it for a temporary error. *)
Example limiter_timeout_is_not_temporary :
  isTemporary (GroqRateLimiter.timedOut "req_1") = false.
Proof. reflexivity. Qed.

(** C9, as the code has it.  The job at the head of the queue is taken
    while the daily quota lasts, and generating or saving its commentary
    fails with error [e].  If the message of [e] contains "Rate limit" or
    "timeout", the job goes back with its priority lowered by one but not
    below 1, and the queue, which holds this job and those that waited, is
    in descending order of priority.  If [e] is no rate-limit or time-out
    error (its message contains none of "Rate limit", "timeout" and
    "timed out"), the job is dropped and the queue is what waited behind
    it.  In both cases the daily counter does not move. *)
Theorem failed_job_is_requeued_or_dropped generate save w job rest e :
  queue w = job :: rest →
  processedToday w < maxDailyCommentaries w →
  generate job = Throw e
  ∨ (∃ c, generate job = Ok (Some c) ∧ save (articleId job) c = Throw e) →
  let w' := processQueue generate save w in
  processedToday w' = processedToday w
  ∧ (isTemporary e = true →
       queue w' = sort (rest ++ [demoted job])
       ∧ priority (demoted job) = Z.max 1 (priority job - 1)
       ∧ demoted job ∈ queue w'
       ∧ Permutation (queue w') (demoted job :: rest)
       ∧ descending (queue w'))
  ∧ (isTemporary e = false → includes (message e) "timed out" = false →
       queue w' = rest).
Proof.
  intros Hq Hquota Hfail w'.
  assert (w' = if isTemporary e
               then Worker (sort (rest ++ [demoted job]))
                           (processedToday w) (maxDailyCommentaries w) (saved w)
               else Worker rest (processedToday w) (maxDailyCommentaries w) (saved w))
    as ->.
  { unfold w', processQueue. rewrite Hq.
    replace (_ <=? _) with false by (symmetry; apply Z.leb_gt; lia).
    destruct Hfail as [->|(c & -> & ->)]; unfold handleFailure;
      by destruct (isTemporary e). }
  split_and!.
  - by destruct (isTemporary e).
  - intros ->. simpl.
    assert (Permutation (sort (rest ++ [demoted job])) (demoted job :: rest)) as Hperm.
    { rewrite sort_perm. symmetry. apply Permutation_cons_append. }
    split_and!; try done.
    + eapply elem_of_Permutation_proper; [exact Hperm | left].
    + apply sort_descending.
  - by intros -> _.
Qed.

Lemma failed_job_is_requeued_or_dropped_witness :
  let w' := processQueue busyUpstream store fresh in
  processedToday w' = processedToday fresh
  ∧ (isTemporary rateLimited = true →
       queue w' = sort ([cupFinal] ++ [demoted budgetVote])
       ∧ priority (demoted budgetVote) = Z.max 1 (priority budgetVote - 1)
       ∧ demoted budgetVote ∈ queue w'
       ∧ Permutation (queue w') (demoted budgetVote :: [cupFinal])
       ∧ descending (queue w'))
  ∧ (isTemporary rateLimited = false →
     includes (message rateLimited) "timed out" = false →
       queue w' = [cupFinal]).
Proof.
  apply (failed_job_is_requeued_or_dropped busyUpstream store fresh
           budgetVote [cupFinal] rateLimited);
    [reflexivity | vm_compute; reflexivity | left; reflexivity].
Defined.

(** C9 as the specification words it fails: a job whose priority has come
    down to 1 fails once more on a rate limit and is requeued at priority
    1, not at 0. *)
Lemma priority_is_not_lowered_below_one :
  let w := starved 8 in
  let w' := processQueue busyUpstream store w in
  (∃ job rest, queue w = job :: rest ∧ priority job = 1
               ∧ isTemporary rateLimited = true
               ∧ ∀ job', job' ∈ queue w' → articleId job' = articleId job →
                         priority job' = priority job ∧ priority job' ≠ priority job - 1).
Proof.
  cbv zeta. eexists _, _. split; [vm_compute; reflexivity|].
  split_and!; [done..|].
  intros job' Hin Hid. vm_compute in Hin.
  apply elem_of_cons in Hin as [->|Hin]; [vm_compute in Hid; done|].
  apply list_elem_of_singleton in Hin as ->. vm_compute. split; [done|discriminate].
Qed.

End WorkerProperties.

(** * Further properties of the cache module *)
Module CacheExtras.
Import AdvancedCache CacheAdmin.
Import CacheProperties.
Local Open Scope Z_scope.

Lemma getWithSWR_throw_inv s key f o e s' :
  getWithSWR key f o s = (Throw e, s') →
  ∃ n, fetchCalls s' = S n ∧ (f n).2 = Throw e.
Proof.
  unfold getWithSWR, try_catch at 1.
  destruct (bind (memoryCache_get key) _ s) as [[v|err] s3]; [done|].
  fold (fallback f). destruct (fallback_spec f s3) as (Hfb & Hcalls & _).
  rewrite Hfb. intros [= He <-]. eauto.
Qed.

(** X3.  Whatever the tiers do (a full local tier, a remote tier that
    rejects commands), an error that reaches the caller of [getWithSWR] is
    the error thrown by the last invocation of the fetch function; with a
    fetch function that never throws, [getWithSWR] never throws. *)
Theorem only_fetch_errors_surface s key f o :
  (∀ e s', getWithSWR key f o s = (Throw e, s') →
           ∃ n, fetchCalls s' = S n ∧ (f n).2 = Throw e)
  ∧ ((∀ n, ∃ v, (f n).2 = Ok v) → ∃ v, (getWithSWR key f o s).1 = Ok v).
Proof.
  split; [intros e s'; apply getWithSWR_throw_inv|].
  intros Hf. destruct (getWithSWR key f o s) as [[v|e] s'] eqn:Hget; [by eexists|].
  apply getWithSWR_throw_inv in Hget as (n & _ & Hn).
  destruct (Hf n) as [v Hv]. congruence.
Qed.

(** The value [getWithSWR] answers with on a miss in both tiers was
    produced by an invocation of the fetch function. *)
Lemma miss_answers_with_fetched s key f o v s' :
  local_absent key s → remote_absent key s →
  getWithSWR key f o s = (Ok v, s') →
  ∃ n, (fetchCalls s ≤ n)%nat ∧ (f n).2 = Ok v.
Proof.
  intros Hl Hr.
  destruct (getWithSWR_miss s key f o Hl Hr) as (s2 & _ & Hcalls & _ & _ & _ & ->).
  rewrite refreshCache_spec. destruct (call_spec f s2) as (_ & Hc & _).
  destruct ((f (fetchCalls s2)).2) as [x|e] eqn:Hf.
  - destruct (_ && _).
    + intros [= <- <-]. exists (fetchCalls s2). split; [lia | done].
    + cbv zeta. destruct (NodeCache.set _ _ _ _ _) as [[b|err] c].
      * intros [= <- <-]. exists (fetchCalls s2). split; [lia | done].
      * destruct (fallback_spec f (set_memoryCache c (call f s2).2)) as (Hfb & _).
        rewrite Hfb. simpl. rewrite Hc. intros [= Hv _].
        exists (S (fetchCalls s2)). split; [lia | done].
  - destruct (fallback_spec f (call f s2).2) as (Hfb & _).
    rewrite Hfb, Hc. intros [= Hv _].
    exists (S (fetchCalls s2)). split; [lia | done].
Qed.

(** X2.  A key absent from the local tier and live in a healthy remote
    tier, while the local tier has room: [getWithSWR] answers with the
    remote data without invoking the fetch function, and stores the remote
    entry, with its original time stamp, in the local tier under the ttl
    of the call; the remote tier is left as it is. *)
Theorem remote_hit_fills_local s key f o r e expiresAt :
  local_absent key s →
  redisClient s = Some r → failing r = false →
  rdata r !! key = Some (e, expiresAt) → now s < expiresAt →
  NodeCache.keyCount (memoryCache s) < NodeCache.maxKeys (memoryCache s) →
  ∃ s', getWithSWR key f o s = (Ok (data e), s')
        ∧ fetchCalls s' = fetchCalls s
        ∧ redisClient s' = redisClient s
        ∧ NodeCache.find key (NodeCache.data (memoryCache s'))
          = Some (NodeCache.wrap (now s) e (ttl_of o)).
Proof.
  unfold local_absent. intros Hl Hr Hup Hkey Hlive Hroom.
  destruct (get_keeps_bound (now s) key (memoryCache s)) as [Hmax Hcount].
  destruct (NodeCache.get (now s) key (memoryCache s)) as [x c] eqn:Hget.
  simpl in *. subst x.
  unfold getWithSWR, try_catch at 1, bind at 1, memoryCache_get. rewrite Hget.
  fold (ttl_of o). unfold bind at 1, redis_lookup, bind at 1. simpl.
  rewrite Hr. unfold try_catch, bind at 1, redis_get. simpl.
  rewrite Hup, Hkey. replace (now s <? expiresAt) with true by (symmetry; lia).
  unfold bind at 1, memoryCache_set, NodeCache.set. simpl. rewrite Hmax.
  replace (_ && _) with false by (symmetry; apply andb_false_iff; right; lia).
  simpl. eexists. split; [reflexivity|]. simpl. split_and!; [done..|].
  rewrite NodeCacheFacts.find_assign_eq. by destruct e.
Qed.

(** X4.  A refresh that fetches a value it may store, with room in the
    local tier, a healthy remote tier and a positive ttl, writes one and
    the same entry to both tiers, stamped with the time the fetch
    returned, and both copies expire at the same instant. *)
Theorem refresh_writes_through s key f ttl v r :
  (f (fetchCalls s)).2 = Ok v →
  includes key "articles" && isEmptyArray v = false →
  NodeCache.keyCount (memoryCache s) < NodeCache.maxKeys (memoryCache s) →
  redisClient s = Some r → failing r = false → 0 < ttl →
  ∃ s' r',
    refreshCache key f ttl s = (Ok v, s')
    ∧ let e := {| data := v; timestamp := now s' |} in
      now s' = now s + Z.of_nat (f (fetchCalls s)).1
      ∧ NodeCache.find key (NodeCache.data (memoryCache s'))
        = Some (NodeCache.Wrapped (now s' + ttl * 1000) e)
      ∧ redisClient s' = Some r'
      ∧ rdata r' !! key = Some (e, now s' + ttl * 1000)
      ∧ ∀ k, k ≠ key → rdata r' !! k = rdata r !! k.
Proof.
  intros Hf Hne Hroom Hr Hup Httl.
  rewrite refreshCache_spec, Hf, Hne. cbv zeta.
  destruct (call_spec f s) as (_ & _ & Hnow & _ & Hmem & Hred).
  unfold NodeCache.set. rewrite Hmem.
  replace (_ && _) with false by (symmetry; apply andb_false_iff; right; lia).
  unfold store_remote. simpl. rewrite Hred, Hr, Hup.
  replace (ttl <=? 0) with false by (symmetry; lia). simpl.
  do 2 eexists. split; [reflexivity|].
  cbn [now memoryCache redisClient rdata set_redisClient set_memoryCache
       NodeCache.data NodeCache.with_data].
  split_and!; try done.
  - rewrite NodeCacheFacts.find_assign_eq. unfold NodeCache.wrap.
    by replace (ttl =? 0) with false by (symmetry; lia).
  - cbn [rdata]. by rewrite lookup_insert_eq.
  - intros k Hk. cbn [rdata]. by rewrite lookup_insert_ne.
Qed.

(** *** Invalidation *)

Lemma remote_step_safe (m : M unit) s :
  (try_catch m (λ _, ret ()) s).1 = Ok ().
Proof. unfold try_catch, ret. by destruct (m s) as [[[]|e] s']. Qed.


(** X7.  [clearAll()] never throws; it empties the local tier, empties the
    remote tier if that accepts commands, resets the hit and miss counters,
    and after it the next [getWithSWR] for any key invokes the fetch
    function. *)
Theorem clearAll_forgets_everything s :
  let s' := (clearAll s).2 in
  (clearAll s).1 = Ok ()
  ∧ NodeCache.data (memoryCache s') = []
  ∧ NodeCache.maxKeys (memoryCache s') = NodeCache.maxKeys (memoryCache s)
  ∧ (∀ r', redisClient s' = Some r' → failing r' = false → rdata r' = ∅)
  ∧ (hitCount s', missCount s', metrics s') = (0, 0, Metrics 0 0 0)
  ∧ ∀ key f o, (S (fetchCalls s') ≤ fetchCalls (getWithSWR key f o s').2)%nat.
Proof.
  intros s'.
  assert ((clearAll s).1 = Ok ()
          ∧ memoryCache s' = NodeCache.with_data (memoryCache s) []
          ∧ (∀ r', redisClient s' = Some r' → failing r' = false → rdata r' = ∅)
          ∧ (hitCount s', missCount s', metrics s') = (0, 0, Metrics 0 0 0))
    as (Hok & Hmem & Hred & Hcount).
  { unfold s', clearAll, bind, modify, client, try_catch, redis_flushall, ret. simpl.
    destruct (redisClient s) as [r|] eqn:Hr; simpl; [|by rewrite Hr].
    destruct (failing r) eqn:Hf; simpl.
    - rewrite Hr. split_and!; try done. intros r' [= <-]. congruence.
    - split_and!; try done. by intros r' [= <-] _. }
  split_and!; try done; try (by rewrite Hmem).
  intros key f o. apply miss_invokes_fetch.
  - apply local_absent_unbound. by rewrite Hmem.
  - unfold remote_absent. destruct (redisClient s') as [r'|] eqn:Hr'; [|done].
    destruct (failing r') eqn:Hf; [by left|right].
    by rewrite (Hred r' eq_refl Hf), lookup_empty.
Qed.



(** X8.  On a local tier of at most 500 distinct keys, [cleanup] leaves at
    most 400 keys, and it leaves a tier of at most 400 keys untouched. *)
Theorem cleanup_restores_headroom s :
  NoDup (NodeCache.keys (memoryCache s)) →
  NodeCache.keyCount (memoryCache s) ≤ 500 →
  NodeCache.keyCount (memoryCache (cleanup s).2) ≤ 400
  ∧ (NodeCache.keyCount (memoryCache s) ≤ 400 → (cleanup s).2 = s).
Proof.
  intros Hnd Hmax. split.
  - pose proof (keys_cleanup s Hnd) as Hkeys.
    assert (∀ c : NodeCache.cache cacheEntry,
              NodeCache.keyCount c = Z.of_nat (length (NodeCache.keys c))) as Hlen.
    { intros c. unfold NodeCache.keyCount, NodeCache.keys. by rewrite length_fmap. }
    rewrite (Hlen (memoryCache (cleanup s).2)), Hkeys.
    destruct (400 <? NodeCache.keyCount (memoryCache s)) eqn:Hbig.
    + apply Z.ltb_lt in Hbig. pose proof (Hlen (memoryCache s)) as Hs.
      rewrite length_drop.
      set (n := NodeCache.keyCount (memoryCache s)) in *.
      assert (n / 5 * 5 ≤ n < n / 5 * 5 + 5) by (pose proof (Z.div_mod n 5); pose proof (Z.mod_pos_bound n 5); lia).
      lia.
    + apply Z.ltb_ge in Hbig. pose proof (Hlen (memoryCache s)) as Hs. lia.
  - intros Hsmall. unfold cleanup.
    by replace (400 <? _) with false by (symmetry; lia).
Qed.

(** *** Key builders *)

(** X9.  Every key built by [getArticleKey] falls under the rule for empty
    article lists: a refresh that fetches an empty array under such a key
    returns it and stores nothing.  A key built by [getArticleByIdKey]
    falls under the rule only if the id itself contains "articles". *)
Theorem article_keys_and_the_empty_rule category limit offset id :
  (∀ f ttl s, (f (fetchCalls s)).2 = Ok (VArr []) →
     refreshCache (getArticleKey category limit offset) f ttl s
     = (Ok (VArr []), (call f s).2)
     ∧ same_tiers s (call f s).2)
  ∧ includes (getArticleByIdKey id) "articles" = includes id "articles".
Proof.
  split.
  - intros f ttl s Hf. split; [|apply call_spec].
    apply refreshCache_empty_articles; [|done].
    unfold getArticleKey. reflexivity.
  - unfold getArticleByIdKey. simpl. by destruct id.
Qed.

(** The keys the module builds are ordinary keys of the local tier. *)
Lemma built_keys_are_ordinary category limit offset id url :
  NodeCache.ordinary (getArticleKey category limit offset) = true
  ∧ NodeCache.ordinary (getArticleByIdKey id) = true
  ∧ NodeCache.ordinary ("GET" +:+ ":" +:+ url) = true.
Proof.
  unfold NodeCache.ordinary, getArticleKey, getArticleByIdKey.
  split_and!; apply andb_true_iff; (split; [|reflexivity]);
    apply negb_true_iff, bool_decide_eq_false; unfold NodeCache.objectPrototype;
    intros H; repeat (apply elem_of_cons in H as [H|H]; [discriminate H|]);
    by apply elem_of_nil in H.
Qed.

(** *** The Express middleware *)




(** *** The statements at work *)

Import Situations.


Lemma remote_hit_fills_local_witness :
  ∃ s', getWithSWR Scenario.home Scenario.down Scenario.defaults (cold 5000)
        = (Ok Scenario.headlines, s')
        ∧ fetchCalls s' = fetchCalls (cold 5000)
        ∧ redisClient s' = redisClient (cold 5000)
        ∧ NodeCache.find Scenario.home (NodeCache.data (memoryCache s'))
          = Some (NodeCache.wrap 5000 (CacheEntry Scenario.headlines 1000) 300).
Proof.
  apply (remote_hit_fills_local (cold 5000) Scenario.home Scenario.down
           Scenario.defaults shared (CacheEntry Scenario.headlines 1000) 301000);
    [reflexivity | reflexivity | reflexivity | reflexivity
    | vm_compute; reflexivity | vm_compute; reflexivity].
Defined.

Lemma refresh_writes_through_witness :
  ∃ s' r',
    refreshCache "search:budget:10" Scenario.steady 600 (cold 5000)
    = (Ok Scenario.headlines, s')
    ∧ let e := {| data := Scenario.headlines; timestamp := now s' |} in
      now s' = 5000 + Z.of_nat (Scenario.steady 0%nat).1
      ∧ NodeCache.find "search:budget:10" (NodeCache.data (memoryCache s'))
        = Some (NodeCache.Wrapped (now s' + 600 * 1000) e)
      ∧ redisClient s' = Some r'
      ∧ rdata r' !! "search:budget:10"%string = Some (e, now s' + 600 * 1000)
      ∧ ∀ k, k ≠ "search:budget:10"%string → rdata r' !! k = rdata shared !! k.
Proof.
  apply (refresh_writes_through (cold 5000) "search:budget:10" Scenario.steady 600
           Scenario.headlines shared);
    [reflexivity | reflexivity | vm_compute; reflexivity | reflexivity
    | reflexivity | vm_compute; reflexivity].
Defined.

Lemma cleanup_restores_headroom_witness :
  NodeCache.keyCount (memoryCache (cleanup (bulk 450)).2) ≤ 400
  ∧ (NodeCache.keyCount (memoryCache (bulk 450)) ≤ 400 →
     (cleanup (bulk 450)).2 = bulk 450).
Proof.
  apply (cleanup_restores_headroom (bulk 450));
    [apply (bool_decide_unpack _); vm_compute; exact I | vm_compute; discriminate].
Defined.

Example cleanup_example :
  NodeCache.keyCount (memoryCache (cleanup (bulk 450)).2) = 360
  ∧ head (NodeCache.keys (memoryCache (cleanup (bulk 450)).2)) = Some "page:90"%string.
Proof. vm_compute. done. Qed.


(** A request that is not a GET leaves the cache alone. *)
Example middleware_bypass s url :
  cacheMiddleware stock (Request "POST" url) s = (Ok Bypass, s).
Proof. reflexivity. Qed.

End CacheExtras.

(** * Properties of the optimization manager *)
Module ManagerExtras.
Import AdvancedCache OptimizationManager.
Import CacheProperties.
Local Open Scope Z_scope.

(** X11.  Once the manager is initialized, [smartCache] on a key absent
    from both tiers, with a fetch function that yields strings, numbers,
    booleans or arrays and never throws, answers [undefined]: it returns
    the [data] property of what was fetched, not the fetched value.  The
    monitor counts a miss, and the strategy named makes no difference. *)
Theorem smartCache_returns_undefined key f strategy m s :
  isInitialized m = true →
  local_absent key s → remote_absent key s →
  (∀ n, ∃ v, (f n).2 = Ok v ∧ plain v = true) →
  ∃ s', smartCache key f strategy m s
        = (Ok None, trackCachePerformance false m, s')
        ∧ s' = (getWithSWR key f (Options None None None) s).2.
Proof.
  intros Hinit Hl Hr Hf. unfold smartCache. rewrite Hinit. simpl.
  unfold destructured.
  destruct (getWithSWR key f (Options None None None) s) as [[v|e] s1] eqn:Hget.
  - destruct (CacheExtras.miss_answers_with_fetched _ _ _ _ _ _ Hl Hr Hget)
      as (n & _ & Hn).
    destruct (Hf n) as (v' & Hv' & Hplain).
    assert (v' = v) as -> by congruence.
    exists s1. by destruct v.
  - apply CacheExtras.getWithSWR_throw_inv in Hget as (n & _ & Hn).
    destruct (Hf n) as (v' & Hv' & _). congruence.
Qed.

(** X12.  Once the manager is initialized, [smartCache] on a key absent
    from both tiers whose fetch function throws twice in a row invokes it
    a third time, and the caller gets the outcome of that third
    invocation; nothing is stored. *)
Theorem smartCache_fetches_three_times key f strategy m s e1 e2 :
  isInitialized m = true →
  local_absent key s → remote_absent key s →
  (f (fetchCalls s)).2 = Throw e1 →
  (f (S (fetchCalls s))).2 = Throw e2 →
  ∃ s', smartCache key f strategy m s
        = (match (f (S (S (fetchCalls s)))).2 with
           | Ok x => Ok (Some x)
           | Throw e => Throw e
           end, trackCachePerformance false m, s')
        ∧ fetchCalls s' = S (S (S (fetchCalls s)))
        ∧ NodeCache.find key (NodeCache.data (memoryCache s')) = None
        ∧ redisClient s' = redisClient s.
Proof.
  intros Hinit Hl Hr Hf1 Hf2. unfold smartCache. rewrite Hinit. simpl.
  unfold destructured.
  destruct (getWithSWR_miss s key f (Options None None None) Hl Hr)
    as (s2 & _ & Hcalls & _ & Hmem & Hred & ->).
  rewrite <-Hcalls in Hf1, Hf2 |- *.
  rewrite (refreshCache_throw _ _ _ _ _ Hf1).
  destruct (call_spec f s2) as (_ & Hc & _ & _ & Hmem1 & Hred1).
  destruct (fallback_spec f (call f s2).2) as (Hfb & Hc' & _ & Hmem2 & Hred2).
  rewrite Hfb, Hc, Hf2.
  destruct (call_spec f (fallback f (call f s2).2).2) as (Hcall & Hc3 & _ & _ & Hmem3 & Hred3).
  rewrite Hcall, Hc', Hc.
  eexists. split; [reflexivity|]. rewrite Hc3, Hc', Hc.
  split_and!; [done | | congruence].
  rewrite Hmem3, Hmem2, Hmem1, Hmem. by apply NodeCacheFacts.get_None_find.
Qed.

Import Situations.

Lemma smartCache_returns_undefined_witness :
  ∃ s', smartCache "commentary:abc" essay "commentary" ready (initial 0 None)
        = (Ok None, trackCachePerformance false ready, s')
        ∧ s' = (getWithSWR "commentary:abc" essay (Options None None None)
                  (initial 0 None)).2.
Proof.
  apply (smartCache_returns_undefined "commentary:abc" essay "commentary" ready
           (initial 0 None));
    [reflexivity | reflexivity | exact I
    | intros n; exists (VStr "A measured view."); split; reflexivity].
Defined.

Lemma smartCache_fetches_three_times_witness :
  ∃ s', smartCache "commentary:abc" Scenario.down "commentary" ready (initial 0 None)
        = (match (Scenario.down 2%nat).2 with
           | Ok x => Ok (Some x)
           | Throw e => Throw e
           end, trackCachePerformance false ready, s')
        ∧ fetchCalls s' = 3%nat
        ∧ NodeCache.find "commentary:abc" (NodeCache.data (memoryCache s')) = None
        ∧ redisClient s' = None.
Proof.
  apply (smartCache_fetches_three_times "commentary:abc" Scenario.down "commentary"
           ready (initial 0 None) (Error "upstream 503") (Error "upstream 503"));
    [reflexivity | reflexivity | exact I | reflexivity | reflexivity].
Defined.

(** The entry [smartCache] leaves behind under the "commentary" strategy
    (ttl 3600 in the table) expires 300 s after it was stored. *)
Example smartCache_ignores_strategy_ttl :
  NodeCache.find "commentary:abc"
    (NodeCache.data (memoryCache
       (smartCache "commentary:abc" essay "commentary" ready (initial 0 None)).2))
  = Some (NodeCache.Wrapped 300005 (CacheEntry (VStr "A measured view.") 5)).
Proof. reflexivity. Qed.

End ManagerExtras.

(** ** More on the rate limiter *)
Module LimiterExtras.
Import GroqRateLimiter GroqTools LimiterProperties.
Local Open Scope Z_scope.

(** *** Estimates *)

(** X13.  For every request kind that is not the name of a member of
    [Object.prototype], the Express helper forwards the call to
    [executeRequest] with an estimate of at least 31 tokens that lies
    between a quarter of the text length plus 30 and a quarter of the text
    length (rounded up) plus 50; an empty text costs 50. *)
Theorem helper_estimates_are_positive fn o body id start s :
  default "completion"%string (ro_type o) ∉ inherited →
  let text := orString (ro_text o) (orString body "") in
  let len := Z.of_nat (String.length text) in
  ∃ o', executeGroqRequest fn o body id start s = Some (step s (Call fn o' id start))
        ∧ 31 ≤ cost o'
        ∧ len ≤ 4 * (cost o' - 30)
        ∧ 4 * (cost o' - 50) ≤ len + 3
        ∧ (text = ""%string → cost o' = 50).
Proof.
  intros Htype text len. unfold executeGroqRequest, forwarded. fold text.
  assert (∃ n, estimateTokens text (ro_type o) = Some n
               ∧ 31 ≤ n ∧ len ≤ 4 * (n - 30) ∧ 4 * (n - 50) ≤ len + 3
               ∧ (text = ""%string → n = 50)) as (n & -> & Hn).
  { unfold estimateTokens. destruct (String.eqb_spec text "") as [Ht|Ht].
    - exists 50. unfold len. rewrite Ht. simpl. split_and!; done || lia.
    - assert (1 ≤ len) as Hlen.
      { unfold len. destruct text; [done|]. simpl. lia. }
      fold len.
      pose proof (Z.div_mod (len + 3) 4 ltac:(lia)) as Hdiv.
      pose proof (Z.mod_pos_bound (len + 3) 4 ltac:(lia)) as Hmod.
      assert (∀ k, 30 ≤ k ≤ 50 →
                31 ≤ (len + 3) / 4 + k ∧ len ≤ 4 * ((len + 3) / 4 + k - 30)
                ∧ 4 * ((len + 3) / 4 + k - 50) ≤ len + 3) as Hk by (intros; lia).
      unfold overhead.
      destruct (String.eqb _ "completion");
        [eexists; split; [done|]; pose proof (Hk 50); split_and!; done || lia|].
      destruct (String.eqb _ "analysis");
        [eexists; split; [done|]; pose proof (Hk 30); split_and!; done || lia|].
      destruct (String.eqb _ "summary");
        [eexists; split; [done|]; pose proof (Hk 40); split_and!; done || lia|].
      rewrite bool_decide_eq_false_2 by done.
      eexists; split; [done|]; pose proof (Hk 50); split_and!; done || lia. }
  eexists. split; [reflexivity|]. unfold cost. simpl. done.
Qed.

Lemma helper_estimates_are_positive_witness :
  let o := RequestOptions (Some "Tax reform passes") (Some "analysis") None None in
  ∃ o', executeGroqRequest (Scenario.text "ok") o None "req_1" 0 (create 0)
        = Some (step (create 0) (Call (Scenario.text "ok") o' "req_1" 0))
        ∧ 31 ≤ cost o'
        ∧ 17 ≤ 4 * (cost o' - 30)
        ∧ 4 * (cost o' - 50) ≤ 17 + 3
        ∧ ("Tax reform passes"%string = ""%string → cost o' = 50).
Proof.
  apply (helper_estimates_are_positive (Scenario.text "ok")
           (RequestOptions (Some "Tax reform passes") (Some "analysis") None None)
           None "req_1" 0 (create 0)).
  apply (bool_decide_unpack _). vm_compute. exact I.
Defined.

(** A request kind named after an inherited member has no numeric estimate;
    a one-letter analysis costs less than no text at all. *)
Example estimate_examples :
  estimateTokens "abc" (Some "toString"%string) = None
  ∧ estimateTokens "a" (Some "analysis"%string) = Some 31
  ∧ estimateTokens "" (Some "analysis"%string) = Some 50
  ∧ estimateTokens "abcde" None = Some 52.
Proof. vm_compute. done. Qed.

(** *** Emergency clearing *)

Lemma promise_app id ds ds' :
  promise id (ds ++ ds')
  = match promise id ds with
    | Some x => Some x
    | None => promise id ds'
    end.
Proof.
  induction ds as [|[i x] ds IH]; simpl; [done|].
  destruct (String.eqb i id); done.
Qed.

Lemma clearQueue_fold_fields q s0 :
  let s' := foldl (λ s' entry, deliver (requestId entry) (Throw (Error "Queue cleared"))
                                 (clearTimeout (timeout entry) s')) s0 q in
  availableTokens s' = availableTokens s0
  ∧ metrics s' = metrics s0
  ∧ tokensPerMinute s' = tokensPerMinute s0
  ∧ deliveries s'
    = deliveries s0 ++ ((λ e, (requestId e, Throw (Error "Queue cleared"))) <$> q).
Proof.
  revert s0. induction q as [|e q IH]; intros s0; simpl.
  - by rewrite app_nil_r.
  - destruct (IH (deliver (requestId e) (Throw (Error "Queue cleared"))
                    (clearTimeout (timeout e) s0))) as (Ha & Hm & Ht & Hd).
    simpl in *. split_and!; try done. by rewrite Hd, <-app_assoc.
Qed.

Lemma promise_rejected id (q : list queueEntry) (r : result response) :
  promise id ((λ e, (requestId e, r)) <$> q)
  = if bool_decide (id ∈ requestId <$> q) then Some r else None.
Proof.
  induction q as [|e q IH]; [done|].
  rewrite !fmap_cons. cbn [promise].
  destruct (String.eqb_spec (requestId e) id) as [Heq|Hne].
  - rewrite bool_decide_eq_true_2; [done|]. rewrite Heq. left.
  - rewrite IH. destruct (decide (id ∈ requestId <$> q)) as [Hin|Hin].
    + rewrite !bool_decide_eq_true_2; [done| |done]. by right.
    + rewrite !bool_decide_eq_false_2; [done| |done].
      intros [?|?]%elem_of_cons; congruence.
Qed.

(** X14.  In any run whose calls draw distinct request ids, [clearQueue]
    empties the queue, disarms every time-out, rejects the promise of each
    waiting caller with "Queue cleared", and touches nothing else: the
    bucket, the metrics, the calls in flight and the promises of all other
    requests are as before. *)
Theorem clearQueue_rejects_every_waiting_caller tpm evs :
  NoDup (drawn evs) →
  let s := run evs (create tpm) in
  let s' := clearQueue s in
  queue s' = [] ∧ timers s' = []
  ∧ availableTokens s' = availableTokens s
  ∧ inflight s' = inflight s
  ∧ metrics s' = metrics s
  ∧ (∀ e, e ∈ queue s →
       promise (requestId e) (deliveries s) = None
       ∧ promise (requestId e) (deliveries s') = Some (Throw (Error "Queue cleared")))
  ∧ (∀ id, (id ∉ requestId <$> queue s) →
       promise id (deliveries s') = promise id (deliveries s)).
Proof.
  intros Hnd s s'.
  pose proof (reachable_consistent tpm evs Hnd) as (H1 & H2 & H3 & H4 & _).
  fold s in H1, H2, H3, H4.
  destruct (clearQueue_fold (queue s) s) as (Hf & _ & _ & Ht).
  destruct (clearQueue_fold_fields (queue s) s) as (Ha & Hm & _ & Hd).
  unfold s', clearQueue. cbv zeta in Ht.
  set (s1 := foldl _ s (queue s)) in *. clearbody s1.
  simpl. rewrite Hd. split_and!; try done.
  - destruct (timers s1) as [|tm l'] eqn:Hl; [done|].
    destruct (Ht tm) as [Hin Hnot]; [left|].
    destruct (H4 tm Hin) as (e & He & _ & Hto). destruct Hnot.
    rewrite <-Hto. by apply list_elem_of_fmap_2.
  - intros e He. destruct (H3 e He) as [Hpending%promise_None _].
    split; [done|]. rewrite promise_app, Hpending, promise_rejected.
    rewrite bool_decide_eq_true_2; [done|]. by apply list_elem_of_fmap_2.
  - intros id Hid. rewrite promise_app, promise_rejected.
    rewrite bool_decide_eq_false_2 by done. by destruct (promise id (deliveries s)).
Qed.

Lemma clearQueue_rejects_every_waiting_caller_witness :
  let s := run Scenario.calls (create 100) in
  let s' := clearQueue s in
  queue s' = [] ∧ timers s' = []
  ∧ availableTokens s' = availableTokens s
  ∧ inflight s' = inflight s
  ∧ metrics s' = metrics s
  ∧ (∀ e, e ∈ queue s →
       promise (requestId e) (deliveries s) = None
       ∧ promise (requestId e) (deliveries s') = Some (Throw (Error "Queue cleared")))
  ∧ (∀ id, (id ∉ requestId <$> queue s) →
       promise id (deliveries s') = promise id (deliveries s)).
Proof.
  apply (clearQueue_rejects_every_waiting_caller 100 Scenario.calls).
  apply (bool_decide_unpack _). vm_compute. exact I.
Defined.

(** A request that has timed out keeps its time-out error when the queue
    is cleared afterwards. *)
Example clearQueue_example :
  let s' := clearQueue (run Scenario.calls (create 100)) in
  promise "a" (deliveries s') = Some (Throw (timedOut "a"))
  ∧ promise "b" (deliveries s') = Some (Throw (Error "Queue cleared"))
  ∧ promise "c" (deliveries s') = Some (Throw (Error "Queue cleared"))
  ∧ promise "r0" (deliveries s') = None.
Proof. vm_compute. done. Qed.

(** *** Draining the queue after a refill *)

Lemma queuedTokens_cons e q :
  queuedTokens (e :: q) = estimatedTokens e + queuedTokens q.
Proof.
  unfold queuedTokens. simpl.
  assert (∀ a, foldl (λ sum entry, sum + estimatedTokens entry) a q
               = a + foldl (λ sum entry, sum + estimatedTokens entry) 0 q) as H.
  { induction q as [|x q IH]; intros a; simpl; [lia|].
    rewrite (IH (a + estimatedTokens x)), (IH (0 + estimatedTokens x)). lia. }
  apply H.
Qed.

Lemma queuedTokens_nonneg q :
  Forall (λ e, 0 < estimatedTokens e) q → 0 ≤ queuedTokens q.
Proof.
  induction 1 as [|e q He _ IH]; [done|]. rewrite queuedTokens_cons. lia.
Qed.

Lemma limiter_run_cons ev evs s : run (ev :: evs) s = run evs (step s ev).
Proof. reflexivity. Qed.

(** The loop of [processQueue] while the head of the queue is in flight
    and the bucket covers what waits behind it. *)
Lemma drain_loop q : ∀ s e,
  inflight s = [Frame (requestFunction e) (estimatedTokens e) (requestId e) (Some e)] →
  queue s = q →
  0 < estimatedTokens e →
  Forall (λ e, 0 < estimatedTokens e) q →
  queuedTokens q ≤ availableTokens s →
  let s' := run (replicate (S (length q)) (Settle 0)) s in
  queue s' = [] ∧ inflight s' = []
  ∧ executed s' = executed s ++ (requestId <$> q)
  ∧ deliveries s' = deliveries s ++ (outcome <$> e :: q)
  ∧ availableTokens s' = availableTokens s + estimatedTokens e - kept (e :: q)
  ∧ tokensPerMinute s' = tokensPerMinute s.
Proof.
  induction q as [|e' q IH]; intros s e Hfl Hq He Hpos Hsum.
  - cbn [length replicate run foldl step]. unfold settle. rewrite Hfl. cbn [lookup list_lookup].
    unfold executeImmediate_resume, outcome, kept. cbn.
    destruct (requestFunction e); cbn; rewrite Hq; cbn;
      rewrite ?app_nil_r; split_and!; done || lia.
  - apply Forall_cons in Hpos as [He' Hpos]. rewrite queuedTokens_cons in Hsum.
    pose proof (queuedTokens_nonneg q Hpos) as Hq0.
    cbv zeta. cbn [length].
    change (replicate (S (S (length q))) (Settle 0))
      with (Settle 0 :: replicate (S (length q)) (Settle 0)).
    rewrite limiter_run_cons.
    set (s1 := step s (Settle 0)).
    assert (inflight s1
            = [Frame (requestFunction e') (estimatedTokens e') (requestId e') (Some e')]
            ∧ queue s1 = q
            ∧ executed s1 = executed s ++ [requestId e']
            ∧ deliveries s1 = deliveries s ++ [outcome e]
            ∧ availableTokens s1
              = availableTokens s + estimatedTokens e - kept [e] - estimatedTokens e'
            ∧ tokensPerMinute s1 = tokensPerMinute s) as (Hf1 & Hq1 & Hx1 & Hd1 & Ha1 & Ht1).
    { unfold s1. cbn [step]. unfold settle. rewrite Hfl. cbn [lookup list_lookup].
      unfold executeImmediate_resume, outcome, kept. cbn.
      destruct (requestFunction e); cbn; unfold processQueue; cbn; rewrite Hq; cbn.
      - replace (0 <? availableTokens s) with true by (symmetry; apply Z.ltb_lt; lia).
        replace (estimatedTokens e' <=? availableTokens s) with true
          by (symmetry; apply Z.leb_le; lia).
        cbn. split_and!; done || lia.
      - replace (0 <? availableTokens s + estimatedTokens e) with true
          by (symmetry; apply Z.ltb_lt; lia).
        replace (estimatedTokens e' <=? availableTokens s + estimatedTokens e) with true
          by (symmetry; apply Z.leb_le; lia).
        cbn. split_and!; done || lia. }
    assert (kept [e] ≤ estimatedTokens e) as Hk.
    { unfold kept. cbn. destruct (requestFunction e); lia. }
    destruct (IH s1 e' Hf1 Hq1 He' Hpos ltac:(lia)) as (Hq2 & Hf2 & Hx2 & Hd2 & Ha2 & Ht2).
    cbv zeta in Hq2, Hf2, Hx2, Hd2, Ha2, Ht2.
    split_and!; try done.
    + rewrite Hx2, Hx1, <-app_assoc. done.
    + rewrite Hd2, Hd1, <-app_assoc. done.
    + rewrite Ha2, Ha1. unfold kept. cbn. destruct (requestFunction e); lia.
    + congruence.
Qed.

(** X15.  Let requests of positive cost wait while nothing is in flight,
    their estimates adding up to no more than the bucket size.  A refill
    followed by the completion of each dispatched request serves the whole
    queue, in queue order: every caller receives the outcome of its own
    request function, the queue and the list of calls in flight end empty,
    and the bucket is short of exactly the estimates of the requests that
    succeeded, a failed one having handed its tokens back. *)
Theorem refill_serves_the_whole_queue s :
  inflight s = [] →
  Forall (λ e, 0 < estimatedTokens e) (queue s) →
  queuedTokens (queue s) ≤ tokensPerMinute s →
  let s' := run (Refill :: replicate (length (queue s)) (Settle 0)) s in
  queue s' = [] ∧ inflight s' = []
  ∧ executed s' = executed s ++ (requestId <$> queue s)
  ∧ deliveries s' = deliveries s ++ (outcome <$> queue s)
  ∧ availableTokens s' = tokensPerMinute s - kept (queue s).
Proof.
  intros Hfl Hpos Hsum.
  destruct (queue s) as [|e q] eqn:Hq.
  - cbn. unfold refill, processQueue. cbn. rewrite Hq. cbn.
    rewrite !app_nil_r. split_and!; done || lia.
  - apply Forall_cons in Hpos as [He Hpos]. rewrite queuedTokens_cons in Hsum.
    pose proof (queuedTokens_nonneg q Hpos) as Hq0.
    cbv zeta. cbn [length]. rewrite limiter_run_cons.
    set (s1 := step s Refill).
    assert (inflight s1
            = [Frame (requestFunction e) (estimatedTokens e) (requestId e) (Some e)]
            ∧ queue s1 = q
            ∧ executed s1 = executed s ++ [requestId e]
            ∧ deliveries s1 = deliveries s
            ∧ availableTokens s1 = tokensPerMinute s - estimatedTokens e
            ∧ tokensPerMinute s1 = tokensPerMinute s) as (Hf1 & Hq1 & Hx1 & Hd1 & Ha1 & Ht1).
    { unfold s1. cbn [step]. unfold refill, processQueue. cbn. rewrite Hq. cbn.
      replace (0 <? tokensPerMinute s) with true by (symmetry; apply Z.ltb_lt; lia).
      replace (estimatedTokens e <=? tokensPerMinute s) with true
        by (symmetry; apply Z.leb_le; lia).
      cbn. rewrite Hfl. done. }
    destruct (drain_loop q s1 e Hf1 Hq1 He Hpos ltac:(lia))
      as (Hq2 & Hf2 & Hx2 & Hd2 & Ha2 & _).
    cbv zeta in Hq2, Hf2, Hx2, Hd2, Ha2.
    split_and!; try done.
    + rewrite Hx2, Hx1, <-app_assoc. done.
    + rewrite Hd2, Hd1. done.
    + rewrite Ha2, Ha1. lia.
Qed.

Lemma refill_serves_the_whole_queue_witness :
  let s := Scenario.waiting in
  let s' := run (Refill :: replicate (length (queue s)) (Settle 0)) s in
  queue s' = [] ∧ inflight s' = []
  ∧ executed s' = executed s ++ (requestId <$> queue s)
  ∧ deliveries s' = deliveries s ++ (outcome <$> queue s)
  ∧ availableTokens s' = tokensPerMinute s - kept (queue s).
Proof.
  apply (refill_serves_the_whole_queue Scenario.waiting);
    [reflexivity
    | apply (bool_decide_unpack _); vm_compute; exact I
    | vm_compute; discriminate].
Defined.

Example refill_example :
  let s' := run (Refill :: replicate 3 (Settle 0)) Scenario.waiting in
  executed s' = ["r0"; "a"; "b"; "c"]%string
  ∧ availableTokens s' = 30
  ∧ promise "b" (deliveries s') = Some (Throw (Error "upstream 500")).
Proof. vm_compute. done. Qed.

(** *** Time-outs of waiting requests *)

Lemma armed_shrink s s' :
  nextTimer s' = nextTimer s →
  sublist (queue s') (queue s) →
  (∀ tm, tm ∈ timers s → (handle tm ∈ timeout <$> queue s') → tm ∈ timers s') →
  armed s → armed s'.
Proof.
  intros Hn Hsub Hkeep (Hnd & Hlt & Harm).
  assert (∀ e, e ∈ queue s' → e ∈ queue s) as Hin.
  { intros e He. eapply elem_of_sublist; [exact He | exact Hsub]. }
  split_and!.
  - eapply sublist_NoDup; [exact Hnd | by apply fmap_sublist].
  - intros e He. rewrite Hn. auto.
  - intros e He. destruct (Harm e (Hin e He)) as [d Hd]. exists d.
    apply (Hkeep _ Hd). simpl. by apply list_elem_of_fmap_2.
Qed.

Lemma armed_ext s s' :
  queue s' = queue s → timers s' = timers s → nextTimer s' = nextTimer s →
  armed s → armed s'.
Proof.
  intros Hq Ht Hn. apply armed_shrink; [done | by rewrite Hq |].
  intros tm Htm _. by rewrite Ht.
Qed.

Lemma armed_processQueue s : armed s → armed (processQueue s).
Proof.
  intros Ha. unfold processQueue. destruct (queue s) as [|e rest] eqn:Hq; [done|].
  destruct (_ && _); [|done].
  eapply (armed_ext (clearTimeout (timeout e) (set_queue rest s))); [done..|].
  pose proof Ha as (Hnd & _). rewrite Hq, fmap_cons in Hnd.
  apply NoDup_cons in Hnd as [Hnot _].
  revert Ha. apply armed_shrink; simpl; [done | rewrite Hq; by apply sublist_cons |].
  intros tm Htm Hh. apply list_elem_of_filter. split; [|done]. congruence.
Qed.

Lemma armed_settle n s : armed s → armed (settle n s).
Proof.
  intros Ha. unfold settle. destruct (inflight s !! n) as [fr|]; [|done].
  unfold executeImmediate_resume.
  destruct (f_requestFunction fr), (f_entry fr);
    first [apply armed_processQueue | idtac]; revert Ha; by apply armed_ext.
Qed.

Lemma armed_onTimeout ids h s : consistent ids s → armed s → armed (onTimeout h s).
Proof.
  intros (H1 & _ & _ & H4 & _) Ha. unfold onTimeout.
  destruct (list_find _ _) as [[i tm]|] eqn:Hfind; [|done].
  apply list_find_Some in Hfind as (Htm%list_elem_of_lookup_2 & Hh & _).
  destruct (H4 tm Htm) as (e & He & Hid & Hto).
  apply NoDup_app in H1 as (Hndq & _ & _).
  destruct (splice_NoDup (t_requestId tm) (queue s) Hndq) as (e' & Hsplice & He' & Hin').
  { rewrite <-Hid. by apply list_elem_of_fmap_2. }
  assert (e' = e) as -> by (eapply NoDup_fmap_inj; [exact Hndq|done..|congruence]).
  eapply (armed_ext (removeFromQueue (t_requestId tm) (clearTimeout h s))); [done..|].
  unfold removeFromQueue. cbn [queue clearTimeout]. rewrite Hsplice.
  pose proof Ha as (Hnd & _).
  revert Ha. apply armed_shrink; simpl; [done | apply sublist_filter |].
  intros tm' Htm' (e2 & Hh2 & [Hne He2]%list_elem_of_filter)%list_elem_of_fmap.
  assert (handle tm' ≠ timeout e) as Hdiff.
  { rewrite Hh2. intros Heq. apply Hne.
    assert (e2 = e) as -> by (eapply NoDup_fmap_inj; [exact Hnd|done..]). done. }
  apply list_elem_of_filter. split; [done|].
  apply list_elem_of_filter. split; [congruence|done].
Qed.

Lemma armed_clearQueue s : armed (clearQueue s).
Proof.
  unfold clearQueue, armed. simpl. split_and!.
  - apply NoDup_nil_2.
  - by intros e ?%elem_of_nil.
  - by intros e ?%elem_of_nil.
Qed.

Lemma armed_call fn o id start s : armed s → armed (executeRequest fn o id start s).
Proof.
  intros Ha. unfold executeRequest. cbv zeta.
  destruct (_ <=? _); [revert Ha; by apply armed_ext|].
  destruct Ha as (Hnd & Hlt & Harm). unfold queueRequest, armed. cbn [queue timers nextTimer].
  set (e := QueueEntry _ _ _ _ _ _).
  assert (nextTimer s ∉ timeout <$> queue s) as Hfresh.
  { intros (x & Hx & Hin)%list_elem_of_fmap. specialize (Hlt x Hin). lia. }
  assert (∀ x, x ∈ (if String.eqb (default "normal"%string (o_priority o)) "high"
                    then e :: queue s else queue s ++ [e]) ↔ x = e ∨ x ∈ queue s) as Hmem.
  { intros x. destruct (String.eqb _ _).
    - by rewrite elem_of_cons.
    - rewrite elem_of_app, list_elem_of_singleton. tauto. }
  split_and!.
  - destruct (String.eqb _ _).
    + rewrite fmap_cons. by apply NoDup_cons.
    + rewrite fmap_app. apply NoDup_app. split_and!; [done| |apply NoDup_singleton].
      intros x Hx ->%list_elem_of_singleton. done.
  - intros x [->|Hx]%Hmem; [simpl; lia|]. specialize (Hlt x Hx). lia.
  - intros x [->|Hx]%Hmem.
    + eexists. apply elem_of_app. right. apply list_elem_of_singleton. reflexivity.
    + destruct (Harm x Hx) as [d Hd]. exists d. apply elem_of_app. by left.
Qed.

Lemma armed_step ids s ev : consistent ids s → armed s → armed (step s ev).
Proof.
  intros Hc Ha. destruct ev; simpl.
  - by apply armed_call.
  - by apply armed_settle.
  - by eapply armed_onTimeout.
  - unfold refill. apply armed_processQueue. revert Ha. by apply armed_ext.
  - by apply armed_processQueue.
  - apply armed_clearQueue.
Qed.

Lemma armed_run evs : ∀ ids s,
  NoDup (ids ++ drawn evs) → consistent ids s → armed s →
  armed (run evs s).
Proof.
  induction evs as [|ev evs IH]; intros ids s Hnd Hc Ha; [done|].
  rewrite limiter_run_cons.
  assert (∀ id, draws id ev → id ∉ ids) as Hnew.
  { intros id Hid Hin. destruct ev; simpl in *; try done. subst.
    apply NoDup_app in Hnd as (_ & Hdisj & _). apply (Hdisj _ Hin). left. }
  apply (IH (ids ++ drawn [ev])).
  - unfold drawn in *. change (ev :: evs) with ([ev] ++ evs) in Hnd.
    rewrite omap_app, app_assoc in Hnd. done.
  - by apply consistent_step.
  - by eapply armed_step.
Qed.

(** X16.  In any run whose calls draw distinct request ids, every request
    that waits in the queue has its caller's promise pending and its
    time-out armed under its own id: nothing waits without a deadline. *)
Theorem waiting_requests_keep_their_timeout tpm evs i e :
  NoDup (drawn evs) →
  let s := run evs (create tpm) in
  queue s !! i = Some e →
  promise (requestId e) (deliveries s) = None
  ∧ ∃ d, Timer (timeout e) (requestId e) d ∈ timers s.
Proof.
  intros Hnd s He%list_elem_of_lookup_2.
  pose proof (reachable_consistent tpm evs Hnd) as (_ & _ & H3 & _).
  fold s in H3. destruct (H3 e He) as [Hpending%promise_None _].
  split; [done|].
  assert (armed s) as (_ & _ & Harm).
  { apply (armed_run evs []); [done | apply consistent_create |].
    unfold armed, create. simpl. split_and!;
      [apply NoDup_nil_2 | by intros ? ?%elem_of_nil | by intros ? ?%elem_of_nil]. }
  by apply Harm.
Qed.

Lemma waiting_requests_keep_their_timeout_witness :
  let s := run Scenario.calls (create 100) in
  promise "c" (deliveries s) = None
  ∧ ∃ d, Timer 2 "c" d ∈ timers s.
Proof.
  apply (waiting_requests_keep_their_timeout 100 Scenario.calls 1
           (QueueEntry (GroqRateLimiter.Scenario.text "c") 30 "normal" "c" 3 2));
    [apply (bool_decide_unpack _); vm_compute; exact I | reflexivity].
Defined.

(** *** Metrics *)

Lemma completions_snoc id r s :
  completions (deliver id r s)
  = completions s ++ (if succeeded (id, r) then [(id, r)] else []).
Proof.
  unfold completions. simpl. rewrite filter_app. f_equal.
  rewrite filter_cons, filter_nil. by destruct (succeeded (id, r)).
Qed.


Lemma tally_deliver_throw id e s : tally s → tally (deliver id (Throw e) s).
Proof.
  unfold tally. rewrite completions_snoc. simpl. by rewrite app_nil_r.
Qed.

Lemma tally_ext s s' :
  metrics s' = metrics s → enqueued s' = enqueued s → deliveries s' = deliveries s →
  inflight s' = inflight s → executed s' = executed s →
  tally s → tally s'.
Proof.
  unfold tally, completions. intros -> -> -> -> ->. done.
Qed.

Lemma tally_processQueue s : tally s → tally (processQueue s).
Proof.
  intros Ht. unfold processQueue. destruct (queue s) as [|e rest]; [done|].
  destruct (_ && _); [|done].
  destruct Ht as (H1 & H2 & H3). unfold tally, completions in *. simpl.
  rewrite length_app. simpl. split_and!; [done..|lia].
Qed.

Lemma tally_settle n s : tally s → tally (settle n s).
Proof.
  intros (H1 & H2 & H3). unfold settle.
  destruct (inflight s !! n) as [fr|] eqn:Hn; [|done].
  assert (Z.of_nat (length (inflight s))
          = Z.of_nat (length (delete n (inflight s))) + 1) as Hlen.
  { rewrite length_delete by done. apply lookup_lt_Some in Hn. lia. }
  assert (tally (let '(r, s') := executeImmediate_resume fr
                                   (set_inflight (delete n (inflight s)) s) in
                 deliver (f_requestId fr) r s')) as Hd.
  { unfold executeImmediate_resume.
    destruct (f_requestFunction fr); unfold tally in *;
      rewrite completions_snoc; simpl; rewrite ?app_nil_r, ?length_app; simpl;
      unfold completions in *; simpl; split_and!; lia. }
  assert (∀ id r s1, tally (deliver (f_requestId fr) r s1) → tally (deliver id r s1)) as Hid.
  { intros id r s1. unfold tally. rewrite !completions_snoc. simpl.
    by destruct r; simpl; rewrite ?length_app. }
  destruct (executeImmediate_resume fr _) as [r s1].
  destruct (f_entry fr); [apply tally_processQueue|]; by apply Hid.
Qed.

Lemma tally_onTimeout h s : tally s → tally (onTimeout h s).
Proof.
  intros Ht. unfold onTimeout. destruct (list_find _ _) as [[i tm]|]; [|done].
  apply tally_deliver_throw. revert Ht. apply tally_ext; try done;
    unfold removeFromQueue; simpl; by destruct (splice _ _) as [[e q']|].
Qed.

Lemma tally_clearQueue s : tally s → tally (clearQueue s).
Proof.
  intros Ht. unfold clearQueue.
  apply (tally_ext (foldl (λ s' entry, deliver (requestId entry)
                                         (Throw (Error "Queue cleared"))
                                         (clearTimeout (timeout entry) s'))
                          s (queue s))); [done..|].
  generalize (queue s). intros q. revert s Ht.
  induction q as [|e q IH]; intros s Ht; [done|]. simpl. apply IH.
  apply tally_deliver_throw. revert Ht. by apply tally_ext.
Qed.

Lemma tally_step s ev : tally s → tally (step s ev).
Proof.
  intros Ht. destruct ev; simpl.
  - unfold executeRequest. cbv zeta. destruct Ht as (H1 & H2 & H3).
    destruct (_ <=? _); unfold tally, completions in *; simpl;
      rewrite length_app; simpl; split_and!; lia.
  - by apply tally_settle.
  - by apply tally_onTimeout.
  - unfold refill. apply tally_processQueue. revert Ht. by apply tally_ext.
  - by apply tally_processQueue.
  - by apply tally_clearQueue.
Qed.

(** X17.  In every run of a new limiter the metrics agree with what
    happened: [requestsQueued] counts the requests that were queued,
    [requestsCompleted] the promises that were resolved, and every request
    that began executing has completed, has failed (counted in [errors])
    or is still in flight.  Time-outs and cleared requests count as
    neither. *)
Theorem metrics_agree_with_the_logs tpm evs : tally (run evs (create tpm)).
Proof.
  assert (∀ s, tally s → tally (run evs s)) as H.
  { induction evs as [|ev evs IH]; intros s Hs; [done|].
    rewrite limiter_run_cons. by apply IH, tally_step. }
  apply H. unfold tally, create, completions. simpl. done.
Qed.

End LimiterExtras.

(** ** More on the commentary worker *)
Module WorkerExtras.
Import CommentaryWorker CommentaryQueue WorkerProperties.
Local Open Scope Z_scope.

(** *** Sorting *)

Lemma descending_inv x l :
  descending (x :: l) → descending l ∧ Forall (λ y, priority y ≤ priority x) l.
Proof.
  intros H. apply Sorted_StronglySorted in H; [|intros a b c; lia].
  apply StronglySorted_inv in H as [Hs Hall]. split; [|done].
  by apply StronglySorted_Sorted.
Qed.

Lemma insert_head x l :
  Forall (λ y, priority y ≤ priority x) l → insert x l = x :: l.
Proof.
  destruct l as [|y l]; [done|]. intros [Hy _]%Forall_cons. simpl.
  replace (priority x <? priority y) with false by (symmetry; apply Z.ltb_ge; lia).
  done.
Qed.

(** Sorting a queue that is in order leaves it as it is. *)
Lemma sort_descending_id l : descending l → sort l = l.
Proof.
  induction l as [|x l IH]; [done|]. intros [Hl Hall]%descending_inv.
  simpl. fold (sort l). rewrite (IH Hl). by apply insert_head.
Qed.

Lemma filter_none {A} (P : A → Prop) `{!∀ x, Decision (P x)} (l : list A) :
  Forall (λ x, ¬ P x) l → filter P l = [].
Proof.
  induction 1 as [|x l Hx _ IH]; [done|]. by rewrite filter_cons_False.
Qed.

Lemma filter_every {A} (P : A → Prop) `{!∀ x, Decision (P x)} (l : list A) :
  Forall P l → filter P l = l.
Proof.
  induction 1 as [|x l Hx _ IH]; [done|]. rewrite filter_cons_True by done.
  by rewrite IH.
Qed.

Lemma sort_snoc x l :
  descending l →
  sort (l ++ [x])
  = filter (λ i, priority x ≤ priority i) l ++ x :: filter (λ i, priority i < priority x) l.
Proof.
  induction l as [|y l IH]; [done|]. intros [Hl Hall]%descending_inv.
  cbn [app sort foldr]. fold (sort (l ++ [x])). rewrite (IH Hl).
  rewrite !filter_cons. destruct (decide (priority x ≤ priority y)) as [Hxy|Hxy].
  - rewrite decide_False by lia. cbn [app]. apply insert_head.
    apply Forall_app. split; [|apply Forall_cons; split; [done|]].
    + apply Forall_forall. intros z [_ Hz]%list_elem_of_filter.
      by apply (proj1 (Forall_forall _ _) Hall).
    + apply Forall_forall. intros z [_ Hz]%list_elem_of_filter.
      by apply (proj1 (Forall_forall _ _) Hall).
  - rewrite decide_True by lia.
    assert (filter (λ i, priority x ≤ priority i) l = []) as ->.
    { apply filter_none. eapply Forall_impl; [exact Hall|]. intros z Hz. simpl in *. lia. }
    assert (filter (λ i, priority i < priority x) l = l) as ->.
    { apply filter_every. eapply Forall_impl; [exact Hall|]. intros z Hz. simpl in *. lia. }
    cbn [app insert].
    replace (priority y <? priority x) with true by (symmetry; apply Z.ltb_lt; lia).
    by rewrite insert_head.
Qed.

(** X18.  A job requeued after a temporary failure takes its place behind
    every waiting job whose priority is at least its lowered one, and ahead
    of the jobs of lower priority; the jobs that waited keep their order. *)
Theorem retried_job_waits_behind_its_peers e item w :
  isTemporary e = true →
  descending (queue w) →
  queue (handleFailure e item w)
  = filter (λ i, priority (demoted item) ≤ priority i) (queue w)
    ++ demoted item
    :: filter (λ i, priority i < priority (demoted item)) (queue w).
Proof.
  intros He Hd. unfold handleFailure. rewrite He. simpl.
  by apply (sort_snoc (demoted item)).
Qed.

Lemma retried_job_waits_behind_its_peers_witness :
  queue (handleFailure Scenario.rateLimited Scenario.budgetVote
           (Worker [Scenario.budgetVote; Scenario.cupFinal] 0 100 []))
  = filter (λ i, priority (demoted Scenario.budgetVote) ≤ priority i)
      [Scenario.budgetVote; Scenario.cupFinal]
    ++ demoted Scenario.budgetVote
    :: filter (λ i, priority i < priority (demoted Scenario.budgetVote))
         [Scenario.budgetVote; Scenario.cupFinal].
Proof.
  apply (retried_job_waits_behind_its_peers Scenario.rateLimited Scenario.budgetVote
           (Worker [Scenario.budgetVote; Scenario.cupFinal] 0 100 []));
    [reflexivity | repeat constructor; vm_compute; discriminate].
Defined.

(** *** Filling the queue *)

Lemma isInQueue_spec q id : isInQueue q id = true ↔ id ∈ articleId <$> q.
Proof.
  unfold isInQueue. induction q as [|i q IH]; simpl.
  - split; [done|]. by intros ?%elem_of_nil.
  - rewrite orb_true_iff, IH, elem_of_cons.
    destruct (String.eqb_spec (articleId i) id); split; intros [?|?]; auto; done.
Qed.

Lemma calculatePriority_range now a : 5 ≤ calculatePriority now a ≤ 10.
Proof.
  unfold calculatePriority. cbv zeta.
  destruct (a_created a) as [t|];
    repeat match goal with |- context [if ?b then _ else _] => destruct b end; lia.
Qed.

(** One turn of the loop: the queue as it was, or with one job more for an
    article that has no commentary and was not queued. *)
Lemma enqueue_spec now q a :
  (enqueue now q a = q ∧ (present (a_commentary a) = true ∨ a_id a ∈ articleId <$> q))
  ∨ (∃ i, enqueue now q a = q ++ [i]
          ∧ present (a_commentary a) = false
          ∧ (a_id a ∉ articleId <$> q)
          ∧ articleId i = a_id a
          ∧ priority i = calculatePriority now a).
Proof.
  unfold enqueue. destruct (present (a_commentary a)); [left; auto|].
  destruct (isInQueue q (a_id a)) eqn:Hq; simpl.
  - left. split; [done|]. right. by apply isInQueue_spec.
  - right. eexists. split_and!; try done.
    intros Hin%isInQueue_spec. congruence.
Qed.

Lemma add_fold now articles : ∀ q,
  NoDup (articleId <$> q) →
  let q' := foldl (enqueue now) q articles in
  NoDup (articleId <$> q')
  ∧ (∀ i, i ∈ q → i ∈ q')
  ∧ (∀ a, a ∈ articles → present (a_commentary a) = false → a_id a ∈ articleId <$> q')
  ∧ (∀ i, i ∈ q' →
       i ∈ q ∨ ∃ a, a ∈ articles ∧ present (a_commentary a) = false
                    ∧ articleId i = a_id a
                    ∧ priority i = calculatePriority now a).
Proof.
  induction articles as [|a articles IH]; intros q Hnd; cbn [foldl]; cbv zeta.
  - split_and!; [done | done | by intros ? ?%elem_of_nil | auto].
  - destruct (enqueue_spec now q a) as [[-> Hwhy]|(i & -> & Hp & Hnew & Hid & Hprio)].
    + destruct (IH q Hnd) as (H1 & H2 & H3 & H4). split_and!; [done | done | |].
      * intros a' [->|Ha']%elem_of_cons Hneed; [|by apply H3].
        destruct Hwhy as [?|Hin]; [congruence|].
        apply list_elem_of_fmap in Hin as (i & -> & Hi).
        apply list_elem_of_fmap_2. by apply H2.
      * intros i Hi. destruct (H4 i Hi) as [?|(a' & ? & ?)]; [by left|].
        right. exists a'. split; [by right|done].
    + assert (NoDup (articleId <$> q ++ [i])) as Hnd'.
      { rewrite fmap_app. apply NoDup_app. split_and!; [done| |apply NoDup_singleton].
        intros x Hx ->%list_elem_of_singleton. congruence. }
      destruct (IH (q ++ [i]) Hnd') as (H1 & H2 & H3 & H4). split_and!; [done | | |].
      * intros j Hj. apply H2, elem_of_app. by left.
      * intros a' [->|Ha']%elem_of_cons Hneed; [|by apply H3].
        rewrite <-Hid. apply list_elem_of_fmap_2, H2, elem_of_app. right. left.
      * intros j Hj. destruct (H4 j Hj) as [[?| ->%list_elem_of_singleton]%elem_of_app
                                            |(a' & ? & ?)].
        -- by left.
        -- right. exists a. split_and!; [left|done..].
        -- right. exists a'. split; [by right|done].
Qed.

(** Offering articles that are all queued or commented adds nothing. *)
Lemma add_fold_fixed now articles q :
  (∀ a, a ∈ articles →
     present (a_commentary a) = true ∨ a_id a ∈ articleId <$> q) →
  foldl (enqueue now) q articles = q.
Proof.
  induction articles as [|a articles IH]; intros H; [done|]. cbn [foldl].
  assert (enqueue now q a = q) as ->.
  { unfold enqueue. destruct (H a) as [->|Hin%isInQueue_spec]; [left|done|].
    by rewrite Hin, andb_false_r. }
  apply IH. intros a' Ha'. apply H. by right.
Qed.

(** X19.  [addArticlesToQueue] on a queue of distinct article ids: the
    ids stay distinct; every job that waited still waits; every offered
    article without commentary is queued afterwards, once, articles
    offered twice or already queued included; a job that is new belongs
    to such an article and ranks between 5 and 10; the queue is in
    descending order of priority; and offering the same articles again,
    at any time, changes nothing. *)
Theorem add_queues_each_article_once now articles w :
  NoDup (articleId <$> queue w) →
  let w' := addArticlesToQueue now articles w in
  NoDup (articleId <$> queue w')
  ∧ descending (queue w')
  ∧ (∀ i, i ∈ queue w → i ∈ queue w')
  ∧ (∀ a, a ∈ articles → present (a_commentary a) = false →
       a_id a ∈ articleId <$> queue w')
  ∧ (∀ i, i ∈ queue w' →
       i ∈ queue w ∨ ∃ a, a ∈ articles ∧ present (a_commentary a) = false
                          ∧ articleId i = a_id a
                          ∧ priority i = calculatePriority now a
                          ∧ 5 ≤ priority i ≤ 10)
  ∧ ∀ now', addArticlesToQueue now' articles w' = w'.
Proof.
  intros Hnd w'. destruct (add_fold now articles (queue w) Hnd) as (H1 & H2 & H3 & H4).
  cbv zeta in H1, H2, H3, H4.
  unfold w', addArticlesToQueue. cbn [queue with_queue].
  set (q' := foldl (enqueue now) (queue w) articles) in *.
  pose proof (sort_perm q') as Hperm.
  assert (∀ a, a ∈ articles → present (a_commentary a) = false →
            a_id a ∈ articleId <$> sort q') as H3'.
  { intros a Ha Hneed. rewrite Hperm. by apply H3. }
  split_and!.
  - by rewrite Hperm.
  - apply sort_descending.
  - intros i Hi. rewrite Hperm. by apply H2.
  - done.
  - intros i Hi. rewrite Hperm in Hi. destruct (H4 i Hi) as [?|(a & Ha & Hp & Hid & Hprio)].
    + by left.
    + right. exists a. split_and!; try done; rewrite Hprio; apply calculatePriority_range.
  - intros now'. unfold with_queue. cbn. f_equal.
    rewrite add_fold_fixed.
    + apply sort_descending_id, sort_descending.
    + intros a Ha. destruct (present (a_commentary a)) eqn:Hp; [by left|].
      right. by apply H3'.
Qed.

Lemma add_queues_each_article_once_witness :
  let articles := [Scenario.vote; Scenario.final; Scenario.recap; Scenario.vote] in
  let w := Worker [CommentaryWorker.Scenario.cupFinal] 0 100 [] in
  let w' := addArticlesToQueue Scenario.hour articles w in
  NoDup (articleId <$> queue w')
  ∧ descending (queue w')
  ∧ (∀ i, i ∈ queue w → i ∈ queue w')
  ∧ (∀ a, a ∈ articles → present (a_commentary a) = false →
       a_id a ∈ articleId <$> queue w')
  ∧ (∀ i, i ∈ queue w' →
       i ∈ queue w ∨ ∃ a, a ∈ articles ∧ present (a_commentary a) = false
                          ∧ articleId i = a_id a
                          ∧ priority i = calculatePriority Scenario.hour a
                          ∧ 5 ≤ priority i ≤ 10)
  ∧ ∀ now', addArticlesToQueue now' articles w' = w'.
Proof.
  apply (add_queues_each_article_once Scenario.hour
           [Scenario.vote; Scenario.final; Scenario.recap; Scenario.vote]
           (Worker [CommentaryWorker.Scenario.cupFinal] 0 100 [])).
  apply (bool_decide_unpack _). vm_compute. exact I.
Defined.

Example add_example :
  (λ i, (articleId i, priority i))
    <$> queue (addArticlesToQueue Scenario.hour
                 [Scenario.vote; Scenario.final; Scenario.recap; Scenario.vote]
                 (Worker [CommentaryWorker.Scenario.cupFinal] 0 100 []))
  = [("a1", 10); ("a2", 3)]%string.
Proof. vm_compute. done. Qed.

(** *** Runs of the worker *)

Lemma worker_run_cons o ops s : perform_all (o :: ops) s = perform_all ops (perform s o).
Proof. reflexivity. Qed.

Lemma ranked_fold now articles : ∀ q,
  Forall ranked q → Forall ranked (foldl (enqueue now) q articles).
Proof.
  induction articles as [|a articles IH]; intros q Hq; [done|]. cbn [foldl].
  apply IH. unfold enqueue. destruct (_ && _); [|done].
  apply Forall_app. split; [done|]. apply Forall_singleton. unfold ranked. simpl.
  pose proof (calculatePriority_range now a). lia.
Qed.

Lemma ranked_demoted i : ranked i → ranked (demoted i).
Proof. unfold ranked, demoted. simpl. lia. Qed.

(** The queue in order, every job on the scale. *)
Lemma kept_add now articles w :
  Forall ranked (queue w) →
  descending (queue (addArticlesToQueue now articles w))
  ∧ Forall ranked (queue (addArticlesToQueue now articles w)).
Proof.
  intros Hr. unfold addArticlesToQueue. simpl. split; [apply sort_descending|].
  rewrite sort_perm. by apply ranked_fold.
Qed.

Lemma kept_handleFailure e i w :
  descending (queue w) → Forall ranked (queue w) → ranked i →
  descending (queue (handleFailure e i w))
  ∧ Forall ranked (queue (handleFailure e i w)).
Proof.
  intros Hd Hr Hi. unfold handleFailure. destruct (isTemporary e); [|done]. simpl.
  split; [apply sort_descending|]. rewrite sort_perm.
  apply Forall_app. split; [done|]. apply Forall_singleton. by apply ranked_demoted.
Qed.

Lemma ranked_step s o :
  descending (queue (self s)) ∧ Forall ranked (queue (self s))
    ∧ Forall ranked (job <$> suspended s) →
  descending (queue (self (perform s o))) ∧ Forall ranked (queue (self (perform s o)))
    ∧ Forall ranked (job <$> suspended (perform s o)).
Proof.
  intros (Hd & Hr & Hs). destruct o as [now articles|now fetched| |n r|n r|]; cbn [perform].
  - cbn [self suspended]. destruct (kept_add now articles (self s) Hr). done.
  - cbn [self suspended]. unfold populateQueue. destruct fetched as [articles|]; [|done].
    cbv zeta. destruct (bool_decide _); [done|].
    destruct (kept_add now (filter (λ a, present (a_commentary a) = false) articles)
                (self s) Hr). done.
  - unfold processQueue_begin. cbv zeta. destruct (queue (self s)) as [|i rest] eqn:Hq;
      [by rewrite Hq|].
    destruct (_ <=? _); [by rewrite Hq|]. cbn [self suspended with_queue queue].
    apply descending_inv in Hd as [Hd _]. apply Forall_cons in Hr as [Hi Hr].
    split_and!; [done..|]. rewrite fmap_app. apply Forall_app. split; [done|].
    by apply Forall_singleton.
  - unfold processQueue_generated. destruct (suspended s !! n) as [[i|i c]|] eqn:Hn; [|done..].
    assert (ranked i) as Hi.
    { apply (proj1 (Forall_forall _ _) Hs). apply list_elem_of_fmap.
      exists (AwaitGenerate i). split; [done|]. by eapply list_elem_of_lookup_2. }
    assert (Forall ranked (job <$> delete n (suspended s))) as Hdel.
    { rewrite Forall_fmap in *. by apply Forall_delete. }
    destruct r as [[c|]|e]; cbn [self suspended].
    + split_and!; [done..|]. rewrite list_fmap_insert. by apply Forall_insert.
    + done.
    + destruct (kept_handleFailure e i (self s) Hd Hr Hi). done.
  - unfold processQueue_saved. destruct (suspended s !! n) as [[i|i c]|] eqn:Hn; [done| |done].
    assert (ranked i) as Hi.
    { apply (proj1 (Forall_forall _ _) Hs). apply list_elem_of_fmap.
      exists (AwaitSave i c). split; [done|]. by eapply list_elem_of_lookup_2. }
    assert (Forall ranked (job <$> delete n (suspended s))) as Hdel.
    { rewrite Forall_fmap in *. by apply Forall_delete. }
    destruct r as [u|e]; cbn [self suspended queue].
    + done.
    + destruct (kept_handleFailure e i (self s) Hd Hr Hi). done.
  - done.
Qed.

(** X20.  Whatever happens to the worker, in whatever order and however
    its runs of [processQueue] overlap, the queue is in descending order of
    priority and every job, waiting or in progress, has a priority between
    1 and 10. *)
Theorem queue_stays_ranked ops :
  let s := perform_all ops start in
  descending (queue (self s))
  ∧ Forall ranked (queue (self s))
  ∧ Forall ranked (job <$> suspended s).
Proof.
  assert (∀ s, descending (queue (self s)) ∧ Forall ranked (queue (self s))
                 ∧ Forall ranked (job <$> suspended s) →
               descending (queue (self (perform_all ops s))) ∧ Forall ranked (queue (self (perform_all ops s)))
                 ∧ Forall ranked (job <$> suspended (perform_all ops s))) as H.
  { induction ops as [|o ops IH]; intros s Hs; [done|].
    rewrite worker_run_cons. by apply IH, ranked_step. }
  apply H. unfold start, create. simpl. split_and!; constructor.
Qed.

(** *** Runs that do not overlap *)

(** What a serial schedule keeps. *)
Lemma add_NoDup now articles w :
  NoDup (articleId <$> queue w) →
  NoDup (articleId <$> queue (addArticlesToQueue now articles w)).
Proof.
  intros Hnd. destruct (add_fold now articles (queue w) Hnd) as (H1 & _).
  unfold addArticlesToQueue. simpl. by rewrite sort_perm.
Qed.

Lemma handleFailure_ids e i w :
  NoDup ((articleId <$> queue w) ++ [articleId i]) →
  NoDup (articleId <$> queue (handleFailure e i w)).
Proof.
  intros Hnd. unfold handleFailure. destruct (isTemporary e); simpl.
  - by rewrite sort_perm, fmap_app.
  - by apply NoDup_app in Hnd as (? & _).
Qed.

Lemma handleFailure_counter e i w :
  processedToday (handleFailure e i w) = processedToday w
  ∧ maxDailyCommentaries (handleFailure e i w) = maxDailyCommentaries w.
Proof. unfold handleFailure. by destruct (isTemporary e). Qed.

Lemma single (l : list call) n c :
  (length l ≤ 1)%nat → l !! n = Some c → l = [c] ∧ n = 0%nat.
Proof.
  destruct l as [|c0 [|c1 l]], n as [|n]; simpl; try done; try lia.
  intros _ [= ->]. done.
Qed.

Lemma serial_step s o :
  match o with
  | Add _ _ | Populate _ _ | Enter => suspended s = []
  | _ => True
  end →
  NoDup (inHand s) ∧ (length (suspended s) ≤ 1)%nat
    ∧ 0 ≤ processedToday (self s)
    ∧ processedToday (self s) + Z.of_nat (length (suspended s))
      ≤ maxDailyCommentaries (self s)
    ∧ 1 ≤ maxDailyCommentaries (self s) →
  let s' := perform s o in
  NoDup (inHand s') ∧ (length (suspended s') ≤ 1)%nat
    ∧ 0 ≤ processedToday (self s')
    ∧ processedToday (self s') + Z.of_nat (length (suspended s'))
      ≤ maxDailyCommentaries (self s')
    ∧ 1 ≤ maxDailyCommentaries (self s').
Proof.
  intros Hcalm (Hnd & Hlen & H0 & Hcap & Hmax). unfold inHand in *.
  destruct o as [now articles|now fetched| |n r|n r|]; cbn [perform]; cbv zeta.
  - rewrite Hcalm in *. cbn [self suspended fmap list_fmap length] in *.
    rewrite app_nil_r in *. split_and!; [by apply add_NoDup|done..].
  - rewrite Hcalm in *. cbn [self suspended fmap list_fmap length] in *.
    rewrite app_nil_r in *. unfold populateQueue.
    destruct fetched as [articles|]; [|done]. cbv zeta.
    destruct (bool_decide _); [done|]. split_and!; [by apply add_NoDup|done..].
  - unfold processQueue_begin. cbv zeta.
    destruct (queue (self s)) as [|i rest] eqn:Hq; [by rewrite Hq|].
    destruct (Z.leb_spec (maxDailyCommentaries (self s)) (processedToday (self s)));
      [by rewrite Hq|].
    rewrite Hcalm in *.
    cbn [self suspended with_queue queue processedToday maxDailyCommentaries
         fmap list_fmap length app] in *.
    rewrite app_nil_r in Hnd. split_and!; [|lia..].
    cbn [job]. by rewrite <-Permutation_cons_append.
  - unfold processQueue_generated.
    destruct (suspended s !! n) as [[i|i c]|] eqn:Hn; [|done..].
    destruct (single _ _ _ Hlen Hn) as [Hs ->]. rewrite Hs in *.
    cbn [fmap list_fmap job length] in *.
    destruct r as [[c|]|e]; cbn [self suspended fmap list_fmap job length
                                  insert list_insert delete list_delete].
    + done.
    + split_and!; [|lia..]. rewrite app_nil_r. by apply NoDup_app in Hnd as (? & _).
    + destruct (handleFailure_counter e i (self s)) as [-> ->].
      split_and!; [|lia..]. rewrite app_nil_r. by apply handleFailure_ids.
  - unfold processQueue_saved.
    destruct (suspended s !! n) as [[i|i c]|] eqn:Hn; [done| |done].
    destruct (single _ _ _ Hlen Hn) as [Hs ->]. rewrite Hs in *.
    cbn [fmap list_fmap job length] in *.
    destruct r as [u|e]; cbn [self suspended fmap list_fmap job length queue
                               processedToday maxDailyCommentaries
                               delete list_delete].
    + split_and!; [|lia..]. rewrite app_nil_r. by apply NoDup_app in Hnd as (? & _).
    + destruct (handleFailure_counter e i (self s)) as [-> ->].
      split_and!; [|lia..]. rewrite app_nil_r. by apply handleFailure_ids.
  - cbn [self suspended queue processedToday maxDailyCommentaries].
    split_and!; [done|done|lia|lia|done].
Qed.

(** X21.  As long as [processQueue] is entered, and the queue filled, only
    while no earlier call of [processQueue] is in progress, no article is
    held twice (waiting or in progress) and the number of commentaries
    written since the last reset stays within the daily limit. *)
Theorem serial_worker_keeps_its_limits ops :
  serial ops start = true →
  let s := perform_all ops start in
  NoDup (inHand s)
  ∧ 0 ≤ processedToday (self s) ≤ maxDailyCommentaries (self s)
  ∧ (length (suspended s) ≤ 1)%nat.
Proof.
  assert (∀ s, serial ops s = true →
               NoDup (inHand s) ∧ (length (suspended s) ≤ 1)%nat
               ∧ 0 ≤ processedToday (self s)
               ∧ processedToday (self s) + Z.of_nat (length (suspended s))
                 ≤ maxDailyCommentaries (self s)
               ∧ 1 ≤ maxDailyCommentaries (self s) →
               let s' := perform_all ops s in
               NoDup (inHand s') ∧ (length (suspended s') ≤ 1)%nat
               ∧ 0 ≤ processedToday (self s')
               ∧ processedToday (self s') + Z.of_nat (length (suspended s'))
                 ≤ maxDailyCommentaries (self s')
               ∧ 1 ≤ maxDailyCommentaries (self s')) as H.
  { induction ops as [|o ops IH]; intros s Hser Hs; [done|].
    cbn [serial] in Hser. apply andb_true_iff in Hser as [Hcalm Hser].
    cbv zeta. rewrite worker_run_cons. apply (IH _ Hser). apply serial_step; [|done].
    destruct o; try done; by apply bool_decide_eq_true in Hcalm. }
  intros Hser. destruct (H start Hser) as (H1 & H2 & H3 & H4 & H5).
  { unfold start, create, inHand. simpl. split_and!; [apply NoDup_nil_2|lia..]. }
  cbv zeta in *. split_and!; [done|done|lia|done].
Qed.

Lemma serial_worker_keeps_its_limits_witness :
  let s := perform_all Scenario.day start in
  NoDup (inHand s)
  ∧ 0 ≤ processedToday (self s) ≤ maxDailyCommentaries (self s)
  ∧ (length (suspended s) ≤ 1)%nat.
Proof.
  apply (serial_worker_keeps_its_limits Scenario.day). vm_compute. reflexivity.
Defined.

(** Offered again while its job is in progress, an article is queued a
    second time. *)
Example overlap_duplicates :
  serial Scenario.overlap start = false
  ∧ articleId <$> queue (self (perform_all Scenario.overlap start)) = ["a2"; "a2"]%string.
Proof. vm_compute. done. Qed.

(** A run of [processQueue] that nothing interrupts is the three steps in
    a row. *)
Lemma processQueue_in_one_go generate save w i rest :
  queue w = i :: rest →
  self (perform_all [Enter; Generated 0 (generate i);
             Saved 0 (match generate i with
                      | Ok (Some c) => save (articleId i) c
                      | _ => Ok ()
                      end)] (Pool w []))
  = processQueue generate save w.
Proof.
  intros Hq. unfold perform_all, processQueue. cbn [foldl perform]. unfold processQueue_begin.
  cbv zeta. cbn [self]. rewrite Hq.
  destruct (_ <=? _); [done|]. cbn [suspended app].
  unfold processQueue_generated. cbn [suspended lookup list_lookup].
  destruct (generate i) as [[c|]|e]; cbn; [|done..].
  unfold processQueue_saved. cbn. by destruct (save (articleId i) c).
Qed.

(** *** Errors of the rate limiter *)

Lemma prefix_cons a p b s :
  String.prefix (String a p) (String b s)
  = match Ascii.ascii_dec a b with
    | left _ => String.prefix p s
    | right _ => false
    end.
Proof. reflexivity. Qed.

Lemma append_cons c s t : String c s +:+ t = String c (s +:+ t).
Proof. reflexivity. Qed.

Lemma prefix_timeout id suf :
  String.prefix "timeout" (id +:+ String Ascii.Space suf) = String.prefix "timeout" id.
Proof.
  do 7 (destruct id as [|? id]; [reflexivity|];
        rewrite append_cons, !prefix_cons; destruct (Ascii.ascii_dec _ _); [|reflexivity]).
  by destruct id.
Qed.

Lemma includes_timeout id suf :
  includes (id +:+ String Ascii.Space suf) "timeout"
  = includes id "timeout" || includes (String Ascii.Space suf) "timeout".
Proof.
  induction id as [|c id IH]; [reflexivity|].
  change (includes (String c id +:+ String Ascii.Space suf) "timeout")
    with (String.prefix "timeout" (String c id +:+ String Ascii.Space suf)
          || includes (id +:+ String Ascii.Space suf) "timeout").
  rewrite prefix_timeout, IH.
  change (includes (String c id) "timeout")
    with (String.prefix "timeout" (String c id) || includes id "timeout").
  by rewrite orb_assoc.
Qed.

Lemma includes_rate_limit id suf :
  GroqTools.idString id = true →
  includes (id +:+ suf) "Rate limit" = includes suf "Rate limit".
Proof.
  induction id as [|c id IH]; [done|]. cbn [GroqTools.idString].
  intros [Hc Hid]%andb_true_iff.
  change (includes (String c id +:+ suf) "Rate limit")
    with (String.prefix "Rate limit" (String c (id +:+ suf))
          || includes (id +:+ suf) "Rate limit").
  rewrite (IH Hid), prefix_cons.
  destruct (Ascii.ascii_dec _ _) as [<-|]; [|done]. done.
Qed.

Lemma timedOut_is_not_temporary id :
  GroqTools.idString id = true → includes id "timeout" = false →
  isTemporary (GroqRateLimiter.timedOut id) = false.
Proof.
  intros Hid Hno. unfold isTemporary, GroqRateLimiter.timedOut. cbn [message].
  change (includes ("Request " +:+ id +:+ " timed out in queue") "Rate limit")
    with (includes (id +:+ " timed out in queue") "Rate limit").
  change (includes ("Request " +:+ id +:+ " timed out in queue") "timeout")
    with (includes (id +:+ " timed out in queue") "timeout").
  rewrite (includes_rate_limit _ _ Hid), includes_timeout, Hno. reflexivity.
Qed.

(** X22.  The errors with which the rate limiter rejects a queued call,
    the queue time-out of a request whose id is made of lower-case letters,
    digits and underscores and does not happen to spell "timeout", and
    "Queue cleared", are not taken for temporary: a job whose commentary
    fails with one of them is dropped from the queue, not retried, and the
    daily counter does not move. *)
Theorem limiter_rejections_drop_the_job generate save w job rest id e :
  queue w = job :: rest →
  processedToday w < maxDailyCommentaries w →
  GroqTools.idString id = true →
  includes id "timeout" = false →
  e = GroqRateLimiter.timedOut id ∨ e = Error "Queue cleared" →
  generate job = Throw e →
  isTemporary e = false
  ∧ processQueue generate save w
    = Worker rest (processedToday w) (maxDailyCommentaries w) (saved w).
Proof.
  intros Hq Hcap Hid Hno He Hgen.
  assert (isTemporary e = false) as Htemp.
  { destruct He as [-> | ->]; [by apply timedOut_is_not_temporary | reflexivity]. }
  split; [done|]. unfold processQueue. rewrite Hq.
  replace (_ <=? _) with false by (symmetry; apply Z.leb_gt; lia).
  rewrite Hgen. unfold handleFailure. by rewrite Htemp.
Qed.

Lemma limiter_rejections_drop_the_job_witness :
  let late := GroqRateLimiter.timedOut "req_1730600000000_k3j9x0q2a" in
  isTemporary late = false
  ∧ processQueue (λ _, Throw late) Scenario.store Scenario.fresh
    = Worker [Scenario.cupFinal] 0 100 [].
Proof.
  apply (limiter_rejections_drop_the_job (λ _, Throw _) Scenario.store Scenario.fresh
           Scenario.budgetVote [Scenario.cupFinal] "req_1730600000000_k3j9x0q2a"
           (GroqRateLimiter.timedOut "req_1730600000000_k3j9x0q2a"));
    [reflexivity | reflexivity | reflexivity | reflexivity | by left | reflexivity].
Defined.

(** An id whose random part spells "timeout" makes the same rejection a
    temporary error. *)
Example unlucky_id :
  isTemporary (GroqRateLimiter.timedOut "req_1730600000000_timeoutab") = true.
Proof. reflexivity. Qed.

End WorkerExtras.
